(** * CellScanner: the prediction-and-analysis pipeline of [scripts/run_prediction.py]

    A shallow embedding of [predict], [predict_species], [apply_gating],
    [stain_sannity_check], [save_gating_results] and [hetero_simple], and the
    properties of the specification that are settled on it.

    Conventions of the embedding.
    - Floating-point cells are idealised as real numbers ([R]): no NaN, no
      infinities and no rounding.  [math.log], [np.arcsinh] and
      [scipy.stats.entropy] become [ln], [arcsinh] and a sum of [- p * ln p].
    - A pandas [DataFrame] is a row count and an ordered list of named, typed
      columns.  Frames live in a heap and are passed by reference, so that
      [DataFrame.copy] and the in-place writes that follow it are visible.
    - A raised exception is the [Err] case of [result]; the text of a
      [ValueError] is kept as a structured [message].
    - Calls that only write files or draw plots ([to_csv], the plotting
      helpers, [save_prediction_results]) are sinks and are left out; the
      table handed to [run_heterogeneity] is recorded in the value that
      [predict] returns.
    - The chained assignment [df["state"].loc[mask] = v] is read as the
      in-place write it is under pandas without copy-on-write. *)

From Stdlib Require Import Reals Lra Lia List String Bool Arith Sorted.
From Stdlib Require OrderedTypeEx.
Import ListNotations.

Local Open Scope string_scope.
Local Open Scope list_scope.
Local Open Scope R_scope.

(** ** Exceptions and results *)

(** What [np.min] or [np.max] of a column prints in an error message. *)
Inductive scalar :=
| SNum (r : R)
| SBool (b : bool)
| SStr (s : string)
| SNaN.

(** The texts of the [ValueError]s of the module, with their holes. *)
Inductive message :=
| MsgUncertaintyThreshold
    (* "Uncertainty threshold must be between 0 and 1." *)
| MsgInvalidGating (channel : string) (stain_min stain_max : scalar)
                   (sign : string) (threshold : option R)
    (* "Invalid gating. Please check the gating thresholds.Stain {channel}
        ranges between {stain_min} and {stain_max}, while current gating
        thresholds are {sign} {threshold}." *)
| MsgMathDomain      (* math.log(0): "math domain error" *)
| MsgLengthMismatch  (* pandas: "Length of values does not match length of index" *)
| MsgNotInList       (* "list.remove(x): x not in list" *)
| MsgEmptyArgmax.    (* numpy: "attempt to get argmax of an empty sequence" *)

Inductive exn :=
| ValueError (m : message)
| KeyError (k : string)
| TypeError
| DanglingRef.  (* a location outside the heap; no Python counterpart *)

Inductive result (A : Type) :=
| Ok (a : A)
| Err (e : exn).
Arguments Ok {A} a.
Arguments Err {A} e.

Definition rbind {A B} (r : result A) (k : A -> result B) : result B :=
  match r with
  | Ok a => k a
  | Err e => Err e
  end.

Declare Scope result_scope.
Delimit Scope result_scope with result.
Notation "x <- r ;; k" := (rbind r (fun x => k))
  (at level 61, r at next level, right associativity) : result_scope.
Notation "' p <- r ;; k" := (rbind r (fun x => let p := x in k))
  (at level 61, p pattern, r at next level, right associativity) : result_scope.

(** ** Comparisons on floats *)

Definition Rgtb (x y : R) : bool := if Rlt_dec y x then true else false.
Definition Rltb (x y : R) : bool := if Rlt_dec x y then true else false.
Definition Reqb (x y : R) : bool := if Req_dec_T x y then true else false.

(** Python's [True == 1.0] and [False == 0.0]. *)
Definition bool_R (b : bool) : R := if b then 1 else 0.

(** ** Tables *)

Inductive column :=
| ColNum (xs : list R)        (* dtype float64 *)
| ColBool (bs : list bool)    (* dtype bool *)
| ColStr (ss : list string).  (* dtype object, holding str *)

Record DataFrame := mkDF {
  nrows : nat;
  columns : list (string * column)
}.

Definition col_len (c : column) : nat :=
  match c with
  | ColNum xs => List.length xs
  | ColBool bs => List.length bs
  | ColStr ss => List.length ss
  end.

Fixpoint lookup_col (name : string) (cs : list (string * column)) : option column :=
  match cs with
  | [] => None
  | (n, c) :: cs' => if String.eqb n name then Some c else lookup_col name cs'
  end.

(** [name in df.columns] *)
Definition has_col (df : DataFrame) (name : string) : bool :=
  match lookup_col name (columns df) with
  | Some _ => true
  | None => false
  end.

(** [df[name]] *)
Definition getitem (df : DataFrame) (name : string) : result column :=
  match lookup_col name (columns df) with
  | Some c => Ok c
  | None => Err (KeyError name)
  end.

Fixpoint replace_col (name : string) (c : column) (cs : list (string * column))
  : list (string * column) :=
  match cs with
  | [] => [(name, c)]
  | (n, c') :: cs' =>
      if String.eqb n name then (n, c) :: cs' else (n, c') :: replace_col name c cs'
  end.

(** [df[name] = c] for a whole column: an existing column keeps its
    position, a new one goes last. *)
Definition setitem (df : DataFrame) (name : string) (c : column) : DataFrame :=
  mkDF (nrows df) (replace_col name c (columns df)).

Fixpoint remove_col (name : string) (cs : list (string * column))
  : list (string * column) :=
  match cs with
  | [] => []
  | (n, c) :: cs' =>
      if String.eqb n name then cs' else (n, c) :: remove_col name cs'
  end.

(** [df.drop(columns=[name])] and the frame left by [df.pop(name)]. *)
Definition drop_col (df : DataFrame) (name : string) : DataFrame :=
  mkDF (nrows df) (remove_col name (columns df)).

(** [df[name] = v] for a scalar [v], broadcast over the index. *)
Definition setitem_bool (df : DataFrame) (name : string) (v : bool) : DataFrame :=
  setitem df name (ColBool (repeat v (nrows df))).
Definition setitem_str (df : DataFrame) (name : string) (v : string) : DataFrame :=
  setitem df name (ColStr (repeat v (nrows df))).

(** [s.loc[mask] = v]: the rows where the mask holds take [v]; the length
    of the column never changes. *)
Fixpoint assign_where {A} (mask : list bool) (v : A) (xs : list A) : list A :=
  match xs with
  | [] => []
  | x :: xs' =>
      match mask with
      | [] => xs
      | m :: mask' => (if m then v else x) :: assign_where mask' v xs'
      end
  end.

(** [df.loc[mask, name] = True] on a boolean column. *)
Definition loc_assign_bool (df : DataFrame) (mask : list bool) (name : string) (v : bool)
  : result DataFrame :=
  (c <- getitem df name ;;
   match c with
   | ColBool bs => Ok (setitem df name (ColBool (assign_where mask v bs)))
   | _ => Err TypeError
   end)%result.

(** [df[name].loc[mask] = v] and [df.loc[mask, name] = v] on a column of
    strings. *)
Definition loc_assign_str (df : DataFrame) (mask : list bool) (name : string) (v : string)
  : result DataFrame :=
  (c <- getitem df name ;;
   match c with
   | ColStr ss => Ok (setitem df name (ColStr (assign_where mask v ss)))
   | _ => Err TypeError
   end)%result.

(** *** Comparisons of a column with a scalar *)

Inductive cmp := CmpGt | CmpLt.

Definition cmp_R (op : cmp) (x t : R) : bool :=
  match op with
  | CmpGt => Rgtb x t
  | CmpLt => Rltb x t
  end.

(** [series > t] and [series < t].  Against [None] pandas answers all
    [False]; a boolean column compares as 0/1; a column of strings against a
    number raises [TypeError] as soon as it has a row. *)
Definition series_cmp (op : cmp) (c : column) (t : option R) : result (list bool) :=
  match t with
  | None => Ok (repeat false (col_len c))
  | Some t =>
      match c with
      | ColNum xs => Ok (map (fun x => cmp_R op x t) xs)
      | ColBool bs => Ok (map (fun b => cmp_R op (bool_R b) t) bs)
      | ColStr [] => Ok []
      | ColStr (_ :: _) => Err TypeError
      end
  end.

(** [series == b] for a Python boolean [b]. *)
Definition series_eq_bool (c : column) (b : bool) : list bool :=
  match c with
  | ColNum xs => map (fun x => Reqb x (bool_R b)) xs
  | ColBool bs => map (Bool.eqb b) bs
  | ColStr ss => map (fun _ => false) ss
  end.

(** [series == s] for a string [s]. *)
Definition series_eq_str (c : column) (s : string) : list bool :=
  match c with
  | ColNum xs => map (fun _ => false) xs
  | ColBool bs => map (fun _ => false) bs
  | ColStr ss => map (fun x => String.eqb x s) ss
  end.

(** [m1 & m2] on two masks over the same index. *)
Fixpoint mask_and (m1 m2 : list bool) : list bool :=
  match m1, m2 with
  | a :: m1', b :: m2' => (a && b) :: mask_and m1' m2'
  | _, _ => []
  end.

(** *** Reductions *)

Definition fold1 {A} (f : A -> A -> A) (xs : list A) : option A :=
  match xs with
  | [] => None
  | x :: xs' => Some (fold_left f xs' x)
  end.

Definition str_min (a b : string) : string := if String.ltb b a then b else a.
Definition str_max (a b : string) : string := if String.ltb a b then b else a.

Definition scalar_of {A} (inj : A -> scalar) (o : option A) : scalar :=
  match o with
  | Some a => inj a
  | None => SNaN
  end.

(** [np.min(series)] and [np.max(series)]; an empty series gives [nan]. *)
Definition np_min (c : column) : scalar :=
  match c with
  | ColNum xs => scalar_of SNum (fold1 Rmin xs)
  | ColBool bs => scalar_of SBool (fold1 andb bs)
  | ColStr ss => scalar_of SStr (fold1 str_min ss)
  end.

Definition np_max (c : column) : scalar :=
  match c with
  | ColNum xs => scalar_of SNum (fold1 Rmax xs)
  | ColBool bs => scalar_of SBool (fold1 orb bs)
  | ColStr ss => scalar_of SStr (fold1 str_max ss)
  end.

(** [b in series.value_counts().index] for a Python boolean [b]: some row
    equals [b] (and [1.0 == True], [0.0 == False]). *)
Definition in_value_counts (b : bool) (c : column) : bool :=
  match c with
  | ColNum xs => existsb (fun x => Reqb x (bool_R b)) xs
  | ColBool bs => existsb (Bool.eqb b) bs
  | ColStr _ => false
  end.

(** [np.arcsinh(series / cofactor)] *)
Definition arcsinh_scaled (cofactor : R) (x : R) : R := arcsinh (x / cofactor).

(** The loop over [select_dtypes(include=[np.number]).columns]: every float
    column is rewritten in place, the others are left alone. *)
Definition arcsinh_numeric (cofactor : R) (df : DataFrame) : DataFrame :=
  mkDF (nrows df)
       (map (fun nc : string * column =>
               match snd nc with
               | ColNum xs => (fst nc, ColNum (map (arcsinh_scaled cofactor) xs))
               | c => (fst nc, c)
               end)
            (columns df)).

(** ** The Stain Gate Evaluator and the Gating Engine *)

(** [stain_sannity_check(df, label, channel, sign, threshold)] *)
Definition stain_sannity_check (df : DataFrame) (label channel sign : string)
           (threshold : option R) : result unit :=
  (counts <- getitem df label ;;
   if negb (in_value_counts true counts) || negb (in_value_counts false counts)
   then
     col <- getitem df channel ;;
     Err (ValueError (MsgInvalidGating channel (np_min col) (np_max col) sign threshold))
   else Ok tt)%result.

Definition str_in (s : string) (l : list string) : bool := existsb (String.eqb s) l.

(** Python truthiness of a [str] and of a [float] or [None]. *)
Definition truthy_str (s : option string) : bool :=
  match s with
  | Some s => negb (String.eqb s "")
  | None => false
  end.

Definition truthy_float (t : option R) : bool :=
  match t with
  | Some t => negb (Reqb t 0)
  | None => false
  end.

(** One primary gate of [apply_gating]: the block under
    [if stain1 is not None] with [label = "dead"], and the block under
    [if stain2 is not None] with [label = "cell"]. *)
Definition primary_gate (label : string) (stain : option string) (relation : string)
           (threshold : option R) (gated_data_df : DataFrame) (all_labels : list string)
  : result (DataFrame * list string) :=
  match stain with
  | None => Ok (gated_data_df, all_labels)
  | Some stain =>
      (let gated_data_df := setitem_bool gated_data_df label false in
       gated_data_df <-
         (if str_in relation [">"; "greater_than"] then
            col <- getitem gated_data_df stain ;;
            mask <- series_cmp CmpGt col threshold ;;
            loc_assign_bool gated_data_df mask label true
          else if str_in relation ["<"; "less_than"] then
            col <- getitem gated_data_df stain ;;
            mask <- series_cmp CmpLt col threshold ;;
            loc_assign_bool gated_data_df mask label true
          else Ok gated_data_df) ;;
       _ <- stain_sannity_check gated_data_df label stain relation threshold ;;
       Ok (gated_data_df, all_labels ++ [label]))%result
  end.

(** The block under [if stain2 and stain2_threshold and stain1]. *)
Definition derive_state (gated_data_df : DataFrame) : result DataFrame :=
  (let gated_data_df := setitem_str gated_data_df "state" "debris" in
   dead <- getitem gated_data_df "dead" ;;
   cell <- getitem gated_data_df "cell" ;;
   gated_data_df <-
     loc_assign_str gated_data_df
       (mask_and (series_eq_bool dead false) (series_eq_bool cell true)) "state" "live" ;;
   dead <- getitem gated_data_df "dead" ;;
   cell <- getitem gated_data_df "cell" ;;
   loc_assign_str gated_data_df
     (mask_and (series_eq_bool dead true) (series_eq_bool cell true)) "state" "inactive")%result.

(** An entry of the [extra_stains] dictionary:
    [channel -> (sign, threshold, label)]. *)
Definition extra_stain : Type := string * (string * option R * string).

(** The loop [for channel, details in extra_stains.items()]. *)
Fixpoint gate_extra_stains (extra_stains : list extra_stain) (gated_data_df : DataFrame)
         (all_labels : list string) : result (DataFrame * list string) :=
  match extra_stains with
  | [] => Ok (gated_data_df, all_labels)
  | (channel, (sign, threshold, label)) :: rest =>
      (col <- getitem gated_data_df channel ;;
       condition <- series_cmp (if String.eqb sign ">" then CmpGt else CmpLt) col threshold ;;
       let gated_data_df := setitem gated_data_df label (ColBool condition) in
       _ <- stain_sannity_check gated_data_df label channel sign threshold ;;
       gate_extra_stains rest gated_data_df (all_labels ++ [label]))%result
  end.

(** The body of [apply_gating] after [gated_data_df = data_df.copy()]: every
    statement reads and writes the copy. *)
Definition apply_gating_body
           (stain1 : option string) (stain1_relation : string) (stain1_threshold : option R)
           (stain2 : option string) (stain2_relation : string) (stain2_threshold : option R)
           (scaling_constant : R) (extra_stains : option (list extra_stain))
           (gated_data_df : DataFrame) : result (DataFrame * list string) :=
  (let all_labels : list string := [] in
   let predictions_column :=
     if has_col gated_data_df "predictions"
     then lookup_col "predictions" (columns gated_data_df) else None in
   let gated_data_df :=
     if has_col gated_data_df "predictions"
     then drop_col gated_data_df "predictions" else gated_data_df in
   let cofactor := scaling_constant in
   let gated_data_df := arcsinh_numeric cofactor gated_data_df in
   let gated_data_df :=
     match predictions_column with
     | Some c => setitem gated_data_df "predictions" c
     | None => gated_data_df
     end in
   '(gated_data_df, all_labels) <-
     primary_gate "dead" stain1 stain1_relation stain1_threshold gated_data_df all_labels ;;
   '(gated_data_df, all_labels) <-
     primary_gate "cell" stain2 stain2_relation stain2_threshold gated_data_df all_labels ;;
   '(gated_data_df, all_labels) <-
     (if truthy_str stain2 && truthy_float stain2_threshold && truthy_str stain1 then
        gated_data_df <- derive_state gated_data_df ;;
        Ok (gated_data_df, all_labels ++ ["state"])
      else Ok (gated_data_df, all_labels)) ;;
   match extra_stains with
   | Some extra_stains => gate_extra_stains extra_stains gated_data_df all_labels
   | None => Ok (gated_data_df, all_labels)
   end)%result.

(** ** The heap of frames *)

Definition loc := nat.
Definition heap := list DataFrame.

(** A computation on the heap; an exception leaves the heap as it was when
    it was raised. *)
Definition M (A : Type) : Type := heap -> result A * heap.

Definition mret {A} (a : A) : M A := fun h => (Ok a, h).

Definition mbind {A B} (m : M A) (k : A -> M B) : M B :=
  fun h =>
    match m h with
    | (Ok a, h') => k a h'
    | (Err e, h') => (Err e, h')
    end.

Definition mraise {A} (e : exn) : M A := fun h => (Err e, h).

Definition lift_result {A} (r : result A) : M A := fun h => (r, h).

Declare Scope heap_scope.
Delimit Scope heap_scope with heap.
Notation "x <- m ;; k" := (mbind m (fun x => k))
  (at level 61, m at next level, right associativity) : heap_scope.
Notation "' p <- m ;; k" := (mbind m (fun x => let p := x in k))
  (at level 61, p pattern, m at next level, right associativity) : heap_scope.

Fixpoint store (l : loc) (df : DataFrame) (h : heap) : heap :=
  match h, l with
  | [], _ => []
  | _ :: h', O => df :: h'
  | d :: h', S l' => d :: store l' df h'
  end.

(** Reading the frame a reference points to. *)
Definition df_read (l : loc) : M DataFrame :=
  fun h =>
    match nth_error h l with
    | Some df => (Ok df, h)
    | None => (Err DanglingRef, h)
    end.

(** A new frame object: the result of an expression such as
    [df[mask]]. *)
Definition df_new (df : DataFrame) : M loc :=
  fun h => (Ok (List.length h), h ++ [df]).

(** [df.copy()]: a new frame object with the same contents. *)
Definition df_copy (l : loc) : M loc :=
  (df <- df_read l ;; df_new df)%heap.

(** Statements that write the frame behind [l] in place.  When they raise,
    the frame is left as it was before them: the only frames written in place
    here are local copies, which nothing can reach after an exception. *)
Definition df_update {A} (l : loc) (f : DataFrame -> result (DataFrame * A)) : M A :=
  fun h =>
    match nth_error h l with
    | None => (Err DanglingRef, h)
    | Some df =>
        match f df with
        | Ok (df', a) => (Ok a, store l df' h)
        | Err e => (Err e, h)
        end
    end.

(** [apply_gating(data_df, stain1, stain1_relation, stain1_threshold, stain2,
    stain2_relation, stain2_threshold, scaling_constant, extra_stains)]
    returns the reference of the gated frame and the list of labels. *)
Definition apply_gating (data_df : loc)
           (stain1 : option string) (stain1_relation : string) (stain1_threshold : option R)
           (stain2 : option string) (stain2_relation : string) (stain2_threshold : option R)
           (scaling_constant : R) (extra_stains : option (list extra_stain))
  : M (loc * list string) :=
  (gated_data_df <- df_copy data_df ;;
   all_labels <-
     df_update gated_data_df
       (apply_gating_body stain1 stain1_relation stain1_threshold
                          stain2 stain2_relation stain2_threshold
                          scaling_constant extra_stains) ;;
   mret (gated_data_df, all_labels))%heap.

(** [list.remove(x)]: the first occurrence goes; [ValueError] when there is
    none. *)
Fixpoint list_remove (x : string) (l : list string) : result (list string) :=
  match l with
  | [] => Err (ValueError MsgNotInList)
  | y :: l' =>
      if String.eqb y x then Ok l'
      else (r <- list_remove x l' ;; Ok (y :: r))%result
  end.

(** [save_gating_results(gated_data_df, ..., all_labels)], as far as the
    caller can see it: [all_labels] is the caller's list object and is
    changed in place, so the list is returned as it stands after the call.
    The counts written to the CSV file and the plot are sinks. *)
Definition save_gating_results (gated_data_df : DataFrame) (all_labels : list string)
  : result (list string) :=
  (_ <- getitem gated_data_df "predictions" ;;
   if str_in "state" all_labels then
     all_labels <- list_remove "dead" all_labels ;;
     list_remove "cell" all_labels
   else Ok all_labels)%result.

(** ** The Heterogeneity Engine *)

Definition Rsum (xs : list R) : R := fold_right Rplus 0 xs.

(** [np.ptp] of a column with at least one row: maximum minus minimum. *)
Definition np_ptp (col : list R) : option R :=
  match fold1 Rmax col, fold1 Rmin col with
  | Some hi, Some lo => Some (hi - lo)
  | _, _ => None
  end.

Fixpoint all_some {A} (os : list (option A)) : option (list A) :=
  match os with
  | [] => Some []
  | Some a :: os' =>
      match all_some os' with
      | Some l => Some (a :: l)
      | None => None
      end
  | None :: _ => None
  end.

(** [Series.mean()] of a series with at least one entry. *)
Definition series_mean (xs : list R) : option R :=
  match xs with
  | [] => None
  | _ => Some (Rsum xs / INR (List.length xs))
  end.

(** [hetero_simple(data)]: [data] is the numeric feature table, one list
    per column.  [np.sum] of the scalar mean is that scalar.  When the table
    has no column or no row pandas leaves the reduction path; that case is
    outside the model and gives [None]. *)
Definition hetero_simple (data : list (list R)) : option R :=
  match all_some (map np_ptp data) with
  | Some ranges => series_mean ranges
  | None => None
  end.

(** ** The Species Predictor *)

(** [scipy.special.entr] on the values a probability can take; on a
    negative argument scipy answers minus infinity, which real numbers do not
    have and the model replaces by 0. *)
Definition entr (x : R) : R := if Rlt_dec 0 x then - x * ln x else 0.

(** [scipy.stats.entropy(pk)] for one row: the row is normalised by its sum
    and the natural logarithm is used. *)
Definition entropy (pk : list R) : R :=
  let s := Rsum pk in
  Rsum (map (fun p => entr (p / s)) pk).

(** [np.argmax] of one row: the first position of the maximum; an empty row
    is an error. *)
Fixpoint argmax_from (best : nat) (best_v : R) (i : nat) (xs : list R) : nat :=
  match xs with
  | [] => best
  | x :: xs' =>
      if Rgtb x best_v then argmax_from i x (S i) xs'
      else argmax_from best best_v (S i) xs'
  end.

Definition np_argmax (row : list R) : result nat :=
  match row with
  | [] => Err (ValueError MsgEmptyArgmax)
  | x :: xs => Ok (argmax_from 0%nat x 1%nat xs)
  end.

Fixpoint mapM {A B} (f : A -> result B) (l : list A) : result (list B) :=
  match l with
  | [] => Ok []
  | a :: l' => (b <- f a ;; bs <- mapM f l' ;; Ok (b :: bs))%result
  end.

(** [df.select_dtypes(include=[np.number])] *)
Definition select_numeric (df : DataFrame) : DataFrame :=
  mkDF (nrows df)
       (filter (fun nc : string * column =>
                  match snd nc with ColNum _ => true | _ => false end)
               (columns df)).

(** The pre-trained artifacts are collaborators: the scaler maps the
    transformed numeric frame to a matrix and the classifier maps that matrix
    to one row of class probabilities per cell. *)
Definition matrix := list (list R).

(** [predict_species(data_df, model, scaler, label_encoder, scaling_constant)];
    [label_encoder] stands for [label_encoder.classes_] and the returned
    [index_to_species] for the dictionary [{0: classes_[0], 1: ...}]. *)
Definition predict_species (data_df : DataFrame)
           (model : matrix -> matrix) (scaler : DataFrame -> matrix)
           (label_encoder : list string) (scaling_constant : R)
  : result (list nat * list R * list string) :=
  (let data_df_arcsinh := arcsinh_numeric scaling_constant data_df in
   let X_co_scaled := scaler (select_numeric data_df_arcsinh) in
   let predictions := model X_co_scaled in
   predicted_classes <- mapM np_argmax predictions ;;
   let uncertainties := map entropy predictions in
   let index_to_species := label_encoder in
   Ok (predicted_classes, uncertainties, index_to_species))%result.

(** ** The Pipeline Orchestrator *)

Record Stain := mkStain {
  channel : option string;
  sign : string;
  value : option R
}.

(** The keyword arguments of [predict] that reach the modelled part; the
    output directory, the sample name and the three plot axes only reach the
    sinks. *)
Record kwargs := mkKwargs {
  model : matrix -> matrix;
  scaler : DataFrame -> matrix;
  label_encoder : list string;
  data_df : loc;
  gating : bool;
  scaling_constant : R;
  filter_out_uncertain : bool;
  uncertainty_threshold : R;
  stain1 : Stain;
  stain2 : Stain;
  extra_stains : option (list extra_stain)
}.

(** [math.log(n)] for the length of a list. *)
Definition math_log (n : nat) : result R :=
  match n with
  | O => Err (ValueError MsgMathDomain)
  | _ => Ok (ln (INR n))
  end.

(** The block under the comment [# Get uncertainty threshold]: the value of
    [uncertainty_threshold] after it. *)
Definition get_uncertainty_threshold (filter_out_uncertain : bool)
           (label_encoder : list string) (uncertainty_threshold : R) : result R :=
  if filter_out_uncertain then
    (let number_of_classes := List.length label_encoder in
     max_entropy <- math_log number_of_classes ;;
     if (Rltb uncertainty_threshold 0 && negb (Reqb uncertainty_threshold (-1)))
        || Rgtb uncertainty_threshold max_entropy
     then Err (ValueError MsgUncertaintyThreshold)
     else if Reqb uncertainty_threshold (-1) then Ok (0.5 * max_entropy)
     else Ok uncertainty_threshold)%result
  else Ok uncertainty_threshold.

(** [df[name] = values] for an array of values: the lengths must agree. *)
Definition setitem_array (df : DataFrame) (name : string) (c : column) : result DataFrame :=
  if Nat.eqb (col_len c) (nrows df) then Ok (setitem df name c)
  else Err (ValueError MsgLengthMismatch).

(** [index_to_species.get(i)]; a missing index prints as ["None"]. *)
Definition species_of (index_to_species : list string) (i : nat) : string :=
  match nth_error index_to_species i with
  | Some s => s
  | None => "None"
  end.

(** The statements of [predict] that build [data_df_pred] once the copy is
    made: drop [Time], add the two columns, relabel the uncertain rows. *)
Definition build_predictions (predicted_classes : list nat) (uncertainties : list R)
           (index_to_species : list string) (filter_out_uncertain : bool)
           (uncertainty_threshold : R) (data_df_pred : DataFrame)
  : result (DataFrame * unit) :=
  (let data_df_pred :=
     if has_col data_df_pred "Time" then drop_col data_df_pred "Time" else data_df_pred in
   let mapped_predictions := map (species_of index_to_species) predicted_classes in
   data_df_pred <- setitem_array data_df_pred "predictions" (ColStr mapped_predictions) ;;
   data_df_pred <- setitem_array data_df_pred "uncertainties" (ColNum uncertainties) ;;
   data_df_pred <-
     (if filter_out_uncertain then
        unc <- getitem data_df_pred "uncertainties" ;;
        mask <- series_cmp CmpGt unc (Some uncertainty_threshold) ;;
        loc_assign_str data_df_pred mask "predictions" "Unknown"
      else Ok data_df_pred) ;;
   Ok (data_df_pred, tt))%result.

Fixpoint select_rows {A} (mask : list bool) (xs : list A) : list A :=
  match mask, xs with
  | m :: mask', x :: xs' =>
      if m then x :: select_rows mask' xs' else select_rows mask' xs'
  | _, _ => []
  end.

(** [df[mask]]: the rows where the mask holds, as a new frame. *)
Definition boolean_index (df : DataFrame) (mask : list bool) : DataFrame :=
  mkDF (List.length (select_rows mask (repeat tt (nrows df))))
       (map (fun nc : string * column =>
               match snd nc with
               | ColNum xs => (fst nc, ColNum (select_rows mask xs))
               | ColBool bs => (fst nc, ColBool (select_rows mask bs))
               | ColStr ss => (fst nc, ColStr (select_rows mask ss))
               end)
            (columns df)).

(** What a run of [predict] leaves for its caller and its collaborators:
    the returned table, the threshold in force, the result of gating (when it
    ran) and the table passed to [run_heterogeneity]. *)
Record prediction_run := mkRun {
  run_data_df_pred : loc;
  run_uncertainty_threshold : R;
  run_gating : option (loc * list string);
  run_hetero_df : loc
}.

(** [predict] called with keyword arguments (the command-line path), up to
    the call of [run_heterogeneity]. *)
Definition predict (kw : kwargs) : M prediction_run :=
  (uncertainty_threshold <-
     lift_result (get_uncertainty_threshold (filter_out_uncertain kw) (label_encoder kw)
                                            (uncertainty_threshold kw)) ;;
   df <- df_read (data_df kw) ;;
   '(predicted_classes, uncertainties, index_to_species) <-
     lift_result (predict_species df (model kw) (scaler kw) (label_encoder kw)
                                  (scaling_constant kw)) ;;
   data_df_pred <- df_copy (data_df kw) ;;
   _ <- df_update data_df_pred
          (build_predictions predicted_classes uncertainties index_to_species
                             (filter_out_uncertain kw) uncertainty_threshold) ;;
   if gating kw then
     '(gating_df, all_labels) <-
       apply_gating data_df_pred
         (channel (stain1 kw)) (sign (stain1 kw)) (value (stain1 kw))
         (channel (stain2 kw)) (sign (stain2 kw)) (value (stain2 kw))
         (scaling_constant kw) (extra_stains kw) ;;
     gated <- df_read gating_df ;;
     all_labels <- lift_result (save_gating_results gated all_labels) ;;
     hetero_df <-
       (if str_in "state" all_labels then
          state <- lift_result (getitem gated "state") ;;
          df_new (boolean_index gated (series_eq_str state "live"))
        else mret gating_df) ;;
     mret (mkRun data_df_pred uncertainty_threshold (Some (gating_df, all_labels)) hetero_df)
   else
     hetero_df <- df_copy data_df_pred ;;
     mret (mkRun data_df_pred uncertainty_threshold None hetero_df))%heap.

(** ** Notions of the specification and example data *)

(** The range of a column in the words of the specification: the distance
    between a largest and a smallest entry. *)
Definition is_range (col : list R) (r : R) : Prop :=
  exists lo hi,
    In lo col /\ In hi col /\ (forall x, In x col -> lo <= x <= hi) /\ r = hi - lo.

(** The mean of a list of numbers in the words of the specification. *)
Definition mean_of (xs : list R) : R := Rsum xs / INR (List.length xs).

(** A row of class probabilities: no entry is negative and they sum to 1. *)
Definition distribution (pk : list R) : Prop :=
  Forall (fun p => 0 <= p) pk /\ Rsum pk = 1.

(** One entry is 1 and every other entry is 0. *)
Definition one_hot (pk : list R) : Prop :=
  exists i, (i < List.length pk)%nat /\
            forall j, (j < List.length pk)%nat ->
                      nth j pk 0 = if Nat.eqb j i then 1 else 0.

(** Every entry is 1/K. *)
Definition uniform (pk : list R) : Prop :=
  Forall (fun p => p = / INR (List.length pk)) pk.

(** The term-by-term bound behind Gibbs' inequality. *)
Definition gibbs_bound (k p : R) : R := p * ln k + (/ k - p).

(** The heap and the result of [predict] spelled out: which frames are
    allocated, in which order, and where each exception leaves the heap. *)
Definition predict_trace (kw : kwargs) (h : heap) : result prediction_run * heap :=
  match get_uncertainty_threshold (filter_out_uncertain kw) (label_encoder kw)
                                  (uncertainty_threshold kw) with
  | Err e => (Err e, h)
  | Ok thr =>
  match nth_error h (data_df kw) with
  | None => (Err DanglingRef, h)
  | Some df =>
  match predict_species df (model kw) (scaler kw) (label_encoder kw) (scaling_constant kw) with
  | Err e => (Err e, h)
  | Ok (pc, unc, its) =>
  match build_predictions pc unc its (filter_out_uncertain kw) thr df with
  | Err e => (Err e, h ++ [df])
  | Ok (df_pred, _) =>
      let p := List.length h in
      if gating kw then
        match apply_gating_body
                (channel (stain1 kw)) (sign (stain1 kw)) (value (stain1 kw))
                (channel (stain2 kw)) (sign (stain2 kw)) (value (stain2 kw))
                (scaling_constant kw) (extra_stains kw) df_pred with
        | Err e => (Err e, (h ++ [df_pred]) ++ [df_pred])
        | Ok (g, labels) =>
            match save_gating_results g labels with
            | Err e => (Err e, (h ++ [df_pred]) ++ [g])
            | Ok labels' =>
                if str_in "state" labels' then
                  match getitem g "state" with
                  | Err e => (Err e, (h ++ [df_pred]) ++ [g])
                  | Ok st =>
                      (Ok (mkRun p thr (Some (S p, labels')) (S (S p))),
                       ((h ++ [df_pred]) ++ [g])
                         ++ [boolean_index g (series_eq_str st "live")])
                  end
                else (Ok (mkRun p thr (Some (S p, labels')) (S p)),
                      (h ++ [df_pred]) ++ [g])
            end
        end
      else (Ok (mkRun p thr None (S p)), (h ++ [df_pred]) ++ [df_pred])
  end end end end.

(** The step raises nothing but exceptions satisfying [P]. *)
Definition raises_only {A} (P : exn -> Prop) (r : result A) : Prop :=
  forall e, r = Err e -> P e.

(** Every exception but the one of the threshold check. *)
Definition not_threshold_error (e : exn) : Prop :=
  e <> ValueError MsgUncertaintyThreshold.

(** The label of a row after the filter, in the words of the
    specification. *)
Definition filtered_label (threshold u : R) (label : string) : string :=
  if Rgtb u threshold then "Unknown" else label.

(** The labels of the extra stains, in dictionary order. *)
Definition extra_labels (extra_stains : option (list extra_stain)) : list string :=
  match extra_stains with
  | Some l => map (fun e : extra_stain => snd (snd e)) l
  | None => []
  end.

(** The label a primary gate appends: none when its stain is [None]. *)
Definition label_if (stain : option string) (label : string) : list string :=
  match stain with
  | Some _ => [label]
  | None => []
  end.

(** The condition of line 252, [if stain2 and stain2_threshold and stain1]. *)
Definition state_condition (stain1 stain2 : option string) (stain2_threshold : option R)
  : bool :=
  truthy_str stain2 && truthy_float stain2_threshold && truthy_str stain1.

(** A table of two channels and three cells; with the scaling constant
    150 the raw value 300 becomes [arcsinh 2], which is above 1, and 0
    stays 0. *)
Definition sample_df : DataFrame :=
  mkDF 3 [("FL1", ColNum [0; 300; 300]); ("FL2", ColNum [300; 300; 0])].


(** A gate column in which both outcomes occur. *)
Definition both_outcomes (c : column) : Prop :=
  in_value_counts true c = true /\ in_value_counts false c = true.

(** The frame has a column [label], and both outcomes occur in it. *)
Definition gate_column_ok (df : DataFrame) (label : string) : Prop :=
  exists c, getitem df label = Ok c /\ both_outcomes c.

(** Every gate label but ["state"] names a column with both outcomes. *)
Definition gates_ok (df : DataFrame) (labels : list string) : Prop :=
  forall label, In label labels -> label <> "state" -> gate_column_ok df label.


(** A run of the whole pipeline: a classifier over two species that
    answers the same three rows of probabilities for every table, on the
    table of three cells, with filtering on, the automatic threshold and both
    primary stains. *)
Definition sample_model : matrix -> matrix := fun _ => [[1; 0]; [0; 1]; [1; 1]].
Definition sample_scaler : DataFrame -> matrix := fun _ => [].
Definition sample_kwargs (gating : bool) : kwargs :=
  mkKwargs sample_model sample_scaler ["A"; "B"] 0%nat gating 150 true (-1)
           (mkStain (Some "FL1") ">" (Some 1)) (mkStain (Some "FL2") ">" (Some 1)) None.

(** Every column has one entry per row. *)
Definition wf_df (df : DataFrame) : Prop :=
  Forall (fun nc : string * column => col_len (snd nc) = nrows df) (columns df).

(** One entry of a table. *)
Inductive cell :=
| CNum (x : R)
| CBool (b : bool)
| CStr (s : string).

(** The entries of a column, top to bottom. *)
Definition col_cells (c : column) : list cell :=
  match c with
  | ColNum xs => map CNum xs
  | ColBool bs => map CBool bs
  | ColStr ss => map CStr ss
  end.

(** A row of a table: the entry of every column, by column name. *)
Definition row : Type := list (string * option cell).

(** The first [n] rows of a list of named columns: the heads of the columns,
    then the rows of their tails. *)
Fixpoint rows_from (n : nat) (cs : list (string * list cell)) : list row :=
  match n with
  | O => []
  | S n' =>
      map (fun nc : string * list cell => (fst nc, hd_error (snd nc))) cs
      :: rows_from n' (map (fun nc : string * list cell => (fst nc, tl (snd nc))) cs)
  end.

(** The columns of a frame as lists of entries. *)
Definition cells (df : DataFrame) : list (string * list cell) :=
  map (fun nc : string * column => (fst nc, col_cells (snd nc))) (columns df).

(** The rows of a table, first to last. *)
Definition rows (df : DataFrame) : list row := rows_from (nrows df) (cells df).

(** The entry of a row in the column [name]. *)
Fixpoint row_get (name : string) (r : row) : option cell :=
  match r with
  | [] => None
  | (n, c) :: r' => if String.eqb n name then c else row_get name r'
  end.

(** The row has the string [s] in the column [name]. *)
Definition row_has_str (name s : string) (r : row) : bool :=
  match row_get name r with
  | Some (CStr x) => String.eqb x s
  | _ => false
  end.

(** The entries of the column [name]. *)
Fixpoint lookup_cells (name : string) (cs : list (string * list cell))
  : option (list cell) :=
  match cs with
  | [] => None
  | (n, c) :: cs' => if String.eqb n name then Some c else lookup_cells name cs'
  end.

(** The entry is the string [s]. *)
Definition cell_is_str (s : string) (c : cell) : bool :=
  match c with
  | CStr x => String.eqb x s
  | _ => false
  end.

(** ** More of the module: notions used by the further properties *)

(** The comparison a primary stain's relation selects in [apply_gating]:
    [">"] and ["greater_than"], ["<"] and ["less_than"], and nothing for any
    other string. *)
Definition relation_op (relation : string) : option cmp :=
  if str_in relation [">"; "greater_than"] then Some CmpGt
  else if str_in relation ["<"; "less_than"] then Some CmpLt
  else None.


(** The frame [apply_gating] gates on: [predictions] taken out, every
    float column transformed, [predictions] put back (lines 213-223). *)
Definition gating_transform (cofactor : R) (df : DataFrame) : DataFrame :=
  let predictions_column :=
    if has_col df "predictions" then lookup_col "predictions" (columns df) else None in
  let df' := if has_col df "predictions" then drop_col df "predictions" else df in
  let df' := arcsinh_numeric cofactor df' in
  match predictions_column with
  | Some c => setitem df' "predictions" c
  | None => df'
  end.

(** The matrix of class probabilities [model.predict] returns for a table
    (lines 176-186 of [predict_species]). *)
Definition class_probabilities (kw : kwargs) (df : DataFrame) : matrix :=
  model kw (scaler kw (select_numeric (arcsinh_numeric (scaling_constant kw) df))).

(** A row of class scores the classifier may return: one score per known
    species, none negative, not all zero. *)
Definition valid_scores (K : nat) (row : list R) : Prop :=
  List.length row = K /\ Forall (fun p => 0 <= p) row /\ 0 < Rsum row.

(** ** The table of features in [run_heterogeneity] *)

Definition is_float (c : column) : bool :=
  match c with
  | ColNum _ => true
  | _ => false
  end.

(** The table both heterogeneity measures of the whole sample are computed
    on (lines 404-411): the float columns of [df], [uncertainties] dropped in
    place, [predictions] assigned, and the last column cut off again by
    [iloc[:, :-1]]. *)
Definition hetero_features (df : DataFrame) : result (list (string * column)) :=
  let hetero_df := select_numeric df in
  if has_col hetero_df "uncertainties" then
    let hetero_df := drop_col hetero_df "uncertainties" in
    (predictions <- getitem df "predictions" ;;
     let hetero_df := setitem hetero_df "predictions" predictions in
     Ok (removelast (columns hetero_df)))%result
  else Err (KeyError "uncertainties").

(** The float columns other than [uncertainties], in the order of the
    table. *)
Definition feature_columns (cs : list (string * column)) : list (string * column) :=
  filter (fun nc : string * column =>
            is_float (snd nc) && negb (String.eqb (fst nc) "uncertainties")) cs.

(** A column after the transform of gating. *)
Definition transformed_column (cofactor : R) (nc : string * column) : string * column :=
  match snd nc with
  | ColNum xs => (fst nc, ColNum (map (arcsinh_scaled cofactor) xs))
  | c => (fst nc, c)
  end.

(** What the features need of a frame, and that writing a column that is
    not a float column keeps it. *)
Definition features_kept (labels : list string) (feat : list (string * column))
           (g : DataFrame) : Prop :=
  NoDup (map fst (columns g)) /\
  feature_columns (columns g) = feat /\
  forall l xs, In l labels -> lookup_col l (columns g) <> Some (ColNum xs).

(** ** The uncertainty counts of [save_prediction_results] *)

Definition Rleb (x y : R) : bool := if Rle_dec x y then true else false.

(** The keys of [groupby]: the distinct labels in ascending order. *)
Fixpoint insert_key (k : string) (ks : list string) : list string :=
  match ks with
  | [] => [k]
  | k' :: ks' =>
      if String.eqb k k' then ks
      else if String.ltb k k' then k :: ks
      else k' :: insert_key k ks'
  end.

Definition group_keys (labels : list string) : list string :=
  fold_right insert_key [] labels.

(** [(condition on x).sum()] over the uncertainties of one group. *)
Definition count_in_group (key : string) (p : R -> bool) (rows : list (string * R)) : nat :=
  List.length (filter (fun r : string * R => String.eqb (fst r) key && p (snd r)) rows).

(** Lines 325-328: for every predicted label, the number of its rows above
    the threshold ([greater_than]) and the number at or below it
    ([less_than]). *)
Definition uncertainty_counts (predictions : list string) (uncertainties : list R)
           (uncertainty_threshold : R) : list (string * (nat * nat)) :=
  let rows := combine predictions uncertainties in
  map (fun key =>
         (key, (count_in_group key (fun x => Rgtb x uncertainty_threshold) rows,
                count_in_group key (fun x => Rleb x uncertainty_threshold) rows)))
      (group_keys predictions).

(** ** The gate counts of [save_gating_results] *)

(** [series.value_counts()] of a boolean series: the values that occur,
    with their numbers of rows, the more frequent first.  pandas does not
    fix the order of two equal counts; [true_first] stands for it. *)
Definition value_counts_bool (true_first : bool) (bs : list bool) : list (bool * nat) :=
  let t := List.length (filter (fun b : bool => b) bs) in
  let f := List.length (filter negb bs) in
  match t, f with
  | O, O => []
  | O, _ => [(false, f)]
  | _, O => [(true, t)]
  | _, _ =>
      if Nat.ltb f t then [(true, t); (false, f)]
      else if Nat.ltb t f then [(false, f); (true, t)]
      else if true_first then [(true, t); (false, f)]
      else [(false, f); (true, t)]
  end.

Inductive count_error :=
| IndexError       (* s.index[0] on an empty series *)
| LengthMismatch.  (* s.index = names with the wrong number of names *)

(** Lines 378-381: the index of the counts is renamed to the label and to
    ["not_" + label], in the order the first entry suggests. *)
Definition rename_gate_counts (label : string) (s : list (bool * nat))
  : count_error + list (string * nat) :=
  match s with
  | [] => inl IndexError
  | (first, _) :: _ =>
      let not_label := ("not_" ++ label)%string in
      let index :=
        if first then
          (if Nat.eqb (List.length s) 2 then [label; not_label] else [label])
        else
          (if Nat.eqb (List.length s) 2 then [not_label; label] else [not_label]) in
      if Nat.eqb (List.length index) (List.length s)
      then inr (combine index (map snd s))
      else inl LengthMismatch
  end.

(** Line 377 and the renaming: the counts of one gate label among the rows
    predicted as one species. *)
Definition species_gate_counts (true_first : bool) (label species : string)
           (predictions : list string) (gate : list bool)
  : count_error + list (string * nat) :=
  rename_gate_counts label
    (value_counts_bool true_first
       (select_rows (map (fun p => String.eqb p species) predictions) gate)).

(** ** [merge_prediction_results] *)

(** [pattern in s] *)
Fixpoint contains (pattern s : string) : bool :=
  if String.prefix pattern s then true
  else match s with
       | EmptyString => false
       | String _ s' => contains pattern s'
       end.

(** [s.split(pattern)[0]]: what comes before the first occurrence. *)
Fixpoint before (pattern s : string) : string :=
  if String.prefix pattern s then EmptyString
  else match s with
       | EmptyString => EmptyString
       | String a s' => String a (before pattern s')
       end.

(** [s[:-1]] *)
Fixpoint drop_last (s : string) : string :=
  match s with
  | EmptyString => EmptyString
  | String a s' =>
      match s' with
      | EmptyString => EmptyString
      | _ => String a (drop_last s')
      end
  end.

(** A table read from a CSV file: named columns over the default integer
    index; a cell left empty by an alignment is [None] (NaN). *)
Definition csv_table (V : Type) : Type := list (string * list (option V)).

(** [df.rename(columns={"count": new_column_name})] *)
Definition rename_count {V} (new_column_name : string) (df : csv_table V) : csv_table V :=
  map (fun nc : string * list (option V) =>
         (if String.eqb (fst nc) "count" then new_column_name else fst nc, snd nc)) df.

Definition table_rows {V} (df : csv_table V) : nat :=
  fold_right Nat.max 0%nat (map (fun nc : string * list (option V) => List.length (snd nc)) df).

Definition pad {V} (n : nat) (xs : list (option V)) : list (option V) :=
  xs ++ repeat None (n - List.length xs).

(** [pd.concat(dfs, axis=1)] on tables with the default index: the columns
    of all tables side by side, aligned by row position, shorter ones filled
    up. *)
Definition concat_columns {V} (dfs : list (csv_table V)) : csv_table V :=
  let n := fold_right Nat.max 0%nat (map table_rows dfs) in
  map (fun nc : string * list (option V) => (fst nc, pad n (snd nc))) (List.concat dfs).

(** [t.loc[:, ~t.columns.duplicated()]]: of the columns with one name only
    the first is kept. *)
Fixpoint drop_duplicated {V} (seen : list string) (t : csv_table V) : csv_table V :=
  match t with
  | [] => []
  | (n, c) :: t' =>
      if str_in n seen then drop_duplicated seen t'
      else (n, c) :: drop_duplicated (n :: seen) t'
  end.

Inductive merge_error :=
| InvalidPredictionType    (* "Please provide a valide prediction_type: ..." *)
| NoObjectsToConcatenate.  (* pd.concat([]): "No objects to concatenate" *)

(** [merge_prediction_results(output_dir, prediction_type)]: [listing] is
    what [os.listdir(output_dir)] returns and [read_csv] what each file
    holds; the result is the name of the file that is written and its
    table. *)
Definition merge_prediction_results {V} (listing : list string)
           (read_csv : string -> csv_table V) (prediction_type : string)
  : merge_error + (string * csv_table V) :=
  if negb (str_in prediction_type ["prediction"; "uncertainty"]) then
    inl InvalidPredictionType
  else
    let pattern := (prediction_type ++ "_" ++ "counts")%string in
    let dfs :=
      map (fun file_name =>
             let new_column_name := drop_last (before pattern file_name) in
             rename_count new_column_name (read_csv file_name))
          (filter (fun file_name => contains pattern file_name) listing) in
    match dfs with
    | [] => inl NoObjectsToConcatenate
    | _ :: _ =>
        let merged_filename := ("merged_" ++ pattern ++ ".csv")%string in
        inr (merged_filename, drop_duplicated [] (concat_columns dfs))
    end.

(** The column of a CSV table with a given name (the first one). *)
Definition csv_column {V} (name : string) (df : csv_table V) : list (option V) :=
  match find (fun nc : string * list (option V) => String.eqb (fst nc) name) df with
  | Some nc => snd nc
  | None => []
  end.

(** The files of a listing that [merge_prediction_results] reads, and the
    column name each of them gets. *)
Definition selected_files (prediction_type : string) (listing : list string) : list string :=
  filter (fun file_name => contains (prediction_type ++ "_counts")%string file_name) listing.

Definition sample_column (prediction_type file_name : string) : string :=
  drop_last (before (prediction_type ++ "_counts")%string file_name).

Definition merged_rows {V} (prediction_type : string) (listing : list string)
           (read_csv : string -> csv_table V) : nat :=
  fold_right Nat.max 0%nat
    (map (fun file_name => table_rows (read_csv file_name))
         (selected_files prediction_type listing)).

(** ** More example data *)

(** The table of three cells after prediction: the two channels, the
    predicted species and the uncertainties. *)
Definition sample_pred_df : DataFrame :=
  mkDF 3 [("FL1", ColNum [0; 300; 300]); ("FL2", ColNum [300; 300; 0]);
          ("predictions", ColStr ["A"; "B"; "A"]); ("uncertainties", ColNum [0; 0; 0])].

(** A table of one cell. *)
Definition single_cell_df : DataFrame := mkDF 1 [("FL1", ColNum [300])].

(** An output directory with the count files of two samples, and what the
    files hold: the species in a different order in the two prediction count
    files. *)
Definition sample_listing : list string :=
  ["s1_prediction_counts.csv"; "s1_uncertainty_counts.csv"; "s1_raw_predictions.csv";
   "s2_prediction_counts.csv"; "s2_uncertainty_counts.csv"].

Definition sample_files (file_name : string) : csv_table string :=
  if String.eqb file_name "s1_prediction_counts.csv" then
    [("predictions", [Some "A"; Some "B"]); ("count", [Some "5"; Some "3"])]
  else if String.eqb file_name "s2_prediction_counts.csv" then
    [("predictions", [Some "B"; Some "A"; Some "Unknown"]);
     ("count", [Some "7"; Some "1"; Some "1"])]
  else if String.eqb file_name "s1_uncertainty_counts.csv" then
    [("predictions", [Some "A"; Some "B"]); ("greater_than", [Some "0"; Some "0"]);
     ("less_than", [Some "5"; Some "3"])]
  else
    [("predictions", [Some "A"; Some "B"; Some "Unknown"]);
     ("greater_than", [Some "0"; Some "0"; Some "1"]);
     ("less_than", [Some "1"; Some "7"; Some "0"])].

(** ** The sanity check in the words of the specification *)






(** * Properties *)

(** ** Comparisons *)

Lemma Rgtb_true x y : y < x -> Rgtb x y = true.
Proof. intros H; unfold Rgtb; destruct (Rlt_dec y x); [reflexivity | contradiction]. Qed.

Lemma Rgtb_false x y : x <= y -> Rgtb x y = false.
Proof. intros H; unfold Rgtb; destruct (Rlt_dec y x); [lra | reflexivity]. Qed.

Lemma Rltb_true x y : x < y -> Rltb x y = true.
Proof. intros H; unfold Rltb; destruct (Rlt_dec x y); [reflexivity | contradiction]. Qed.

Lemma Rltb_false x y : y <= x -> Rltb x y = false.
Proof. intros H; unfold Rltb; destruct (Rlt_dec x y); [lra | reflexivity]. Qed.

Lemma Reqb_true x y : x = y -> Reqb x y = true.
Proof. intros H; unfold Reqb; destruct (Req_dec_T x y); [reflexivity | contradiction]. Qed.

Lemma Reqb_false x y : x <> y -> Reqb x y = false.
Proof. intros H; unfold Reqb; destruct (Req_dec_T x y); [contradiction | reflexivity]. Qed.

Lemma Rgtb_iff x y : Rgtb x y = true <-> y < x.
Proof.
  unfold Rgtb; destruct (Rlt_dec y x); split; intros; try assumption;
    try reflexivity; try discriminate; contradiction.
Qed.

Lemma Rltb_iff x y : Rltb x y = true <-> x < y.
Proof.
  unfold Rltb; destruct (Rlt_dec x y); split; intros; try assumption;
    try reflexivity; try discriminate; contradiction.
Qed.

Lemma Reqb_iff x y : Reqb x y = true <-> x = y.
Proof.
  unfold Reqb; destruct (Req_dec_T x y); split; intros; try assumption;
    try reflexivity; try discriminate; contradiction.
Qed.

(** ** Simple heterogeneity *)

Lemma fold_left_Rmax_spec xs : forall a,
  In (fold_left Rmax xs a) (a :: xs) /\
  forall x, In x (a :: xs) -> x <= fold_left Rmax xs a.
Proof.
  induction xs as [| y xs IH]; intros a; simpl.
  - split; [now left |]. intros x [-> | []]; lra.
  - destruct (IH (Rmax a y)) as [Hin Hub]; split.
    + destruct Hin as [Heq | Hin]; [| now right; right].
      rewrite <- Heq. unfold Rmax; destruct (Rle_dec a y); [right; now left | now left].
    + intros x Hx.
      assert (Hm : x <= Rmax a y \/ In x xs).
      { destruct Hx as [-> | [-> | Hx]]; [left; apply Rmax_l | left; apply Rmax_r | now right]. }
      destruct Hm as [Hm | Hm].
      * apply Rle_trans with (Rmax a y); [exact Hm | apply Hub; now left].
      * apply Hub; now right.
Qed.

Lemma fold_left_Rmin_spec xs : forall a,
  In (fold_left Rmin xs a) (a :: xs) /\
  forall x, In x (a :: xs) -> fold_left Rmin xs a <= x.
Proof.
  induction xs as [| y xs IH]; intros a; simpl.
  - split; [now left |]. intros x [-> | []]; lra.
  - destruct (IH (Rmin a y)) as [Hin Hlb]; split.
    + destruct Hin as [Heq | Hin]; [| now right; right].
      rewrite <- Heq. unfold Rmin; destruct (Rle_dec a y); [now left | right; now left].
    + intros x Hx.
      assert (Hm : Rmin a y <= x \/ In x xs).
      { destruct Hx as [-> | [-> | Hx]]; [left; apply Rmin_l | left; apply Rmin_r | now right]. }
      destruct Hm as [Hm | Hm].
      * apply Rle_trans with (Rmin a y); [apply Hlb; now left | exact Hm].
      * apply Hlb; now right.
Qed.

Lemma np_ptp_is_range col :
  col <> [] -> exists r, np_ptp col = Some r /\ is_range col r.
Proof.
  destruct col as [| a xs]; [congruence | intros _].
  unfold np_ptp; simpl.
  destruct (fold_left_Rmax_spec xs a) as [Hin_hi Hub].
  destruct (fold_left_Rmin_spec xs a) as [Hin_lo Hlb].
  eexists; split; [reflexivity |].
  exists (fold_left Rmin xs a), (fold_left Rmax xs a).
  repeat split; auto.
Qed.

Lemma ranges_of_columns data :
  Forall (fun col => col <> []) data ->
  exists ranges,
    all_some (map np_ptp data) = Some ranges /\ Forall2 is_range data ranges.
Proof.
  induction 1 as [| col data Hcol _ IH]; simpl.
  - exists []; split; [reflexivity | constructor].
  - destruct (np_ptp_is_range col Hcol) as (r & Hr & Hcr).
    destruct IH as (rs & Hrs & Hall).
    exists (r :: rs); rewrite Hr, Hrs; split; [reflexivity | now constructor].
Qed.

(** C7. On a numeric feature table with at least one column and at least
    one row, [hetero_simple] returns the mean over the columns of the range
    (largest entry minus smallest entry) of each column; on the one-column
    table [1, 5, 9] it returns 8. *)
Theorem hetero_simple_is_mean_range :
  (forall data,
      data <> [] ->
      Forall (fun col => col <> []) data ->
      exists ranges,
        Forall2 is_range data ranges /\
        hetero_simple data = Some (mean_of ranges)) /\
  hetero_simple [[1; 5; 9]] = Some 8.
Proof.
  split.
  - intros data Hne Hcols.
    destruct (ranges_of_columns data Hcols) as (ranges & Hrs & Hall).
    exists ranges; split; [exact Hall |].
    unfold hetero_simple; rewrite Hrs.
    destruct ranges as [| r rs]; [| reflexivity].
    inversion Hall; subst; congruence.
  - unfold hetero_simple, np_ptp, series_mean, Rsum; simpl.
    repeat match goal with
           | |- context [Rmax (IZR ?a) (IZR ?b)] =>
               first [rewrite (Rmax_left (IZR a) (IZR b)) by lra
                     | rewrite (Rmax_right (IZR a) (IZR b)) by lra]
           | |- context [Rmin (IZR ?a) (IZR ?b)] =>
               first [rewrite (Rmin_left (IZR a) (IZR b)) by lra
                     | rewrite (Rmin_right (IZR a) (IZR b)) by lra]
           end.
    f_equal; lra.
Qed.

Lemma hetero_simple_is_mean_range_witness :
  exists ranges,
    Forall2 is_range [[2; 7]; [4; 4]] ranges /\
    hetero_simple [[2; 7]; [4; 4]] = Some (mean_of ranges).
Proof.
  apply (proj1 hetero_simple_is_mean_range).
  - discriminate.
  - repeat constructor; discriminate.
Defined.

(** ** Entropy as the uncertainty of a prediction *)

Lemma ln_le_minus_1 x : 0 < x -> ln x <= x - 1.
Proof.
  intros Hx. pose proof (exp_ineq1_le (ln x)) as H.
  rewrite exp_ln in H by exact Hx. lra.
Qed.

Lemma ln_eq_minus_1 x : 0 < x -> ln x = x - 1 -> x = 1.
Proof.
  intros Hx Heq.
  destruct (Req_dec_T (ln x) 0) as [H0 | Hn0]; [lra |].
  pose proof (exp_ineq1 (ln x) Hn0) as H.
  rewrite exp_ln in H by exact Hx. lra.
Qed.

Lemma ln_neg_below_1 x : 0 < x -> x < 1 -> ln x < 0.
Proof. intros H0 H1. rewrite <- ln_1. now apply ln_increasing. Qed.

Lemma entr_0 : entr 0 = 0.
Proof. unfold entr; destruct (Rlt_dec 0 0); [lra | reflexivity]. Qed.

Lemma entr_1 : entr 1 = 0.
Proof. unfold entr; destruct (Rlt_dec 0 1); [rewrite ln_1; lra | reflexivity]. Qed.

Lemma entr_pos p : 0 < p -> entr p = - p * ln p.
Proof. intros H; unfold entr; destruct (Rlt_dec 0 p); [reflexivity | contradiction]. Qed.

Lemma entr_nonneg p : 0 <= p <= 1 -> 0 <= entr p.
Proof.
  intros [H0 H1]. destruct (Req_dec_T p 0) as [-> | Hp0]; [rewrite entr_0; lra |].
  rewrite entr_pos by lra.
  assert (ln p <= 0).
  { destruct (Req_dec_T p 1) as [-> | Hp1]; [rewrite ln_1; lra |].
    apply Rlt_le, ln_neg_below_1; lra. }
  nra.
Qed.

Lemma entr_zero_inv p : 0 <= p <= 1 -> entr p = 0 -> p = 0 \/ p = 1.
Proof.
  intros [H0 H1] He.
  destruct (Req_dec_T p 0) as [-> | Hp0]; [now left |].
  destruct (Req_dec_T p 1) as [-> | Hp1]; [now right |].
  exfalso. rewrite entr_pos in He by lra.
  assert (ln p < 0) by (apply ln_neg_below_1; lra).
  nra.
Qed.

Lemma entr_le_gibbs k p : 0 < k -> 0 <= p -> entr p <= gibbs_bound k p.
Proof.
  intros Hk Hp. unfold gibbs_bound.
  assert (Hik : 0 < / k) by now apply Rinv_0_lt_compat.
  destruct (Req_dec_T p 0) as [-> | Hp0]; [rewrite entr_0; lra |].
  assert (Hp' : 0 < p) by lra.
  rewrite entr_pos by exact Hp'.
  assert (Hkp : 0 < / (k * p)) by (apply Rinv_0_lt_compat; nra).
  pose proof (ln_le_minus_1 (/ (k * p)) Hkp) as H.
  rewrite ln_Rinv in H by nra.
  rewrite ln_mult in H by assumption.
  assert (E : p * / (k * p) = / k) by (field; lra).
  nra.
Qed.

Lemma entr_eq_gibbs k p :
  0 < k -> 0 <= p -> entr p = gibbs_bound k p -> p = / k.
Proof.
  intros Hk Hp. unfold gibbs_bound.
  assert (Hik : 0 < / k) by now apply Rinv_0_lt_compat.
  destruct (Req_dec_T p 0) as [-> | Hp0]; [rewrite entr_0; lra |].
  assert (Hp' : 0 < p) by lra.
  rewrite entr_pos by exact Hp'. intros He.
  assert (Hkp : 0 < / (k * p)) by (apply Rinv_0_lt_compat; nra).
  assert (E : p * / (k * p) = / k) by (field; lra).
  assert (Hln : ln (/ (k * p)) = / (k * p) - 1).
  { rewrite ln_Rinv by nra. rewrite ln_mult by assumption.
    apply Rmult_eq_reg_l with p; [| lra]. nra. }
  pose proof (ln_eq_minus_1 _ Hkp Hln) as H1.
  assert (k * p = 1).
  { rewrite <- (Rinv_inv (k * p)), H1. apply Rinv_1. }
  apply Rmult_eq_reg_l with k; [| lra]. rewrite Rinv_r by lra. lra.
Qed.

Lemma gibbs_bound_at_inv k : 0 < k -> entr (/ k) = gibbs_bound k (/ k).
Proof.
  intros Hk. unfold gibbs_bound.
  assert (Hik : 0 < / k) by now apply Rinv_0_lt_compat.
  rewrite entr_pos by exact Hik. rewrite ln_Rinv by exact Hk. lra.
Qed.

Lemma Rsum_gibbs k pk :
  Rsum (map (gibbs_bound k) pk) = Rsum pk * ln k + (INR (List.length pk) * / k - Rsum pk).
Proof.
  induction pk as [| p pk IH].
  - simpl. lra.
  - change (Rsum (map (gibbs_bound k) (p :: pk)))
      with (gibbs_bound k p + Rsum (map (gibbs_bound k) pk)).
    change (Rsum (p :: pk)) with (p + Rsum pk).
    change (List.length (p :: pk)) with (S (List.length pk)).
    rewrite IH, S_INR. unfold gibbs_bound. lra.
Qed.

(** Sums of term-wise ordered lists: the order passes to the sums, and equal
    sums force equal terms. *)
Lemma Rsum_le_pointwise (f g : R -> R) (P : R -> Prop) xs :
  (forall x, P x -> f x <= g x) -> Forall P xs ->
  Rsum (map f xs) <= Rsum (map g xs).
Proof.
  intros Hfg; induction 1 as [| x xs Hx _ IH]; simpl; [lra |].
  specialize (Hfg x Hx). lra.
Qed.

Lemma Rsum_eq_pointwise (f g : R -> R) (P : R -> Prop) xs :
  (forall x, P x -> f x <= g x) -> Forall P xs ->
  Rsum (map f xs) = Rsum (map g xs) ->
  Forall (fun x => f x = g x) xs.
Proof.
  intros Hfg; induction 1 as [| x xs Hx Hxs IH]; simpl; intros Heq; [constructor |].
  pose proof (Hfg x Hx) as H1.
  pose proof (Rsum_le_pointwise f g P xs Hfg Hxs) as H2.
  constructor; [lra | apply IH; lra].
Qed.

Lemma Rsum_nonneg xs : Forall (fun p => 0 <= p) xs -> 0 <= Rsum xs.
Proof. induction 1; simpl; lra. Qed.

Lemma distribution_le_1 pk : distribution pk -> Forall (fun p => 0 <= p <= 1) pk.
Proof.
  intros [Hpos Hsum]. revert Hsum. generalize 1 as s.
  induction Hpos as [| p pk Hp Hpk IH]; intros s Hsum; [constructor |].
  simpl in Hsum. pose proof (Rsum_nonneg pk Hpk) as Hn.
  constructor; [lra |].
  eapply Forall_impl; [| apply (IH (s - p)); lra].
  simpl; intros a Ha; lra.
Qed.

Lemma distribution_nonempty pk : distribution pk -> (0 < List.length pk)%nat.
Proof.
  intros [_ Hsum]. destruct pk; simpl in *; [lra | lia].
Qed.

Lemma entropy_normalised pk : Rsum pk = 1 -> entropy pk = Rsum (map entr pk).
Proof.
  intros Hs. unfold entropy. rewrite Hs. f_equal.
  apply map_ext; intros p. f_equal. field.
Qed.

Lemma Rsum_map_ext_in (f g : R -> R) xs :
  Forall (fun x => f x = g x) xs -> Rsum (map f xs) = Rsum (map g xs).
Proof. induction 1 as [| x xs Hx _ IH]; simpl; [reflexivity | rewrite Hx, IH; reflexivity]. Qed.

Lemma Rsum_map_zero xs : Rsum (map (fun _ : R => 0) xs) = 0.
Proof. induction xs; simpl; lra. Qed.

Lemma Rsum_zero_all_zero xs :
  Forall (fun p => 0 <= p) xs -> Rsum xs = 0 -> Forall (fun p => p = 0) xs.
Proof.
  induction 1 as [| x xs Hx Hxs IH]; simpl; intros Hs; [constructor |].
  pose proof (Rsum_nonneg xs Hxs). constructor; [lra | apply IH; lra].
Qed.

Lemma zero_one_sum_one_hot pk :
  Forall (fun p => p = 0 \/ p = 1) pk -> Rsum pk = 1 -> one_hot pk.
Proof.
  induction 1 as [| p pk Hp Hpk IH]; simpl; intros Hs; [lra |].
  destruct Hp as [-> | ->].
  - destruct IH as (i & Hi & Hnth); [lra |].
    exists (S i); split; [simpl; lia |].
    intros [| j] Hj; [reflexivity |]. simpl in Hj. apply Hnth; lia.
  - assert (Hz : Forall (fun p => p = 0) pk).
    { apply Rsum_zero_all_zero; [| lra].
      eapply Forall_impl; [| exact Hpk]. simpl; intros a [-> | ->]; lra. }
    exists 0%nat; split; [simpl; lia |].
    intros [| j] Hj; [reflexivity |]. simpl in Hj. simpl.
    rewrite Forall_forall in Hz. apply Hz, nth_In; lia.
Qed.

Lemma one_hot_zero_one pk : one_hot pk -> Forall (fun p => p = 0 \/ p = 1) pk.
Proof.
  intros (i & _ & Hnth). apply Forall_forall; intros p Hp.
  destruct (In_nth pk p 0 Hp) as (j & Hj & <-).
  rewrite (Hnth j Hj). destruct (Nat.eqb j i); [now right | now left].
Qed.

(** C9. For a row of class probabilities (no negative entry, sum 1) over
    K classes the entropy lies between 0 and ln K; it is 0 exactly for the
    one-hot rows and ln K exactly for the uniform row. *)
Theorem entropy_range pk :
  distribution pk ->
  0 <= entropy pk <= ln (INR (List.length pk)) /\
  (entropy pk = 0 <-> one_hot pk) /\
  (entropy pk = ln (INR (List.length pk)) <-> uniform pk).
Proof.
  intros Hd.
  pose proof (distribution_le_1 pk Hd) as H01.
  pose proof (distribution_nonempty pk Hd) as Hlen.
  destruct Hd as [Hpos Hsum].
  set (k := INR (List.length pk)).
  assert (Hk : 0 < k) by (apply lt_0_INR; exact Hlen).
  rewrite (entropy_normalised pk Hsum).
  assert (Hg : Rsum (map (gibbs_bound k) pk) = ln k).
  { rewrite Rsum_gibbs, Hsum. fold k. rewrite Rinv_r by lra. lra. }
  assert (Hlow : forall p, 0 <= p <= 1 -> (fun _ => 0) p <= entr p)
    by (intros p Hp; now apply entr_nonneg).
  assert (Hup : forall p, 0 <= p -> entr p <= gibbs_bound k p)
    by (intros p Hp; now apply entr_le_gibbs).
  split; [split |].
  - rewrite <- (Rsum_map_zero pk).
    exact (Rsum_le_pointwise _ _ _ pk Hlow H01).
  - rewrite <- Hg. exact (Rsum_le_pointwise _ _ _ pk Hup Hpos).
  - split; split.
    + intros H0. apply zero_one_sum_one_hot; [| exact Hsum].
      assert (Hall : Forall (fun p => (fun _ => 0) p = entr p) pk).
      { apply (Rsum_eq_pointwise _ _ _ pk Hlow H01). rewrite Rsum_map_zero; lra. }
      rewrite Forall_forall in Hall, H01 |- *. intros p Hp.
      apply entr_zero_inv; [now apply H01 | symmetry; now apply Hall].
    + intros Hoh. rewrite <- (Rsum_map_zero pk). apply Rsum_map_ext_in.
      eapply Forall_impl; [| exact (one_hot_zero_one pk Hoh)].
      simpl; intros p [-> | ->]; [apply entr_0 | apply entr_1].
    + intros Heq. unfold uniform. fold k.
      assert (Hall : Forall (fun p => entr p = gibbs_bound k p) pk).
      { apply (Rsum_eq_pointwise _ _ _ pk Hup Hpos). lra. }
      rewrite Forall_forall in Hall, Hpos |- *. intros p Hp.
      apply entr_eq_gibbs; [exact Hk | now apply Hpos | now apply Hall].
    + intros Hu. unfold uniform in Hu. fold k in Hu. rewrite <- Hg.
      apply Rsum_map_ext_in.
      eapply Forall_impl; [| exact Hu].
      simpl; intros p ->. now apply gibbs_bound_at_inv.
Qed.

Lemma entropy_range_witness :
  0 <= entropy [1; 0] <= ln (INR (List.length [1; 0])) /\
  (entropy [1; 0] = 0 <-> one_hot [1; 0]) /\
  (entropy [1; 0] = ln (INR (List.length [1; 0])) <-> uniform [1; 0]).
Proof.
  apply (entropy_range [1; 0]).
  split; [repeat constructor; lra | simpl; lra].
Defined.

(** ** Columns of a frame *)

Lemma lookup_replace_same name c cs : lookup_col name (replace_col name c cs) = Some c.
Proof.
  induction cs as [| [n c'] cs IH]; simpl.
  - now rewrite String.eqb_refl.
  - destruct (String.eqb n name) eqn:E; simpl; rewrite E; [reflexivity | exact IH].
Qed.

Lemma lookup_replace_other name name' c cs :
  name' <> name -> lookup_col name' (replace_col name c cs) = lookup_col name' cs.
Proof.
  intros Hne. induction cs as [| [n c'] cs IH]; simpl.
  - destruct (String.eqb name name') eqn:E; [| reflexivity].
    apply String.eqb_eq in E; congruence.
  - destruct (String.eqb n name) eqn:E; simpl.
    + apply String.eqb_eq in E; subst n.
      destruct (String.eqb name name') eqn:E'; [| reflexivity].
      apply String.eqb_eq in E'; congruence.
    + destruct (String.eqb n name'); [reflexivity | exact IH].
Qed.

Lemma getitem_setitem_same df name c : getitem (setitem df name c) name = Ok c.
Proof. unfold getitem, setitem; simpl. now rewrite lookup_replace_same. Qed.

Lemma getitem_setitem_other df name name' c :
  name' <> name -> getitem (setitem df name c) name' = getitem df name'.
Proof.
  intros Hne. unfold getitem, setitem; simpl. now rewrite lookup_replace_other.
Qed.

Lemma nrows_setitem df name c : nrows (setitem df name c) = nrows df.
Proof. reflexivity. Qed.

Lemma assign_where_length {A} (mask : list bool) (v : A) xs :
  List.length (assign_where mask v xs) = List.length xs.
Proof.
  revert mask; induction xs as [| x xs IH]; intros [| m mask]; simpl; auto.
Qed.

Lemma assign_where_map_nth {A B} (f : B -> bool) (v : A) ys xs i y x :
  nth_error ys i = Some y -> nth_error xs i = Some x ->
  nth_error (assign_where (map f ys) v xs) i = Some (if f y then v else x).
Proof.
  revert ys i; induction xs as [| x0 xs IH]; intros ys i Hy Hx.
  - destruct i; discriminate.
  - destruct ys as [| y0 ys]; [destruct i; discriminate |].
    destruct i as [| i]; simpl in *.
    + now inversion Hy; inversion Hx; subst.
    + now apply IH.
Qed.

Lemma str_in_iff s l : str_in s l = true <-> In s l.
Proof.
  unfold str_in. rewrite existsb_exists. split.
  - intros (x & Hx & E). apply String.eqb_eq in E. now subst.
  - intros H. exists s. split; [exact H | apply String.eqb_refl].
Qed.

(** ** The heap *)

Lemma store_length l df h : List.length (store l df h) = List.length h.
Proof.
  revert l; induction h as [| d h IH]; intros [| l]; simpl; auto.
Qed.

Lemma nth_error_store_same l df h :
  (l < List.length h)%nat -> nth_error (store l df h) l = Some df.
Proof.
  revert l; induction h as [| d h IH]; intros [| l] Hl; simpl in *; try lia; auto.
  apply IH; lia.
Qed.

Lemma nth_error_store_other l l' df h :
  l' <> l -> nth_error (store l df h) l' = nth_error h l'.
Proof.
  revert l l'; induction h as [| d h IH]; intros [| l] [| l'] Hne; simpl; auto; try congruence.
Qed.

Lemma store_last h d df : store (List.length h) df (h ++ [d]) = h ++ [df].
Proof. induction h as [| x h IH]; simpl; [reflexivity | now rewrite IH]. Qed.

Lemma nth_error_snoc {A} (h : list A) d : nth_error (h ++ [d]) (List.length h) = Some d.
Proof. rewrite nth_error_app2 by lia. now rewrite Nat.sub_diag. Qed.

Lemma nth_error_old {A} (h t : list A) l :
  (l < List.length h)%nat -> nth_error (h ++ t) l = nth_error h l.
Proof. intros Hl. now apply nth_error_app1. Qed.

(** What a call of [apply_gating] on a live reference does to the heap: one
    frame is added at the end, and it is the only one written. *)
Lemma apply_gating_run h l df s1 r1 t1 s2 r2 t2 c ex :
  nth_error h l = Some df ->
  apply_gating l s1 r1 t1 s2 r2 t2 c ex h =
  match apply_gating_body s1 r1 t1 s2 r2 t2 c ex df with
  | Ok (g, labels) => (Ok (List.length h, labels), h ++ [g])
  | Err e => (Err e, h ++ [df])
  end.
Proof.
  intros Hl.
  unfold apply_gating, df_copy, df_read, df_new, df_update, mbind, mret.
  rewrite Hl. rewrite nth_error_snoc.
  destruct (apply_gating_body s1 r1 t1 s2 r2 t2 c ex df) as [[g labels] | e];
    [| reflexivity].
  now rewrite store_last.
Qed.

Lemma apply_gating_dangling h l s1 r1 t1 s2 r2 t2 c ex :
  nth_error h l = None ->
  apply_gating l s1 r1 t1 s2 r2 t2 c ex h = (Err DanglingRef, h).
Proof.
  intros Hl. unfold apply_gating, df_copy, df_read, mbind. now rewrite Hl.
Qed.

(** Every frame that was on the heap before [apply_gating] is the same
    after it, whether the call returns or raises. *)
Lemma apply_gating_frame h l s1 r1 t1 s2 r2 t2 c ex l' :
  (l' < List.length h)%nat ->
  nth_error (snd (apply_gating l s1 r1 t1 s2 r2 t2 c ex h)) l' = nth_error h l'.
Proof.
  intros Hl'. destruct (nth_error h l) as [df |] eqn:Hl.
  - rewrite (apply_gating_run h l df) by exact Hl.
    destruct (apply_gating_body s1 r1 t1 s2 r2 t2 c ex df) as [[g labels] | e];
      simpl; now apply nth_error_old.
  - now rewrite apply_gating_dangling.
Qed.

(** ** The run of [predict], step by step *)

Lemma length_snoc {A} (h : list A) d : List.length (h ++ [d]) = S (List.length h).
Proof. rewrite length_app; simpl; lia. Qed.

Lemma predict_unfold kw h : predict kw h = predict_trace kw h.
Proof.
  unfold predict, predict_trace, mbind, lift_result.
  destruct (get_uncertainty_threshold _ _ _) as [thr | e]; [| reflexivity].
  unfold df_read at 1.
  destruct (nth_error h (data_df kw)) as [df |] eqn:Hdf; [| reflexivity].
  destruct (predict_species _ _ _ _ _) as [[[pc unc] its] | e]; [| reflexivity].
  unfold df_copy, df_read, df_new, mbind. rewrite Hdf.
  unfold df_update at 1. rewrite nth_error_snoc.
  destruct (build_predictions _ _ _ _ _ _) as [[df_pred []] | e]; [| reflexivity].
  rewrite store_last.
  destruct (gating kw).
  - rewrite (apply_gating_run (h ++ [df_pred]) (List.length h) df_pred)
      by apply nth_error_snoc.
    destruct (apply_gating_body _ _ _ _ _ _ _ _ _) as [[g labels] | e]; [| reflexivity].
    rewrite length_snoc. unfold df_read.
    replace (S (List.length h)) with (List.length (h ++ [df_pred]))
      by apply length_snoc.
    rewrite nth_error_snoc.
    destruct (save_gating_results g labels) as [labels' | e]; [| reflexivity].
    destruct (str_in "state" labels').
    + destruct (getitem g "state") as [st | e]; [| reflexivity].
      unfold df_new, mret. rewrite !length_snoc. reflexivity.
    + unfold mret. rewrite !length_snoc. reflexivity.
  - rewrite nth_error_snoc. unfold mret. rewrite length_snoc. reflexivity.
Qed.

(** ** Which exceptions a step can raise *)

Lemma raises_only_ok {A} P (a : A) : raises_only P (Ok a).
Proof. intros e H; discriminate. Qed.

Lemma raises_only_err {A} (P : exn -> Prop) e : P e -> raises_only P (@Err A e).
Proof. intros H e' E; now inversion E; subst. Qed.

Lemma raises_only_bind {A B} P (r : result A) (k : A -> result B) :
  raises_only P r -> (forall a, raises_only P (k a)) -> raises_only P (rbind r k).
Proof.
  intros Hr Hk e. destruct r as [a | e']; simpl; [apply Hk |].
  intros E; apply Hr; now inversion E.
Qed.

Create HintDb raises.

Ltac raises_step :=
  match goal with
  | |- raises_only _ (Ok _) => apply raises_only_ok
  | |- raises_only _ (Err _) =>
      apply raises_only_err; unfold not_threshold_error; discriminate
  | |- raises_only _ (rbind _ _) => apply raises_only_bind; [| intros ]
  | |- raises_only _ (match ?x with _ => _ end) => destruct x
  | |- raises_only _ _ => solve [auto with raises]
  end.

Ltac raises_auto := cbv zeta; repeat (raises_step; cbv zeta).

Lemma getitem_raises df name : raises_only not_threshold_error (getitem df name).
Proof. unfold getitem; raises_auto. Qed.
#[local] Hint Resolve getitem_raises : raises.

Lemma series_cmp_raises op c t : raises_only not_threshold_error (series_cmp op c t).
Proof. unfold series_cmp; raises_auto. Qed.
#[local] Hint Resolve series_cmp_raises : raises.

Lemma loc_assign_bool_raises df mask name v :
  raises_only not_threshold_error (loc_assign_bool df mask name v).
Proof. unfold loc_assign_bool; raises_auto. Qed.
#[local] Hint Resolve loc_assign_bool_raises : raises.

Lemma loc_assign_str_raises df mask name v :
  raises_only not_threshold_error (loc_assign_str df mask name v).
Proof. unfold loc_assign_str; raises_auto. Qed.
#[local] Hint Resolve loc_assign_str_raises : raises.

Lemma stain_sannity_check_raises df label ch sg t :
  raises_only not_threshold_error (stain_sannity_check df label ch sg t).
Proof. unfold stain_sannity_check; raises_auto. Qed.
#[local] Hint Resolve stain_sannity_check_raises : raises.

Lemma primary_gate_raises label stain rel t df labels :
  raises_only not_threshold_error (primary_gate label stain rel t df labels).
Proof. unfold primary_gate; raises_auto. Qed.
#[local] Hint Resolve primary_gate_raises : raises.

Lemma derive_state_raises df : raises_only not_threshold_error (derive_state df).
Proof. unfold derive_state; raises_auto. Qed.
#[local] Hint Resolve derive_state_raises : raises.

Lemma gate_extra_stains_raises ex : forall df labels,
  raises_only not_threshold_error (gate_extra_stains ex df labels).
Proof.
  induction ex as [| [ch [[sg t] label]] ex IH]; intros df labels; simpl.
  - raises_auto.
  - raises_auto.
Qed.
#[local] Hint Resolve gate_extra_stains_raises : raises.

Lemma apply_gating_body_raises s1 r1 t1 s2 r2 t2 c ex df :
  raises_only not_threshold_error (apply_gating_body s1 r1 t1 s2 r2 t2 c ex df).
Proof. unfold apply_gating_body; raises_auto. Qed.

Lemma list_remove_raises x l : raises_only not_threshold_error (list_remove x l).
Proof. induction l as [| y l IH]; simpl; raises_auto. Qed.
#[local] Hint Resolve list_remove_raises : raises.

Lemma save_gating_results_raises df labels :
  raises_only not_threshold_error (save_gating_results df labels).
Proof. unfold save_gating_results; raises_auto. Qed.

Lemma mapM_np_argmax_raises rows : raises_only not_threshold_error (mapM np_argmax rows).
Proof.
  induction rows as [| row rows IH]; simpl; [raises_auto |].
  apply raises_only_bind; [unfold np_argmax; raises_auto | intros].
  raises_auto.
Qed.
#[local] Hint Resolve mapM_np_argmax_raises : raises.

Lemma predict_species_raises df m s le c :
  raises_only not_threshold_error (predict_species df m s le c).
Proof. unfold predict_species; raises_auto. Qed.

Lemma setitem_array_raises df name c :
  raises_only not_threshold_error (setitem_array df name c).
Proof. unfold setitem_array; raises_auto. Qed.
#[local] Hint Resolve setitem_array_raises : raises.

Lemma build_predictions_raises pc unc its f t df :
  raises_only not_threshold_error (build_predictions pc unc its f t df).
Proof. unfold build_predictions; raises_auto. Qed.

(** ** The uncertainty threshold *)

Lemma ln_INR_nonneg K : (0 < K)%nat -> 0 <= ln (INR K).
Proof.
  intros HK. assert (H1 : 1 <= INR K) by (change 1 with (INR 1); apply le_INR; lia).
  destruct (Req_dec_T (INR K) 1) as [-> | Hne]; [rewrite ln_1; lra |].
  rewrite <- ln_1. apply Rlt_le, ln_increasing; lra.
Qed.

Lemma math_log_classes (le : list string) :
  le <> [] -> math_log (List.length le) = Ok (ln (INR (List.length le))).
Proof. destruct le; [congruence | reflexivity]. Qed.

(** The three outcomes of the threshold block when filtering is on. *)
Lemma get_uncertainty_threshold_cases le t :
  le <> [] ->
  let max_entropy := ln (INR (List.length le)) in
  (~ (0 <= t <= max_entropy) /\ t <> -1 ->
   get_uncertainty_threshold true le t = Err (ValueError MsgUncertaintyThreshold)) /\
  (t = -1 -> get_uncertainty_threshold true le t = Ok (0.5 * max_entropy)) /\
  (0 <= t <= max_entropy -> get_uncertainty_threshold true le t = Ok t).
Proof.
  intros Hle max_entropy.
  assert (Hm : 0 <= max_entropy).
  { apply ln_INR_nonneg. destruct le; [congruence | simpl; lia]. }
  unfold get_uncertainty_threshold. rewrite (math_log_classes le Hle). simpl.
  fold max_entropy. repeat split.
  - intros [Hout Hneq]. rewrite (Reqb_false t (-1)) by exact Hneq. simpl.
    destruct (Rlt_dec t 0) as [Hneg | Hnn].
    + now rewrite (Rltb_true t 0) by exact Hneg.
    + rewrite (Rltb_false t 0) by lra. simpl.
      now rewrite (Rgtb_true t max_entropy) by lra.
  - intros ->. rewrite (Reqb_true (-1) (-1)) by reflexivity.
    rewrite (Rgtb_false (-1) max_entropy) by lra.
    now rewrite andb_false_r.
  - intros [H0 H1]. rewrite (Rltb_false t 0) by lra.
    rewrite (Rgtb_false t max_entropy) by lra. simpl.
    now rewrite (Reqb_false t (-1)) by lra.
Qed.

(** Once the threshold block has passed, nothing later in [predict] raises
    its error. *)
Lemma predict_later_errors kw h thr :
  get_uncertainty_threshold (filter_out_uncertain kw) (label_encoder kw)
                            (uncertainty_threshold kw) = Ok thr ->
  fst (predict kw h) <> Err (ValueError MsgUncertaintyThreshold).
Proof.
  intros Hthr. rewrite predict_unfold. unfold predict_trace. rewrite Hthr.
  destruct (nth_error h (data_df kw)) as [df |]; [| simpl; discriminate].
  destruct (predict_species _ _ _ _ _) as [[[pc unc] its] | e] eqn:Hps.
  2:{ simpl; intros E. inversion E; subst e.
      exact (predict_species_raises _ _ _ _ _ _ Hps eq_refl). }
  destruct (build_predictions _ _ _ _ _ _) as [[df_pred u] | e] eqn:Hbp.
  2:{ simpl; intros E. inversion E; subst e.
      exact (build_predictions_raises _ _ _ _ _ _ _ Hbp eq_refl). }
  cbv zeta. destruct (gating kw); [| simpl; discriminate].
  destruct (apply_gating_body _ _ _ _ _ _ _ _ _) as [[g labels] | e] eqn:Hg.
  2:{ simpl; intros E. inversion E; subst e.
      exact (apply_gating_body_raises _ _ _ _ _ _ _ _ _ _ Hg eq_refl). }
  destruct (save_gating_results g labels) as [labels' | e] eqn:Hs.
  2:{ simpl; intros E. inversion E; subst e.
      exact (save_gating_results_raises _ _ _ Hs eq_refl). }
  destruct (str_in "state" labels'); [| simpl; discriminate].
  destruct (getitem g "state") as [st | e] eqn:Hst; [simpl; discriminate |].
  simpl; intros E. inversion E; subst e.
  exact (getitem_raises _ _ _ Hst eq_refl).
Qed.

(** C2. With uncertainty filtering on and at least one known species,
    [predict] raises the threshold error exactly when the raw threshold is
    outside [0, ln K] and is not the sentinel -1; a raw threshold inside
    [0, ln K] and the sentinel -1 pass the check. *)
Theorem uncertainty_threshold_validation kw h :
  filter_out_uncertain kw = true ->
  label_encoder kw <> [] ->
  let t := uncertainty_threshold kw in
  let max_entropy := ln (INR (List.length (label_encoder kw))) in
  (fst (predict kw h) = Err (ValueError MsgUncertaintyThreshold) <->
   ~ (0 <= t <= max_entropy) /\ t <> -1) /\
  (0 <= t <= max_entropy \/ t = -1 ->
   exists thr, get_uncertainty_threshold true (label_encoder kw) t = Ok thr).
Proof.
  intros Hf Hle t max_entropy.
  destruct (get_uncertainty_threshold_cases (label_encoder kw) t Hle)
    as (Hbad & Hauto & Hgood). fold max_entropy in Hbad, Hauto, Hgood.
  assert (Hacc : 0 <= t <= max_entropy \/ t = -1 ->
                 exists thr, get_uncertainty_threshold true (label_encoder kw) t = Ok thr).
  { intros [Hin | Hm1]; eexists; [apply Hgood; exact Hin | apply Hauto; exact Hm1]. }
  split; [split | exact Hacc].
  - intros Herr.
    assert (Hdec : (0 <= t <= max_entropy \/ t = -1) \/
                   (~ (0 <= t <= max_entropy) /\ t <> -1)).
    { destruct (Req_dec_T t (-1)); [left; now right |].
      destruct (Rle_dec 0 t); [| right; split; [lra | assumption]].
      destruct (Rle_dec t max_entropy); [left; left; lra | right; split; [lra | assumption]]. }
    destruct Hdec as [Hok | Hout]; [| exact Hout].
    destruct (Hacc Hok) as (thr & Hthr).
    exfalso. apply (predict_later_errors kw h thr); [| exact Herr].
    rewrite Hf. exact Hthr.
  - intros Hout. rewrite predict_unfold. unfold predict_trace.
    rewrite Hf. fold t. now rewrite (Hbad Hout).
Qed.

(** ** The Uncertainty Filter *)

Lemma nth_error_first_new {A} (h t : list A) d :
  nth_error ((h ++ [d]) ++ t) (List.length h) = Some d.
Proof.
  rewrite nth_error_old by (rewrite length_snoc; lia). apply nth_error_snoc.
Qed.

Lemma setitem_array_ok df name c df' :
  setitem_array df name c = Ok df' ->
  df' = setitem df name c /\ col_len c = nrows df.
Proof.
  unfold setitem_array. destruct (Nat.eqb (col_len c) (nrows df)) eqn:E; [| discriminate].
  intros H; inversion H; subst. split; [reflexivity | now apply Nat.eqb_eq].
Qed.

(** The two columns that [predict] adds to its copy of the table. *)
Lemma build_predictions_columns pc unc its f thr df df_pred u :
  build_predictions pc unc its f thr df = Ok (df_pred, u) ->
  getitem df_pred "uncertainties" = Ok (ColNum unc) /\
  getitem df_pred "predictions" =
    Ok (ColStr (if f then assign_where (map (fun x => Rgtb x thr) unc) "Unknown"
                                       (map (species_of its) pc)
                else map (species_of its) pc)) /\
  List.length pc = List.length unc.
Proof.
  unfold build_predictions. cbv zeta.
  set (df0 := if has_col df "Time" then drop_col df "Time" else df).
  destruct (setitem_array df0 "predictions" _) as [df1 |] eqn:H1; [| discriminate].
  simpl rbind.
  destruct (setitem_array df1 "uncertainties" _) as [df2 |] eqn:H2; [| discriminate].
  simpl rbind.
  apply setitem_array_ok in H1 as [-> L1]. apply setitem_array_ok in H2 as [-> L2].
  simpl in L1, L2. rewrite length_map in L1.
  assert (Hu : getitem (setitem (setitem df0 "predictions"
                                         (ColStr (map (species_of its) pc)))
                                "uncertainties" (ColNum unc)) "uncertainties"
               = Ok (ColNum unc)) by apply getitem_setitem_same.
  assert (Hp : getitem (setitem (setitem df0 "predictions"
                                         (ColStr (map (species_of its) pc)))
                                "uncertainties" (ColNum unc)) "predictions"
               = Ok (ColStr (map (species_of its) pc))).
  { rewrite getitem_setitem_other by discriminate. apply getitem_setitem_same. }
  destruct f.
  - rewrite Hu. simpl rbind. unfold loc_assign_str. rewrite Hp. simpl rbind.
    intros H; inversion H; subst. repeat split.
    + rewrite getitem_setitem_other by discriminate. exact Hu.
    + apply getitem_setitem_same.
    + congruence.
  - simpl rbind. intros H; inversion H; subst. repeat split; [exact Hu | exact Hp | congruence].
Qed.

(** A run of [predict] that returns: the threshold passed, the species
    were predicted, and the returned reference holds the table built from
    them, whatever gating did afterwards. *)
Lemma predict_ok_table kw h run h' :
  predict kw h = (Ok run, h') ->
  exists thr df pc unc its df_pred,
    get_uncertainty_threshold (filter_out_uncertain kw) (label_encoder kw)
                              (uncertainty_threshold kw) = Ok thr /\
    run_uncertainty_threshold run = thr /\
    nth_error h (data_df kw) = Some df /\
    predict_species df (model kw) (scaler kw) (label_encoder kw) (scaling_constant kw)
      = Ok (pc, unc, its) /\
    build_predictions pc unc its (filter_out_uncertain kw) thr df = Ok (df_pred, tt) /\
    nth_error h' (run_data_df_pred run) = Some df_pred.
Proof.
  rewrite predict_unfold. unfold predict_trace.
  destruct (get_uncertainty_threshold _ _ _) as [thr | e] eqn:Hthr; [| discriminate].
  destruct (nth_error h (data_df kw)) as [df |] eqn:Hdf; [| discriminate].
  destruct (predict_species _ _ _ _ _) as [[[pc unc] its] | e] eqn:Hps; [| discriminate].
  destruct (build_predictions _ _ _ _ _ _) as [[df_pred []] | e] eqn:Hbp; [| discriminate].
  cbv zeta. intros H.
  exists thr, df, pc, unc, its, df_pred.
  assert (Hgoal : run_uncertainty_threshold run = thr /\
                  nth_error h' (run_data_df_pred run) = Some df_pred).
  { destruct (gating kw).
    - destruct (apply_gating_body _ _ _ _ _ _ _ _ _) as [[g labels] | e]; [| discriminate].
      destruct (save_gating_results g labels) as [labels' | e]; [| discriminate].
      destruct (str_in "state" labels').
      + destruct (getitem g "state") as [st | e]; [| discriminate].
        inversion H; subst; simpl. split; [reflexivity |].
        rewrite nth_error_old by (rewrite !length_snoc; lia).
        apply nth_error_first_new.
      + inversion H; subst; simpl. split; [reflexivity | apply nth_error_first_new].
    - inversion H; subst; simpl. split; [reflexivity | apply nth_error_first_new]. }
  destruct Hgoal as [Ht Hn].
  split; [reflexivity |]. split; [exact Ht |]. split; [reflexivity |].
  split; [exact Hps |]. split; [exact Hbp | exact Hn].
Qed.

(** Row by row: what the filter writes, given the predicted classes and
    the uncertainties. *)
Lemma predict_rows kw h run h' :
  predict kw h = (Ok run, h') ->
  exists df df_pred pc unc its preds,
    nth_error h (data_df kw) = Some df /\
    predict_species df (model kw) (scaler kw) (label_encoder kw) (scaling_constant kw)
      = Ok (pc, unc, its) /\
    nth_error h' (run_data_df_pred run) = Some df_pred /\
    getitem df_pred "uncertainties" = Ok (ColNum unc) /\
    getitem df_pred "predictions" = Ok (ColStr preds) /\
    List.length preds = List.length unc /\
    forall i u c,
      nth_error unc i = Some u -> nth_error pc i = Some c ->
      nth_error preds i =
        Some (if filter_out_uncertain kw
              then filtered_label (run_uncertainty_threshold run) u (species_of its c)
              else species_of its c).
Proof.
  intros H.
  destruct (predict_ok_table kw h run h' H)
    as (thr & df & pc & unc & its & df_pred & Hthr & Hrun & Hdf & Hps & Hbp & Hret).
  destruct (build_predictions_columns _ _ _ _ _ _ _ _ Hbp) as (Hu & Hp & Hlen).
  eexists df, df_pred, pc, unc, its, _.
  repeat split; try eassumption.
  - destruct (filter_out_uncertain kw).
    + now rewrite assign_where_length, length_map.
    + now rewrite length_map.
  - intros i u c Hi Hc. rewrite Hrun. unfold filtered_label.
    destruct (filter_out_uncertain kw).
    + apply (assign_where_map_nth (fun x => Rgtb x thr)); [exact Hi |].
      now rewrite nth_error_map, Hc.
    + now rewrite nth_error_map, Hc.
Qed.

(** ** The labels returned by gating *)

Lemma rbind_ok {A B} (r : result A) (k : A -> result B) b :
  rbind r k = Ok b -> exists a, r = Ok a /\ k a = Ok b.
Proof. destruct r as [a | e]; simpl; [now exists a | discriminate]. Qed.

Lemma primary_gate_labels label stain rel thr df labels g labels' :
  primary_gate label stain rel thr df labels = Ok (g, labels') ->
  labels' = labels ++ label_if stain label.
Proof.
  unfold primary_gate. destruct stain as [s |]; simpl.
  - intros H. apply rbind_ok in H as (g1 & _ & H).
    apply rbind_ok in H as (u & _ & H). now inversion H.
  - intros H; inversion H. now rewrite app_nil_r.
Qed.

Lemma gate_extra_stains_labels ex : forall df labels g labels',
  gate_extra_stains ex df labels = Ok (g, labels') ->
  labels' = labels ++ map (fun e : extra_stain => snd (snd e)) ex.
Proof.
  induction ex as [| [ch [[sg t] label]] ex IH]; intros df labels g labels'; simpl.
  - intros H; inversion H. now rewrite app_nil_r.
  - intros H. apply rbind_ok in H as (col & _ & H).
    apply rbind_ok in H as (cond & _ & H).
    apply rbind_ok in H as (u & _ & H).
    apply IH in H. rewrite H, <- app_assoc. reflexivity.
Qed.

Lemma apply_gating_body_labels s1 r1 t1 s2 r2 t2 c ex df g labels :
  apply_gating_body s1 r1 t1 s2 r2 t2 c ex df = Ok (g, labels) ->
  labels = label_if s1 "dead" ++ label_if s2 "cell"
           ++ (if state_condition s1 s2 t2 then ["state"] else [])
           ++ extra_labels ex.
Proof.
  unfold apply_gating_body. cbv zeta. intros H.
  apply rbind_ok in H as ([g1 l1] & H1 & H).
  apply rbind_ok in H as ([g2 l2] & H2 & H).
  apply rbind_ok in H as ([g3 l3] & H3 & H).
  apply primary_gate_labels in H1. apply primary_gate_labels in H2.
  simpl in H1. subst l1 l2.
  assert (E3 : l3 = (label_if s1 "dead" ++ label_if s2 "cell")
                    ++ (if state_condition s1 s2 t2 then ["state"] else [])).
  { unfold state_condition.
    destruct (truthy_str s2 && truthy_float t2 && truthy_str s1).
    - apply rbind_ok in H3 as (g' & _ & H3). now inversion H3.
    - inversion H3. now rewrite app_nil_r. }
  subst l3.
  destruct ex as [l |]; simpl.
  - apply gate_extra_stains_labels in H. rewrite H, <- !app_assoc. reflexivity.
  - inversion H. rewrite app_nil_r. now rewrite <- app_assoc.
Qed.

Lemma state_condition_stains s1 s2 t2 :
  state_condition s1 s2 t2 = true ->
  (exists c1, s1 = Some c1) /\ (exists c2, s2 = Some c2).
Proof.
  unfold state_condition.
  destruct s1 as [c1 |], s2 as [c2 |]; simpl; intros H; try discriminate.
  - split; eexists; reflexivity.
  - rewrite andb_false_r in H; discriminate.
Qed.

Lemma list_remove_head x l : list_remove x (x :: l) = Ok l.
Proof. simpl. now rewrite String.eqb_refl. Qed.

Lemma str_in_list_remove s x l l' :
  s <> x -> list_remove x l = Ok l' -> str_in s l' = str_in s l.
Proof.
  intros Hne. revert l'. induction l as [| y l IH]; intros l'; simpl; [discriminate |].
  destruct (String.eqb y x) eqn:E.
  - intros H; inversion H; subst. apply String.eqb_eq in E; subst y.
    destruct (String.eqb s x) eqn:E'; [apply String.eqb_eq in E'; congruence | reflexivity].
  - intros H. apply rbind_ok in H as (r & Hr & H). inversion H; subst.
    simpl. now rewrite (IH r Hr).
Qed.

(** [save_gating_results] never changes whether ["state"] is a label. *)
Lemma save_gating_results_state df labels labels' :
  save_gating_results df labels = Ok labels' ->
  str_in "state" labels' = str_in "state" labels.
Proof.
  unfold save_gating_results. intros H.
  apply rbind_ok in H as (c & _ & H).
  destruct (str_in "state" labels) eqn:E.
  - apply rbind_ok in H as (l1 & H1 & H2).
    rewrite (str_in_list_remove "state" "cell" l1 labels') by (discriminate || assumption).
    rewrite (str_in_list_remove "state" "dead" labels l1) by (discriminate || assumption).
    exact E.
  - inversion H; subst. exact E.
Qed.

(** ** Values of the transformed channels *)

Lemma arcsinh_scaled_0 c : arcsinh_scaled c 0 = 0.
Proof. unfold arcsinh_scaled, Rdiv. rewrite Rmult_0_l. apply arcsinh_0. Qed.

Lemma arcsinh_2_gt_1 : 1 < arcsinh 2.
Proof.
  unfold arcsinh.
  assert (Hs : 1 < sqrt (2 ^ 2 + 1)).
  { rewrite <- sqrt_1 at 1. apply sqrt_lt_1; lra. }
  apply Rle_lt_trans with (ln 3).
  - rewrite <- (ln_exp 1) at 1.
    destruct (Req_dec_T (exp 1) 3) as [-> | Hne]; [lra |].
    apply Rlt_le, ln_increasing; [apply exp_pos |].
    pose proof exp_le_3; lra.
  - apply ln_increasing; lra.
Qed.




Lemma scaled_300 : arcsinh_scaled 150 300 = arcsinh 2.
Proof. unfold arcsinh_scaled. f_equal. lra. Qed.

Lemma gt_low t : 0 <= t -> Rgtb (arcsinh_scaled 150 0) t = false.
Proof. intros; rewrite arcsinh_scaled_0; apply Rgtb_false; lra. Qed.

Lemma gt_high t : t <= 1 -> Rgtb (arcsinh_scaled 150 300) t = true.
Proof.
  intros; rewrite scaled_300; apply Rgtb_true; pose proof arcsinh_2_gt_1; lra.
Qed.

Ltac gate_eval :=
  repeat (cbn;
          rewrite ?(gt_low 0), ?(gt_low 1), ?(gt_high 0), ?(gt_high 1),
                  ?(Reqb_true 0 0), ?(Reqb_false 1 0) by lra).

(** ** State derivation *)




(** C1. A gating call with both primary stains configured and 0 as the
    threshold of the second stain: both gates are evaluated and pass the
    sanity check, the first cell has [dead = False] and [cell = True], and
    yet no [state] column and no ["state"] label are produced. *)
Theorem state_skipped_at_zero_threshold :
  exists g,
    apply_gating_body (Some "FL1") ">" (Some 1) (Some "FL2") ">" (Some 0) 150 None
                      sample_df = Ok (g, ["dead"; "cell"]) /\
    getitem g "dead" = Ok (ColBool [false; true; true]) /\
    getitem g "cell" = Ok (ColBool [true; true; false]) /\
    has_col g "state" = false.
Proof.
  eexists. unfold apply_gating_body, sample_df. gate_eval.
  repeat split; reflexivity.
Qed.

(** The same call with the threshold 1 in place of 0 derives the three
    states. *)
Lemma state_derived_at_nonzero_threshold :
  exists g,
    apply_gating_body (Some "FL1") ">" (Some 1) (Some "FL2") ">" (Some 1) 150 None
                      sample_df = Ok (g, ["dead"; "cell"; "state"]) /\
    getitem g "state" = Ok (ColStr ["live"; "inactive"; "debris"]).
Proof.
  eexists. unfold apply_gating_body, sample_df. gate_eval.
  split; reflexivity.
Qed.

(** ** The label list of gating *)

(** The gating call of [state_derived_at_nonzero_threshold] returns the two
    raw labels ahead of ["state"]. *)
Lemma gating_returns_raw_labels :
  fst (apply_gating 0%nat (Some "FL1") ">" (Some 1) (Some "FL2") ">" (Some 1) 150 None
                    [sample_df])
  = Ok (1%nat, ["dead"; "cell"; "state"]) /\
  In "dead" ["dead"; "cell"; "state"] /\ In "cell" ["dead"; "cell"; "state"].
Proof.
  split; [| split; simpl; auto].
  rewrite (apply_gating_run [sample_df] 0%nat sample_df) by reflexivity.
  destruct state_derived_at_nonzero_threshold as (g & Hg & _).
  now rewrite Hg.
Qed.

(** C8 (as amended). When the condition of the state derivation holds,
    [apply_gating] returns ["dead"], ["cell"], ["state"] and then the labels
    of the extra stains, in this order; it is [save_gating_results] that
    removes ["dead"] and ["cell"] from this list, leaving ["state"] followed
    by the labels of the extra stains. *)
Theorem gating_labels_with_state h l df s1 r1 t1 s2 r2 t2 c ex g labels h' :
  nth_error h l = Some df ->
  state_condition s1 s2 t2 = true ->
  apply_gating l s1 r1 t1 s2 r2 t2 c ex h = (Ok (g, labels), h') ->
  labels = ["dead"; "cell"; "state"] ++ extra_labels ex /\
  forall gdf,
    nth_error h' g = Some gdf ->
    has_col gdf "predictions" = true ->
    save_gating_results gdf labels = Ok ("state" :: extra_labels ex).
Proof.
  intros Hl Hc Hrun.
  rewrite (apply_gating_run h l df) in Hrun by exact Hl.
  destruct (apply_gating_body s1 r1 t1 s2 r2 t2 c ex df) as [[g0 labels0] | e] eqn:Hb;
    [| discriminate].
  inversion Hrun; subst.
  apply apply_gating_body_labels in Hb. rewrite Hc in Hb.
  destruct (state_condition_stains s1 s2 t2 Hc) as ((c1 & ->) & (c2 & ->)).
  simpl in Hb. split; [exact Hb |].
  intros gdf _ Hp. subst labels. unfold save_gating_results, getitem.
  unfold has_col in Hp.
  destruct (lookup_col "predictions" (columns gdf)); [| discriminate].
  reflexivity.
Qed.

Lemma gating_labels_with_state_witness :
  exists g labels h',
    apply_gating 0%nat (Some "FL1") ">" (Some 1) (Some "FL2") ">" (Some 1) 150 None
                 [sample_df] = (Ok (g, labels), h') /\
    labels = ["dead"; "cell"; "state"] ++ extra_labels None /\
    forall gdf,
      nth_error h' g = Some gdf ->
      has_col gdf "predictions" = true ->
      save_gating_results gdf labels = Ok ("state" :: extra_labels None).
Proof.
  destruct state_derived_at_nonzero_threshold as (g & Hg & _).
  assert (Hrun : apply_gating 0%nat (Some "FL1") ">" (Some 1) (Some "FL2") ">" (Some 1)
                              150 None [sample_df]
                 = (Ok (1%nat, ["dead"; "cell"; "state"]), [sample_df] ++ [g])).
  { rewrite (apply_gating_run [sample_df] 0%nat sample_df) by reflexivity.
    now rewrite Hg. }
  exists 1%nat, ["dead"; "cell"; "state"], ([sample_df] ++ [g]).
  split; [exact Hrun |].
  apply (gating_labels_with_state [sample_df] 0%nat sample_df
           (Some "FL1") ">" (Some 1) (Some "FL2") ">" (Some 1) 150 None
           1%nat ["dead"; "cell"; "state"] ([sample_df] ++ [g])).
  - reflexivity.
  - unfold state_condition; simpl. now rewrite (Reqb_false 1 0) by lra.
  - exact Hrun.
Defined.

(** ** The input of gating is left alone *)

(** C10. Whatever the table and the stain configuration, and whether the
    call returns or raises, [apply_gating] leaves the frame it was given, and
    every other frame of the caller, exactly as it was: all its writes go to
    a copy, and the returned reference is that copy, not the input. *)
Theorem apply_gating_leaves_input h l df s1 r1 t1 s2 r2 t2 c ex :
  nth_error h l = Some df ->
  let out := apply_gating l s1 r1 t1 s2 r2 t2 c ex h in
  nth_error (snd out) l = Some df /\
  (forall l', (l' < List.length h)%nat -> nth_error (snd out) l' = nth_error h l') /\
  (forall g labels, fst out = Ok (g, labels) ->
                    g <> l /\ (List.length h <= g)%nat /\
                    exists gdf, nth_error (snd out) g = Some gdf).
Proof.
  intros Hl out.
  assert (Hlt : (l < List.length h)%nat) by (apply nth_error_Some; congruence).
  split; [| split].
  - unfold out. rewrite apply_gating_frame by exact Hlt. exact Hl.
  - intros l' Hl'. unfold out. now apply apply_gating_frame.
  - intros g labels. unfold out.
    rewrite (apply_gating_run h l df) by exact Hl.
    destruct (apply_gating_body s1 r1 t1 s2 r2 t2 c ex df) as [[g0 labels0] | e];
      simpl; [| discriminate].
    intros H; inversion H; subst.
    split; [lia |]. split; [lia |].
    exists g0. apply nth_error_snoc.
Qed.

Lemma apply_gating_leaves_input_witness :
  let out := apply_gating 0%nat (Some "FL1") ">" (Some 1) (Some "FL2") ">" (Some 1)
                          150 None [sample_df] in
  nth_error (snd out) 0%nat = Some sample_df /\
  (forall l', (l' < List.length [sample_df])%nat ->
              nth_error (snd out) l' = nth_error [sample_df] l') /\
  (forall g labels, fst out = Ok (g, labels) ->
                    g <> 0%nat /\ (List.length [sample_df] <= g)%nat /\
                    exists gdf, nth_error (snd out) g = Some gdf).
Proof.
  apply (apply_gating_leaves_input [sample_df] 0%nat sample_df). reflexivity.
Defined.

(** ** The sanity check of a gate *)


Lemma stain_sannity_check_passes df label ch sg t u :
  stain_sannity_check df label ch sg t = Ok u -> gate_column_ok df label.
Proof.
  unfold stain_sannity_check. intros H.
  apply rbind_ok in H as (col & Hc & H). exists col; split; [exact Hc |].
  unfold both_outcomes.
  destruct (in_value_counts true col), (in_value_counts false col); simpl in H;
    try (apply rbind_ok in H as (? & _ & H); discriminate).
  now split.
Qed.

Lemma gate_column_ok_setitem_other df name c label :
  label <> name -> gate_column_ok df label -> gate_column_ok (setitem df name c) label.
Proof.
  intros Hne (col & Hc & Hb). exists col; split; [| exact Hb].
  now rewrite getitem_setitem_other.
Qed.

Lemma gates_ok_snoc df labels label :
  gates_ok df labels -> gate_column_ok df label -> gates_ok df (labels ++ [label]).
Proof.
  intros Hall Hl l Hin Hne. apply in_app_or in Hin as [Hin | [<- | []]]; auto.
Qed.

Lemma loc_assign_bool_ok df mask name v g :
  loc_assign_bool df mask name v = Ok g ->
  exists c, g = setitem df name c.
Proof.
  unfold loc_assign_bool. intros H. apply rbind_ok in H as (c & _ & H).
  destruct c; try discriminate. inversion H; subst. eexists; reflexivity.
Qed.

(** A gate writes its own column only. *)
Lemma gates_ok_rewrite df labels name c g :
  g = setitem df name c ->
  gates_ok df labels -> gate_column_ok g name -> gates_ok g labels.
Proof.
  intros -> Hall Hn l Hin Hne.
  destruct (String.eqb l name) eqn:E.
  - apply String.eqb_eq in E; subst l. exact Hn.
  - apply String.eqb_neq in E. apply gate_column_ok_setitem_other; auto.
Qed.

Lemma replace_col_twice name c0 c cs :
  replace_col name c (replace_col name c0 cs) = replace_col name c cs.
Proof.
  induction cs as [| [n c'] cs IH]; simpl.
  - now rewrite String.eqb_refl.
  - destruct (String.eqb n name) eqn:E; simpl; rewrite E; [reflexivity | now rewrite IH].
Qed.

Lemma setitem_twice df name c0 c :
  setitem (setitem df name c0) name c = setitem df name c.
Proof. unfold setitem; simpl. now rewrite replace_col_twice. Qed.

Lemma primary_gate_ok label stain rel thr df labels g labels' :
  primary_gate label stain rel thr df labels = Ok (g, labels') ->
  gates_ok df labels -> gates_ok g labels'.
Proof.
  unfold primary_gate. destruct stain as [s |]; [| intros H; now inversion H].
  cbv zeta. intros H Hall.
  apply rbind_ok in H as (g1 & Hg1 & H).
  apply rbind_ok in H as (u & Hchk & H). inversion H; subst g1 labels'.
  apply stain_sannity_check_passes in Hchk.
  assert (Hform : exists c, g = setitem df label c).
  { unfold setitem_bool in Hg1.
    destruct (str_in rel [">"; "greater_than"]);
      [| destruct (str_in rel ["<"; "less_than"])].
    3: inversion Hg1; subst; eexists; reflexivity.
    all: apply rbind_ok in Hg1 as (col & _ & Hg1);
      apply rbind_ok in Hg1 as (mask & _ & Hg1);
      apply loc_assign_bool_ok in Hg1 as (c & ->);
      exists c; apply setitem_twice. }
  destruct Hform as (c & Hform).
  apply gates_ok_snoc; [| exact Hchk].
  eapply gates_ok_rewrite; eauto.
Qed.

Lemma loc_assign_str_form df mask name v g :
  loc_assign_str df mask name v = Ok g -> exists c, g = setitem df name c.
Proof.
  unfold loc_assign_str. intros H. apply rbind_ok in H as (c & _ & H).
  destruct c; try discriminate. inversion H; subst. eexists; reflexivity.
Qed.

Lemma gates_ok_state df labels c :
  gates_ok df labels -> gates_ok (setitem df "state" c) labels.
Proof.
  intros Hall l Hin Hne. apply gate_column_ok_setitem_other; auto.
Qed.

Lemma derive_state_ok df g labels :
  derive_state df = Ok g -> gates_ok df labels -> gates_ok g (labels ++ ["state"]).
Proof.
  unfold derive_state, setitem_str. cbv zeta. intros H Hall.
  apply rbind_ok in H as (d1 & _ & H). apply rbind_ok in H as (c1 & _ & H).
  apply rbind_ok in H as (g1 & Hg1 & H).
  apply rbind_ok in H as (d2 & _ & H). apply rbind_ok in H as (c2 & _ & H).
  apply loc_assign_str_form in Hg1 as (x1 & ->).
  apply loc_assign_str_form in H as (x2 & ->).
  rewrite !setitem_twice.
  intros l Hin Hne. apply in_app_or in Hin as [Hin | [<- | []]]; [| congruence].
  exact (gates_ok_state df labels x2 Hall l Hin Hne).
Qed.

Lemma gate_extra_stains_ok ex : forall df labels g labels',
  gate_extra_stains ex df labels = Ok (g, labels') ->
  gates_ok df labels -> gates_ok g labels'.
Proof.
  induction ex as [| [ch [[sg t] label]] ex IH]; intros df labels g labels'; simpl.
  - intros H; now inversion H.
  - intros H Hall.
    apply rbind_ok in H as (col & _ & H).
    apply rbind_ok in H as (cond & _ & H).
    apply rbind_ok in H as (u & Hchk & H).
    apply stain_sannity_check_passes in Hchk.
    apply (IH _ _ _ _ H).
    apply gates_ok_snoc; [| exact Hchk].
    eapply gates_ok_rewrite; eauto.
Qed.

(** The invariant of the gate result table: after a gating call that
    returns, every gate label names a column in which both [True] and
    [False] occur. *)
Lemma apply_gating_body_ok s1 r1 t1 s2 r2 t2 c ex df g labels :
  apply_gating_body s1 r1 t1 s2 r2 t2 c ex df = Ok (g, labels) ->
  gates_ok g labels.
Proof.
  unfold apply_gating_body. cbv zeta. intros H.
  apply rbind_ok in H as ([g1 l1] & H1 & H).
  apply rbind_ok in H as ([g2 l2] & H2 & H).
  apply rbind_ok in H as ([g3 l3] & H3 & H).
  assert (I1 : gates_ok g1 l1).
  { eapply primary_gate_ok; [exact H1 |]. intros l []. }
  assert (I2 : gates_ok g2 l2) by (eapply primary_gate_ok; eauto).
  assert (I3 : gates_ok g3 l3).
  { destruct (truthy_str s2 && truthy_float t2 && truthy_str s1).
    - apply rbind_ok in H3 as (g' & Hd & H3). inversion H3; subst.
      eapply derive_state_ok; eauto.
    - now inversion H3; subst. }
  destruct ex as [l |].
  - eapply gate_extra_stains_ok; eauto.
  - now inversion H; subst.
Qed.







(** ** Rows of a table *)

Lemma select_rows_nil {A} (mask : list bool) : select_rows mask (@nil A) = [].
Proof. destruct mask; reflexivity. Qed.

Lemma select_rows_map {A B} (f : A -> B) mask xs :
  select_rows mask (map f xs) = map f (select_rows mask xs).
Proof.
  revert xs; induction mask as [| m mask IH]; intros [| x xs]; simpl; auto.
  destruct m; simpl; now rewrite IH.
Qed.

Lemma select_rows_filter {A} (p : A -> bool) xs :
  select_rows (map p xs) xs = filter p xs.
Proof.
  induction xs as [| x xs IH]; simpl; [reflexivity |].
  destruct (p x); now rewrite IH.
Qed.

Lemma select_rows_tl {A} (m : bool) (mask : list bool) (xs : list A) :
  (if m then tl (select_rows (m :: mask) xs) else select_rows (m :: mask) xs)
  = select_rows mask (tl xs).
Proof.
  destruct xs as [| x xs]; simpl.
  - destruct m; simpl; now rewrite select_rows_nil.
  - destruct m; reflexivity.
Qed.

Lemma rows_from_select mask : forall n cs,
  rows_from (List.length (select_rows mask (repeat tt n)))
            (map (fun nc : string * list cell => (fst nc, select_rows mask (snd nc))) cs)
  = select_rows mask (rows_from n cs).
Proof.
  induction mask as [| m mask IH]; intros n cs; [reflexivity |].
  destruct n as [| n]; [reflexivity |].
  specialize (IH n (map (fun nc : string * list cell => (fst nc, tl (snd nc))) cs)).
  rewrite map_map in IH. simpl in IH.
  simpl rows_from at 2. simpl repeat.
  destruct m; simpl select_rows; simpl List.length.
  - simpl rows_from. rewrite !map_map. simpl. apply f_equal2.
    + apply map_ext. intros [name xs]. simpl. destruct xs; reflexivity.
    + rewrite <- IH. apply f_equal. apply map_ext. intros [name xs]. simpl.
      apply f_equal. exact (select_rows_tl true mask xs).
  - rewrite <- IH. apply f_equal. apply map_ext. intros [name xs]. simpl.
    apply f_equal. exact (select_rows_tl false mask xs).
Qed.

Lemma cells_boolean_index df mask :
  cells (boolean_index df mask)
  = map (fun nc : string * list cell => (fst nc, select_rows mask (snd nc))) (cells df).
Proof.
  unfold cells, boolean_index. simpl. rewrite !map_map.
  apply map_ext. intros [name c]. simpl.
  destruct c; simpl; now rewrite select_rows_map.
Qed.

(** [df[mask]] keeps the rows where the mask holds. *)
Lemma rows_boolean_index df mask :
  rows (boolean_index df mask) = select_rows mask (rows df).
Proof.
  unfold rows. rewrite cells_boolean_index. apply rows_from_select.
Qed.

Lemma series_eq_str_cells c s : series_eq_str c s = map (cell_is_str s) (col_cells c).
Proof. destruct c; simpl; rewrite map_map; reflexivity. Qed.

Lemma lookup_cells_of_col name df c :
  getitem df name = Ok c -> lookup_cells name (cells df) = Some (col_cells c).
Proof.
  unfold getitem, cells. induction (columns df) as [| [n c'] cs IH]; simpl; [discriminate |].
  destruct (String.eqb n name); [intros H; now inversion H | exact IH].
Qed.

Lemma mask_of_rows name s : forall n cs xs,
  lookup_cells name cs = Some xs -> List.length xs = n ->
  map (row_has_str name s) (rows_from n cs) = map (cell_is_str s) xs.
Proof.
  induction n as [| n IH]; intros cs xs Hl Hn.
  - destruct xs; [reflexivity | discriminate].
  - destruct xs as [| x xs]; [discriminate |]. simpl. f_equal.
    + unfold row_has_str. clear IH Hn.
      induction cs as [| [n0 c0] cs IHcs]; simpl in *; [discriminate |].
      destruct (String.eqb n0 name).
      * inversion Hl; subst. simpl. destruct x; reflexivity.
      * now apply IHcs.
    + apply IH; [| simpl in Hn; lia]. clear IH Hn.
      induction cs as [| [n0 c0] cs IHcs]; simpl in *; [discriminate |].
      destruct (String.eqb n0 name).
      * now inversion Hl; subst.
      * now apply IHcs.
Qed.

(** The rows kept by [df[df[name] == s]] are the rows of [df] that have [s]
    in the column [name]. *)
Lemma rows_where_str df name s c :
  getitem df name = Ok c -> col_len c = nrows df ->
  rows (boolean_index df (series_eq_str c s)) = filter (row_has_str name s) (rows df).
Proof.
  intros Hc Hlen. rewrite rows_boolean_index, series_eq_str_cells.
  rewrite <- (mask_of_rows name s (nrows df) (cells df) (col_cells c)).
  - apply select_rows_filter.
  - now apply lookup_cells_of_col.
  - rewrite <- Hlen. destruct c; simpl; apply length_map.
Qed.

(** ** Well-formed tables *)

Lemma wf_getitem df name c : wf_df df -> getitem df name = Ok c -> col_len c = nrows df.
Proof.
  unfold wf_df, getitem. intros Hwf.
  induction Hwf as [| [n c'] cs Hc _ IH]; simpl; [discriminate |].
  destruct (String.eqb n name); [intros H; inversion H; subst; exact Hc | exact IH].
Qed.

Lemma wf_setitem df name c : wf_df df -> col_len c = nrows df -> wf_df (setitem df name c).
Proof.
  unfold wf_df, setitem; simpl. intros Hwf Hc.
  induction Hwf as [| [n c'] cs Hc' Hcs IH]; simpl.
  - constructor; [exact Hc | constructor].
  - destruct (String.eqb n name); constructor; auto.
Qed.

Lemma wf_drop_col df name : wf_df df -> wf_df (drop_col df name).
Proof.
  unfold wf_df, drop_col; simpl. intros Hwf.
  induction Hwf as [| [n c'] cs Hc' Hcs IH]; simpl; [constructor |].
  destruct (String.eqb n name); [exact Hcs | constructor; auto].
Qed.

Lemma wf_arcsinh_numeric c df : wf_df df -> wf_df (arcsinh_numeric c df).
Proof.
  unfold wf_df, arcsinh_numeric; simpl. intros Hwf.
  induction Hwf as [| [n c'] cs Hc' Hcs IH]; simpl; [constructor |].
  constructor; [| exact IH].
  destruct c'; simpl in *; try rewrite length_map; exact Hc'.
Qed.

Lemma series_cmp_length op c t mask :
  series_cmp op c t = Ok mask -> List.length mask = col_len c.
Proof.
  unfold series_cmp. destruct t as [t |].
  - destruct c as [xs | bs | [| s ss]]; intros H; inversion H; subst; simpl;
      try apply length_map; reflexivity.
  - intros H; inversion H. apply repeat_length.
Qed.

Lemma wf_loc_assign_bool df mask name v g :
  wf_df df -> loc_assign_bool df mask name v = Ok g -> wf_df g.
Proof.
  unfold loc_assign_bool. intros Hwf H. apply rbind_ok in H as (c & Hc & H).
  destruct c; try discriminate. inversion H; subst.
  apply wf_setitem; [exact Hwf |]. simpl. rewrite assign_where_length.
  exact (wf_getitem _ _ _ Hwf Hc).
Qed.

Lemma wf_loc_assign_str df mask name v g :
  wf_df df -> loc_assign_str df mask name v = Ok g -> wf_df g.
Proof.
  unfold loc_assign_str. intros Hwf H. apply rbind_ok in H as (c & Hc & H).
  destruct c; try discriminate. inversion H; subst.
  apply wf_setitem; [exact Hwf |]. simpl. rewrite assign_where_length.
  exact (wf_getitem _ _ _ Hwf Hc).
Qed.

Lemma wf_setitem_bool df name v : wf_df df -> wf_df (setitem_bool df name v).
Proof. intros H. apply wf_setitem; [exact H | apply repeat_length]. Qed.

Lemma wf_setitem_str df name v : wf_df df -> wf_df (setitem_str df name v).
Proof. intros H. apply wf_setitem; [exact H | apply repeat_length]. Qed.

Lemma wf_primary_gate label stain rel thr df labels g labels' :
  wf_df df -> primary_gate label stain rel thr df labels = Ok (g, labels') -> wf_df g.
Proof.
  unfold primary_gate. intros Hwf.
  destruct stain as [s |]; [| intros H; inversion H; subst; exact Hwf].
  cbv zeta. intros H.
  apply rbind_ok in H as (g1 & Hg1 & H).
  apply rbind_ok in H as (u & _ & H). inversion H; subst g1 labels'.
  pose proof (wf_setitem_bool df label false Hwf) as Hwf0.
  destruct (str_in rel [">"; "greater_than"]);
    [| destruct (str_in rel ["<"; "less_than"])].
  3: inversion Hg1; subst; exact Hwf0.
  all: apply rbind_ok in Hg1 as (col & _ & Hg1);
    apply rbind_ok in Hg1 as (mask & _ & Hg1);
    exact (wf_loc_assign_bool _ _ _ _ _ Hwf0 Hg1).
Qed.

Lemma wf_derive_state df g : wf_df df -> derive_state df = Ok g -> wf_df g.
Proof.
  unfold derive_state. cbv zeta. intros Hwf H.
  apply rbind_ok in H as (d1 & _ & H). apply rbind_ok in H as (c1 & _ & H).
  apply rbind_ok in H as (g1 & Hg1 & H).
  apply rbind_ok in H as (d2 & _ & H). apply rbind_ok in H as (c2 & _ & H).
  eapply wf_loc_assign_str; [| exact H].
  eapply wf_loc_assign_str; [| exact Hg1].
  now apply wf_setitem_str.
Qed.

Lemma wf_gate_extra_stains ex : forall df labels g labels',
  wf_df df -> gate_extra_stains ex df labels = Ok (g, labels') -> wf_df g.
Proof.
  induction ex as [| [ch [[sg t] label]] ex IH]; intros df labels g labels' Hwf; simpl.
  - intros H; inversion H; subst; exact Hwf.
  - intros H.
    apply rbind_ok in H as (col & Hcol & H).
    apply rbind_ok in H as (cond & Hcond & H).
    apply rbind_ok in H as (u & _ & H).
    apply (IH _ _ _ _ (wf_setitem df label (ColBool cond) Hwf
                         (eq_trans (series_cmp_length _ _ _ _ Hcond)
                                   (wf_getitem _ _ _ Hwf Hcol))) H).
Qed.

Lemma wf_apply_gating_body s1 r1 t1 s2 r2 t2 c ex df g labels :
  wf_df df -> apply_gating_body s1 r1 t1 s2 r2 t2 c ex df = Ok (g, labels) -> wf_df g.
Proof.
  unfold apply_gating_body. cbv zeta. intros Hwf H.
  apply rbind_ok in H as ([g1 l1] & H1 & H).
  apply rbind_ok in H as ([g2 l2] & H2 & H).
  apply rbind_ok in H as ([g3 l3] & H3 & H).
  assert (W0 : wf_df
                 match
                   (if has_col df "predictions"
                    then lookup_col "predictions" (columns df) else None)
                 with
                 | Some c0 =>
                     setitem (arcsinh_numeric c
                                (if has_col df "predictions"
                                 then drop_col df "predictions" else df))
                             "predictions" c0
                 | None =>
                     arcsinh_numeric c
                       (if has_col df "predictions" then drop_col df "predictions" else df)
                 end).
  { destruct (has_col df "predictions").
    - destruct (lookup_col "predictions" (columns df)) as [c0 |] eqn:E.
      + apply wf_setitem; [apply wf_arcsinh_numeric, wf_drop_col, Hwf |].
        apply (wf_getitem df "predictions" c0 Hwf). unfold getitem. now rewrite E.
      + apply wf_arcsinh_numeric, wf_drop_col, Hwf.
    - apply wf_arcsinh_numeric, Hwf. }
  pose proof (wf_primary_gate _ _ _ _ _ _ _ _ W0 H1) as W1.
  pose proof (wf_primary_gate _ _ _ _ _ _ _ _ W1 H2) as W2.
  assert (W3 : wf_df g3).
  { destruct (truthy_str s2 && truthy_float t2 && truthy_str s1).
    - apply rbind_ok in H3 as (g' & Hd & H3). inversion H3; subst.
      eapply wf_derive_state; eauto.
    - inversion H3; subst; exact W2. }
  destruct ex as [l |].
  - eapply wf_gate_extra_stains; eauto.
  - inversion H; subst; exact W3.
Qed.

Lemma wf_build_predictions pc unc its f thr df df_pred u :
  wf_df df -> build_predictions pc unc its f thr df = Ok (df_pred, u) -> wf_df df_pred.
Proof.
  unfold build_predictions. cbv zeta. intros Hwf H.
  apply rbind_ok in H as (g1 & H1 & H).
  apply rbind_ok in H as (g2 & H2 & H).
  apply rbind_ok in H as (g3 & H3 & H). inversion H; subst.
  apply setitem_array_ok in H1 as [-> L1]. apply setitem_array_ok in H2 as [-> L2].
  assert (W0 : wf_df (if has_col df "Time" then drop_col df "Time" else df))
    by (destruct (has_col df "Time"); [apply wf_drop_col |]; exact Hwf).
  assert (W2 : wf_df (setitem (setitem (if has_col df "Time" then drop_col df "Time" else df)
                                       "predictions" (ColStr (map (species_of its) pc)))
                              "uncertainties" (ColNum unc))).
  { apply wf_setitem; [apply wf_setitem; [exact W0 | exact L1] | exact L2]. }
  destruct f.
  - apply rbind_ok in H3 as (uc & _ & H3). apply rbind_ok in H3 as (mask & _ & H3).
    exact (wf_loc_assign_str _ _ _ _ _ W2 H3).
  - inversion H3; subst; exact W2.
Qed.

(** ** The table handed to the heterogeneity computation *)

(** C6. In a run of [predict] on a well-formed table that reaches
    [run_heterogeneity]: when gating ran and the label list it returned
    contains ["state"], the table passed on is the new frame
    [gating_df[gating_df["state"] == "live"]], whose rows are exactly the rows
    of the gated table that have ["live"] in the state column; when gating ran
    without a ["state"] label it is the gated table itself; when gating was
    skipped it is a copy of the whole prediction table. *)
Theorem heterogeneity_input kw h run h' :
  predict kw h = (Ok run, h') ->
  (forall df, nth_error h (data_df kw) = Some df -> wf_df df) ->
  exists df_pred,
    nth_error h' (run_data_df_pred run) = Some df_pred /\
    if gating kw then
      exists g gdf labels h1,
        apply_gating (run_data_df_pred run)
                     (channel (stain1 kw)) (sign (stain1 kw)) (value (stain1 kw))
                     (channel (stain2 kw)) (sign (stain2 kw)) (value (stain2 kw))
                     (scaling_constant kw) (extra_stains kw) (h ++ [df_pred])
        = (Ok (g, labels), h1) /\
        nth_error h1 g = Some gdf /\
        nth_error h' g = Some gdf /\
        (In "state" labels ->
         exists st hetero_df,
           getitem gdf "state" = Ok st /\
           nth_error h' (run_hetero_df run) = Some hetero_df /\
           hetero_df = boolean_index gdf (series_eq_str st "live") /\
           rows hetero_df = filter (row_has_str "state" "live") (rows gdf)) /\
        (~ In "state" labels -> run_hetero_df run = g)
    else
      run_gating run = None /\
      nth_error h' (run_hetero_df run) = Some df_pred.
Proof.
  rewrite predict_unfold. unfold predict_trace.
  destruct (get_uncertainty_threshold _ _ _) as [thr | e]; [| discriminate].
  destruct (nth_error h (data_df kw)) as [df |]; [| discriminate].
  destruct (predict_species _ _ _ _ _) as [[[pc unc] its] | e]; [| discriminate].
  destruct (build_predictions _ _ _ _ _ _) as [[df_pred []] | e] eqn:Hbp; [| discriminate].
  cbv zeta. destruct (gating kw).
  - destruct (apply_gating_body _ _ _ _ _ _ _ _ _) as [[gdf labels] | e] eqn:Hg;
      [| discriminate].
    destruct (save_gating_results gdf labels) as [labels' | e] eqn:Hs; [| discriminate].
    pose proof (save_gating_results_state gdf labels labels' Hs) as Hst.
    assert (Hrun : apply_gating (List.length h)
                     (channel (stain1 kw)) (sign (stain1 kw)) (value (stain1 kw))
                     (channel (stain2 kw)) (sign (stain2 kw)) (value (stain2 kw))
                     (scaling_constant kw) (extra_stains kw) (h ++ [df_pred])
                   = (Ok (S (List.length h), labels), (h ++ [df_pred]) ++ [gdf])).
    { rewrite (apply_gating_run (h ++ [df_pred]) (List.length h) df_pred)
        by apply nth_error_snoc.
      rewrite Hg, length_snoc. reflexivity. }
    assert (Hgdf : nth_error ((h ++ [df_pred]) ++ [gdf]) (S (List.length h)) = Some gdf).
    { rewrite <- (length_snoc h df_pred). apply nth_error_snoc. }
    destruct (str_in "state" labels') eqn:E.
    + destruct (getitem gdf "state") as [st | e] eqn:Hstate; [| discriminate].
      intros H Hwf; inversion H; subst;
      cbn [run_data_df_pred run_uncertainty_threshold run_gating run_hetero_df].
      exists df_pred. split.
      { rewrite nth_error_old by (rewrite !length_snoc; lia). apply nth_error_first_new. }
      exists (S (List.length h)), gdf, labels, ((h ++ [df_pred]) ++ [gdf]).
      split; [exact Hrun |]. split; [exact Hgdf |].
      split; [rewrite nth_error_old by (rewrite !length_snoc; lia); exact Hgdf |].
      split.
      * intros _. exists st, (boolean_index gdf (series_eq_str st "live")).
        split; [exact Hstate |]. split.
        { replace (S (S (List.length h))) with (List.length ((h ++ [df_pred]) ++ [gdf]))
            by (rewrite !length_snoc; reflexivity).
          apply nth_error_snoc. }
        split; [reflexivity |].
        apply rows_where_str; [exact Hstate |].
        apply (wf_getitem gdf "state" st); [| exact Hstate].
        apply (wf_apply_gating_body _ _ _ _ _ _ _ _ _ _ _
                 (wf_build_predictions _ _ _ _ _ _ _ _ (Hwf df eq_refl) Hbp) Hg).
      * intros Hn. exfalso. apply Hn. apply str_in_iff. congruence.
    + intros H Hwf; inversion H; subst;
      cbn [run_data_df_pred run_uncertainty_threshold run_gating run_hetero_df].
      exists df_pred. split; [apply nth_error_first_new |].
      exists (S (List.length h)), gdf, labels, ((h ++ [df_pred]) ++ [gdf]).
      split; [exact Hrun |]. split; [exact Hgdf |]. split; [exact Hgdf |].
      split; [| reflexivity].
      intros Hin. apply str_in_iff in Hin. congruence.
  - intros H Hwf; inversion H; subst;
      cbn [run_data_df_pred run_uncertainty_threshold run_gating run_hetero_df].
    exists df_pred. split; [apply nth_error_first_new |].
    split; [reflexivity |].
    rewrite <- (length_snoc h df_pred). apply nth_error_snoc.
Qed.

(** C4. In a run of [predict] with uncertainty filtering on, the returned
    table keeps the uncertainties as they were computed, and the label of a
    row is ["Unknown"] when its uncertainty is strictly above the threshold
    in force and the predicted species otherwise. *)
Theorem uncertainty_filter_relabels kw h run h' :
  predict kw h = (Ok run, h') ->
  filter_out_uncertain kw = true ->
  exists df df_pred pc unc its preds,
    nth_error h (data_df kw) = Some df /\
    predict_species df (model kw) (scaler kw) (label_encoder kw) (scaling_constant kw)
      = Ok (pc, unc, its) /\
    nth_error h' (run_data_df_pred run) = Some df_pred /\
    getitem df_pred "uncertainties" = Ok (ColNum unc) /\
    getitem df_pred "predictions" = Ok (ColStr preds) /\
    List.length preds = List.length unc /\
    forall i u c,
      nth_error unc i = Some u -> nth_error pc i = Some c ->
      (run_uncertainty_threshold run < u -> nth_error preds i = Some "Unknown") /\
      (u <= run_uncertainty_threshold run -> nth_error preds i = Some (species_of its c)).
Proof.
  intros H Hf.
  destruct (predict_rows kw h run h' H)
    as (df & df_pred & pc & unc & its & preds & Hdf & Hps & Hret & Hu & Hp & Hlen & Hrows).
  exists df, df_pred, pc, unc, its, preds.
  repeat (split; [assumption |]).
  intros i u c Hi Hc. specialize (Hrows i u c Hi Hc).
  rewrite Hf in Hrows. unfold filtered_label in Hrows. split; intros Hcmp.
  - now rewrite Rgtb_true in Hrows by exact Hcmp.
  - now rewrite Rgtb_false in Hrows by exact Hcmp.
Qed.

(** C5. In a run of [predict] with uncertainty filtering on and the
    sentinel -1 as raw threshold, the threshold in force is 0.5 * ln K for
    the K classes of the label encoder, and it is this value the labels of
    the returned table are filtered with. *)
Theorem auto_threshold_is_half_max_entropy kw h run h' :
  predict kw h = (Ok run, h') ->
  filter_out_uncertain kw = true ->
  uncertainty_threshold kw = -1 ->
  run_uncertainty_threshold run = 0.5 * ln (INR (List.length (label_encoder kw))) /\
  exists df df_pred pc unc its preds,
    nth_error h (data_df kw) = Some df /\
    predict_species df (model kw) (scaler kw) (label_encoder kw) (scaling_constant kw)
      = Ok (pc, unc, its) /\
    nth_error h' (run_data_df_pred run) = Some df_pred /\
    getitem df_pred "predictions" = Ok (ColStr preds) /\
    forall i u c,
      nth_error unc i = Some u -> nth_error pc i = Some c ->
      nth_error preds i
      = Some (filtered_label (0.5 * ln (INR (List.length (label_encoder kw)))) u
                             (species_of its c)).
Proof.
  intros H Hf Hm1.
  assert (Hthr : run_uncertainty_threshold run
                 = 0.5 * ln (INR (List.length (label_encoder kw)))).
  { destruct (predict_ok_table kw h run h' H)
      as (thr & df & pc & unc & its & df_pred & Hthr & Hrun & _).
    rewrite Hf, Hm1 in Hthr. rewrite Hrun.
    destruct (label_encoder kw) as [| s le] eqn:Hle; [discriminate |].
    destruct (get_uncertainty_threshold_cases (s :: le) (-1)) as (_ & Hauto & _);
      [discriminate |].
    rewrite Hauto in Hthr by reflexivity. now inversion Hthr. }
  split; [exact Hthr |].
  destruct (predict_rows kw h run h' H)
    as (df & df_pred & pc & unc & its & preds & Hdf & Hps & Hret & Hu & Hp & Hlen & Hrows).
  exists df, df_pred, pc, unc, its, preds.
  repeat (split; [assumption |]).
  intros i u c Hi Hc. rewrite (Hrows i u c Hi Hc), Hf, Hthr. reflexivity.
Qed.

Lemma sample_threshold :
  get_uncertainty_threshold true ["A"; "B"] (-1) = Ok (0.5 * ln (INR 2)).
Proof.
  destruct (get_uncertainty_threshold_cases ["A"; "B"] (-1)) as (_ & H & _);
    [discriminate |].
  now apply H.
Qed.

Lemma sample_species :
  predict_species sample_df sample_model sample_scaler ["A"; "B"] 150
  = Ok ([0; 1; 0]%nat, map entropy [[1; 0]; [0; 1]; [1; 1]], ["A"; "B"]).
Proof.
  unfold predict_species, sample_model. cbn [mapM np_argmax argmax_from rbind].
  rewrite (Rgtb_false 0 1), (Rgtb_true 1 0), (Rgtb_false 1 1) by lra.
  reflexivity.
Qed.

(** The run returns, with gating and without. *)
Lemma sample_run gating_on :
  exists run h', predict (sample_kwargs gating_on) [sample_df] = (Ok run, h').
Proof.
  rewrite predict_unfold. unfold predict_trace, sample_kwargs.
  cbn [filter_out_uncertain label_encoder uncertainty_threshold data_df model scaler
       scaling_constant gating stain1 stain2 extra_stains channel sign value].
  rewrite sample_threshold. cbn [nth_error]. rewrite sample_species.
  cbn [map].
  generalize (0.5 * ln (INR 2)) (entropy [1; 0]) (entropy [0; 1]) (entropy [1; 1]).
  intros t u1 u2 u3.
  unfold build_predictions, sample_df. cbn.
  destruct gating_on.
  - unfold apply_gating_body. gate_eval. eexists _, _. reflexivity.
  - eexists _, _. reflexivity.
Qed.

Lemma uncertainty_threshold_validation_witness :
  (fst (predict (sample_kwargs true) [sample_df]) = Err (ValueError MsgUncertaintyThreshold)
   <-> ~ (0 <= -1 <= ln (INR 2)) /\ -1 <> -1) /\
  (0 <= -1 <= ln (INR 2) \/ -1 = -1 ->
   exists thr, get_uncertainty_threshold true ["A"; "B"] (-1) = Ok thr).
Proof.
  apply (uncertainty_threshold_validation (sample_kwargs true) [sample_df]).
  - reflexivity.
  - discriminate.
Defined.

Lemma heterogeneity_input_witness :
  exists run h',
    predict (sample_kwargs true) [sample_df] = (Ok run, h') /\
    exists df_pred,
      nth_error h' (run_data_df_pred run) = Some df_pred /\
      exists g gdf labels h1,
        apply_gating (run_data_df_pred run) (Some "FL1") ">" (Some 1)
                     (Some "FL2") ">" (Some 1) 150 None ([sample_df] ++ [df_pred])
        = (Ok (g, labels), h1) /\
        nth_error h1 g = Some gdf /\
        nth_error h' g = Some gdf /\
        (In "state" labels ->
         exists st hetero_df,
           getitem gdf "state" = Ok st /\
           nth_error h' (run_hetero_df run) = Some hetero_df /\
           hetero_df = boolean_index gdf (series_eq_str st "live") /\
           rows hetero_df = filter (row_has_str "state" "live") (rows gdf)) /\
        (~ In "state" labels -> run_hetero_df run = g).
Proof.
  destruct (sample_run true) as (run & h' & H).
  exists run, h'. split; [exact H |].
  apply (heterogeneity_input (sample_kwargs true) [sample_df] run h' H).
  intros df Hdf. inversion Hdf; subst. repeat constructor.
Defined.

Lemma uncertainty_filter_relabels_witness :
  exists run h',
    predict (sample_kwargs false) [sample_df] = (Ok run, h') /\
    exists df df_pred pc unc its preds,
      nth_error [sample_df] 0%nat = Some df /\
      predict_species df sample_model sample_scaler ["A"; "B"] 150 = Ok (pc, unc, its) /\
      nth_error h' (run_data_df_pred run) = Some df_pred /\
      getitem df_pred "uncertainties" = Ok (ColNum unc) /\
      getitem df_pred "predictions" = Ok (ColStr preds) /\
      List.length preds = List.length unc /\
      forall i u c,
        nth_error unc i = Some u -> nth_error pc i = Some c ->
        (run_uncertainty_threshold run < u -> nth_error preds i = Some "Unknown") /\
        (u <= run_uncertainty_threshold run ->
         nth_error preds i = Some (species_of its c)).
Proof.
  destruct (sample_run false) as (run & h' & H).
  exists run, h'. split; [exact H |].
  exact (uncertainty_filter_relabels (sample_kwargs false) [sample_df] run h' H eq_refl).
Defined.

Lemma auto_threshold_is_half_max_entropy_witness :
  exists run h',
    predict (sample_kwargs true) [sample_df] = (Ok run, h') /\
    run_uncertainty_threshold run = 0.5 * ln (INR 2) /\
    exists df df_pred pc unc its preds,
      nth_error [sample_df] 0%nat = Some df /\
      predict_species df sample_model sample_scaler ["A"; "B"] 150 = Ok (pc, unc, its) /\
      nth_error h' (run_data_df_pred run) = Some df_pred /\
      getitem df_pred "predictions" = Ok (ColStr preds) /\
      forall i u c,
        nth_error unc i = Some u -> nth_error pc i = Some c ->
        nth_error preds i
        = Some (filtered_label (0.5 * ln (INR 2)) u (species_of its c)).
Proof.
  destruct (sample_run true) as (run & h' & H).
  exists run, h'. split; [exact H |].
  exact (auto_threshold_is_half_max_entropy (sample_kwargs true) [sample_df] run h' H
                                            eq_refl eq_refl).
Defined.

(** * Further properties *)

(** ** What gating writes and what it leaves *)

Lemma apply_gating_body_transform s1 r1 t1 s2 r2 t2 c ex df :
  apply_gating_body s1 r1 t1 s2 r2 t2 c ex df =
  ('(g, l) <- primary_gate "dead" s1 r1 t1 (gating_transform c df) [] ;;
   '(g, l) <- primary_gate "cell" s2 r2 t2 g l ;;
   '(g, l) <- (if state_condition s1 s2 t2 then
                 g <- derive_state g ;; Ok (g, l ++ ["state"])
               else Ok (g, l)) ;;
   match ex with
   | Some ex => gate_extra_stains ex g l
   | None => Ok (g, l)
   end)%result.
Proof. reflexivity. Qed.

Lemma lookup_remove_other name name' cs :
  name' <> name -> lookup_col name' (remove_col name cs) = lookup_col name' cs.
Proof.
  intros Hne. induction cs as [| [n c] cs IH]; simpl; [reflexivity |].
  destruct (String.eqb n name) eqn:E; simpl.
  - apply String.eqb_eq in E; subst n.
    destruct (String.eqb name name') eqn:E'; [| reflexivity].
    apply String.eqb_eq in E'; congruence.
  - destruct (String.eqb n name'); [reflexivity | exact IH].
Qed.

Lemma lookup_arcsinh_numeric name c cs :
  lookup_col name
    (map (fun nc : string * column =>
            match snd nc with
            | ColNum xs => (fst nc, ColNum (map (arcsinh_scaled c) xs))
            | col => (fst nc, col)
            end) cs)
  = match lookup_col name cs with
    | Some (ColNum xs) => Some (ColNum (map (arcsinh_scaled c) xs))
    | o => o
    end.
Proof.
  induction cs as [| [n col] cs IH]; simpl; [reflexivity |].
  destruct col; simpl; destruct (String.eqb n name); auto.
Qed.

(** The columns of the frame that is gated: float columns are
    transformed, the others are kept, and [predictions] is kept whatever its
    type. *)
Lemma getitem_gating_transform c df name :
  getitem (gating_transform c df) name =
  if String.eqb name "predictions" then getitem df name
  else match getitem df name with
       | Ok (ColNum xs) => Ok (ColNum (map (arcsinh_scaled c) xs))
       | r => r
       end.
Proof.
  unfold gating_transform, has_col. cbv zeta.
  destruct (String.eqb name "predictions") eqn:E.
  - apply String.eqb_eq in E; subst name.
    destruct (lookup_col "predictions" (columns df)) as [pc |] eqn:Hp.
    + rewrite getitem_setitem_same. unfold getitem. now rewrite Hp.
    + unfold getitem, arcsinh_numeric; simpl.
      rewrite lookup_arcsinh_numeric, Hp. reflexivity.
  - apply String.eqb_neq in E.
    destruct (lookup_col "predictions" (columns df)) as [pc |] eqn:Hp.
    + rewrite getitem_setitem_other by exact E.
      unfold getitem, arcsinh_numeric, drop_col; simpl.
      rewrite lookup_arcsinh_numeric, lookup_remove_other by exact E.
      destruct (lookup_col name (columns df)) as [[xs | bs | ss] |]; reflexivity.
    + unfold getitem, arcsinh_numeric; simpl.
      rewrite lookup_arcsinh_numeric.
      destruct (lookup_col name (columns df)) as [[xs | bs | ss] |]; reflexivity.
Qed.

Lemma nrows_gating_transform c df : nrows (gating_transform c df) = nrows df.
Proof.
  unfold gating_transform. cbv zeta.
  destruct (has_col df "predictions");
    [destruct (lookup_col "predictions" (columns df)) |]; reflexivity.
Qed.

(** A primary gate either does nothing (no stain) or rewrites its own
    column. *)
Lemma primary_gate_form label stain rel thr df labels g labels' :
  primary_gate label stain rel thr df labels = Ok (g, labels') ->
  (stain = None /\ g = df) \/ (stain <> None /\ exists c, g = setitem df label c).
Proof.
  unfold primary_gate. destruct stain as [s |]; [| intros H; inversion H; now left].
  cbv zeta. intros H. right. split; [discriminate |].
  apply rbind_ok in H as (g1 & Hg1 & H).
  apply rbind_ok in H as (u & _ & H). inversion H; subst g1 labels'.
  unfold setitem_bool in Hg1.
  destruct (str_in rel [">"; "greater_than"]);
    [| destruct (str_in rel ["<"; "less_than"])].
  3: inversion Hg1; subst; eexists; reflexivity.
  all: apply rbind_ok in Hg1 as (col & _ & Hg1);
    apply rbind_ok in Hg1 as (mask & _ & Hg1);
    apply loc_assign_bool_ok in Hg1 as (c & ->);
    exists c; apply setitem_twice.
Qed.


Lemma primary_gate_nrows label stain rel thr df labels g labels' :
  primary_gate label stain rel thr df labels = Ok (g, labels') -> nrows g = nrows df.
Proof.
  intros H. apply primary_gate_form in H as [[_ ->] | (_ & c & ->)]; reflexivity.
Qed.

Lemma derive_state_form df g :
  derive_state df = Ok g -> exists c, g = setitem df "state" c.
Proof.
  unfold derive_state, setitem_str. cbv zeta. intros H.
  apply rbind_ok in H as (d1 & _ & H). apply rbind_ok in H as (c1 & _ & H).
  apply rbind_ok in H as (g1 & Hg1 & H).
  apply rbind_ok in H as (d2 & _ & H). apply rbind_ok in H as (c2 & _ & H).
  apply loc_assign_str_form in Hg1 as (x1 & ->).
  apply loc_assign_str_form in H as (x2 & ->).
  exists x2. now rewrite !setitem_twice.
Qed.

Lemma gate_extra_stains_other ex : forall df labels g labels' name,
  gate_extra_stains ex df labels = Ok (g, labels') ->
  ~ In name (map (fun e : extra_stain => snd (snd e)) ex) ->
  getitem g name = getitem df name.
Proof.
  induction ex as [| [ch [[sg t] label]] ex IH]; intros df labels g labels' name; simpl.
  - intros H _; now inversion H.
  - intros H Hn.
    apply rbind_ok in H as (col & _ & H).
    apply rbind_ok in H as (cond & _ & H).
    apply rbind_ok in H as (u & _ & H).
    rewrite (IH _ _ _ _ name H) by tauto.
    apply getitem_setitem_other. intros ->. tauto.
Qed.

Lemma gate_extra_stains_nrows ex : forall df labels g labels',
  gate_extra_stains ex df labels = Ok (g, labels') -> nrows g = nrows df.
Proof.
  induction ex as [| [ch [[sg t] label]] ex IH]; intros df labels g labels'; simpl.
  - intros H; now inversion H.
  - intros H.
    apply rbind_ok in H as (col & _ & H).
    apply rbind_ok in H as (cond & _ & H).
    apply rbind_ok in H as (u & _ & H).
    now rewrite (IH _ _ _ _ H).
Qed.

Lemma derive_state_nrows df g : derive_state df = Ok g -> nrows g = nrows df.
Proof. intros H. apply derive_state_form in H as (c & ->). reflexivity. Qed.

(** Stepping through a gating call that returns. *)
Lemma apply_gating_body_steps s1 r1 t1 s2 r2 t2 c ex df g labels :
  apply_gating_body s1 r1 t1 s2 r2 t2 c ex df = Ok (g, labels) ->
  exists g1 l1 g2 l2 g3 l3,
    primary_gate "dead" s1 r1 t1 (gating_transform c df) [] = Ok (g1, l1) /\
    primary_gate "cell" s2 r2 t2 g1 l1 = Ok (g2, l2) /\
    (if state_condition s1 s2 t2
     then derive_state g2 = Ok g3 /\ l3 = l2 ++ ["state"]
     else g3 = g2 /\ l3 = l2) /\
    match ex with
    | Some ex => gate_extra_stains ex g3 l3 = Ok (g, labels)
    | None => g = g3 /\ labels = l3
    end.
Proof.
  rewrite apply_gating_body_transform. intros H.
  apply rbind_ok in H as ([g1 l1] & H1 & H).
  apply rbind_ok in H as ([g2 l2] & H2 & H).
  apply rbind_ok in H as ([g3 l3] & H3 & H).
  exists g1, l1, g2, l2, g3, l3. split; [exact H1 |]. split; [exact H2 |]. split.
  - destruct (state_condition s1 s2 t2).
    + apply rbind_ok in H3 as (g' & Hd & H3). inversion H3; subst. now split.
    + inversion H3; subst. now split.
  - destruct ex as [l |]; [exact H |]. inversion H; subst. now split.
Qed.

Lemma apply_gating_body_nrows s1 r1 t1 s2 r2 t2 c ex df g labels :
  apply_gating_body s1 r1 t1 s2 r2 t2 c ex df = Ok (g, labels) -> nrows g = nrows df.
Proof.
  intros H.
  apply apply_gating_body_steps in H
    as (g1 & l1 & g2 & l2 & g3 & l3 & H1 & H2 & H3 & H4).
  apply primary_gate_nrows in H1. apply primary_gate_nrows in H2.
  assert (N3 : nrows g3 = nrows g2).
  { destruct (state_condition s1 s2 t2).
    - destruct H3 as [H3 _]. now apply derive_state_nrows.
    - destruct H3 as [-> _]. reflexivity. }
  assert (N4 : nrows g = nrows g3).
  { destruct ex as [l |].
    - now apply gate_extra_stains_nrows in H4.
    - destruct H4 as [-> _]. reflexivity. }
  rewrite N4, N3, H2, H1. apply nrows_gating_transform.
Qed.

(** X1. Gating keeps the table rectangular and never adds or drops a
    row: the gated table of a well-formed table is well-formed and has the
    same number of rows. *)
Theorem gating_keeps_rows s1 r1 t1 s2 r2 t2 c ex df g labels :
  wf_df df ->
  apply_gating_body s1 r1 t1 s2 r2 t2 c ex df = Ok (g, labels) ->
  wf_df g /\ nrows g = nrows df.
Proof.
  intros Hwf H. split.
  - exact (wf_apply_gating_body _ _ _ _ _ _ _ _ _ _ _ Hwf H).
  - exact (apply_gating_body_nrows _ _ _ _ _ _ _ _ _ _ _ H).
Qed.

Lemma apply_gating_body_other s1 r1 t1 s2 r2 t2 c ex df g labels name :
  apply_gating_body s1 r1 t1 s2 r2 t2 c ex df = Ok (g, labels) ->
  ~ In name labels ->
  getitem g name =
  if String.eqb name "predictions" then getitem df name
  else match getitem df name with
       | Ok (ColNum xs) => Ok (ColNum (map (arcsinh_scaled c) xs))
       | r => r
       end.
Proof.
  intros H Hn. pose proof (apply_gating_body_labels _ _ _ _ _ _ _ _ _ _ _ H) as Hl.
  apply apply_gating_body_steps in H
    as (g1 & l1 & g2 & l2 & g3 & l3 & H1 & H2 & H3 & H4).
  rewrite Hl in Hn.
  assert (Nd : s1 <> None -> name <> "dead").
  { intros Hs ->. apply Hn. destruct s1; [simpl; auto | congruence]. }
  assert (Nc : s2 <> None -> name <> "cell").
  { intros Hs ->. apply Hn. apply in_or_app; right.
    destruct s2; [simpl; auto | congruence]. }
  assert (Ns : state_condition s1 s2 t2 = true -> name <> "state").
  { intros Hs ->. apply Hn. apply in_or_app; right. apply in_or_app; right.
    rewrite Hs. simpl; auto. }
  assert (Ne : ~ In name (extra_labels ex)).
  { intros Hin. apply Hn. apply in_or_app; right. apply in_or_app; right.
    apply in_or_app; right. exact Hin. }
  rewrite <- getitem_gating_transform.
  assert (E1 : getitem g1 name = getitem (gating_transform c df) name).
  { apply primary_gate_form in H1 as [[_ ->] | (Hs & x & ->)]; [reflexivity |].
    apply getitem_setitem_other. now apply Nd. }
  assert (E2 : getitem g2 name = getitem g1 name).
  { apply primary_gate_form in H2 as [[_ ->] | (Hs & x & ->)]; [reflexivity |].
    apply getitem_setitem_other. now apply Nc. }
  assert (E3 : getitem g3 name = getitem g2 name).
  { destruct (state_condition s1 s2 t2).
    - destruct H3 as [H3 _]. apply derive_state_form in H3 as (x & ->).
      apply getitem_setitem_other. now apply Ns.
    - destruct H3 as [-> _]. reflexivity. }
  assert (E4 : getitem g name = getitem g3 name).
  { destruct ex as [l |].
    - eapply gate_extra_stains_other; eauto.
    - destruct H4 as [-> _]. reflexivity. }
  congruence.
Qed.

(** X2. Every column that is not a gate label comes out of gating as it
    went into the gates: a float column holds [arcsinh(x / cofactor)] of its
    input, any other column is unchanged, and [predictions] is unchanged even
    when it holds numbers. *)
Theorem gating_other_columns s1 r1 t1 s2 r2 t2 c ex df g labels name :
  apply_gating_body s1 r1 t1 s2 r2 t2 c ex df = Ok (g, labels) ->
  ~ In name labels ->
  getitem g name =
  if String.eqb name "predictions" then getitem df name
  else match getitem df name with
       | Ok (ColNum xs) => Ok (ColNum (map (arcsinh_scaled c) xs))
       | r => r
       end.
Proof. exact (apply_gating_body_other s1 r1 t1 s2 r2 t2 c ex df g labels name). Qed.

(** ** What a gate computes *)




Lemma relation_op_none rel :
  relation_op rel = None ->
  str_in rel [">"; "greater_than"] = false /\ str_in rel ["<"; "less_than"] = false.
Proof.
  unfold relation_op. destruct (str_in rel [">"; "greater_than"]); [discriminate |].
  destruct (str_in rel ["<"; "less_than"]); [discriminate | now split].
Qed.




(** ** Gating calls that cannot return *)

Lemma in_value_counts_all_false (n : nat) :
  in_value_counts true (ColBool (repeat false n)) = false.
Proof. induction n as [| n IH]; simpl; [reflexivity | exact IH]. Qed.

Lemma assign_where_none_selected (k n : nat) :
  assign_where (repeat false k) true (repeat false n) = repeat false n.
Proof.
  revert k; induction n as [| n IH]; intros [| k]; simpl; try reflexivity.
  now rewrite IH.
Qed.

(** A primary gate whose relation is not recognised, or whose threshold is
    [None], marks no row and is rejected by the sanity check. *)
Lemma primary_gate_marks_nothing label ch rel thr df labels :
  relation_op rel = None \/ thr = None ->
  exists e,
    primary_gate label (Some ch) rel thr df labels = Err e /\
    (e = KeyError ch \/
     exists lo hi, e = ValueError (MsgInvalidGating ch lo hi rel thr)).
Proof.
  intros Hcase. unfold primary_gate. cbv zeta.
  set (df0 := setitem_bool df label false).
  assert (Hl0 : getitem df0 label = Ok (ColBool (repeat false (nrows df))))
    by apply getitem_setitem_same.
  assert (Hcheck : forall g,
             getitem g label = Ok (ColBool (repeat false (nrows df))) ->
             exists e,
               (_ <- stain_sannity_check g label ch rel thr ;;
                Ok (g, labels ++ [label]))%result = Err e /\
               (e = KeyError ch \/
                exists lo hi, e = ValueError (MsgInvalidGating ch lo hi rel thr))).
  { intros g Hg. unfold stain_sannity_check. rewrite Hg. cbn [rbind].
    rewrite in_value_counts_all_false. simpl.
    unfold getitem. destruct (lookup_col ch (columns g)) as [col |]; simpl.
    - eexists; split; [reflexivity |]. right. eexists _, _. reflexivity.
    - eexists; split; [reflexivity |]. now left. }
  destruct Hcase as [Hrel | Hthr].
  - destruct (relation_op_none rel Hrel) as [E1 E2]. rewrite E1, E2. cbn [rbind].
    exact (Hcheck df0 Hl0).
  - subst thr.
    assert (Hnone : forall op col,
               getitem df0 ch = Ok col ->
               exists e,
                 (gated <- (col' <- getitem df0 ch ;;
                            mask <- series_cmp op col' None ;;
                            loc_assign_bool df0 mask label true) ;;
                  _ <- stain_sannity_check gated label ch rel None ;;
                  Ok (gated, labels ++ [label]))%result = Err e /\
                 (e = KeyError ch \/
                  exists lo hi, e = ValueError (MsgInvalidGating ch lo hi rel None))).
    { intros op col Hcol. rewrite Hcol. cbn [rbind series_cmp].
      unfold loc_assign_bool. rewrite Hl0. cbn [rbind].
      rewrite assign_where_none_selected.
      apply Hcheck. apply getitem_setitem_same. }
    destruct (getitem df0 ch) as [col | e] eqn:Hcol.
    + destruct (str_in rel [">"; "greater_than"]).
      * exact (Hnone CmpGt col eq_refl).
      * destruct (str_in rel ["<"; "less_than"]).
        -- exact (Hnone CmpLt col eq_refl).
        -- cbn [rbind]. exact (Hcheck df0 Hl0).
    + assert (He : e = KeyError ch).
      { unfold getitem in Hcol. destruct (lookup_col ch (columns df0)); now inversion Hcol. }
      subst e.
      destruct (str_in rel [">"; "greater_than"]).
      * cbn [rbind]. eexists; split; [reflexivity | now left].
      * destruct (str_in rel ["<"; "less_than"]).
        -- cbn [rbind]. eexists; split; [reflexivity | now left].
        -- cbn [rbind]. exact (Hcheck df0 Hl0).
Qed.

Lemma apply_gating_body_first_gate_fails s1 r1 t1 s2 r2 t2 c ex df e :
  primary_gate "dead" s1 r1 t1 (gating_transform c df) [] = Err e ->
  apply_gating_body s1 r1 t1 s2 r2 t2 c ex df = Err e.
Proof. intros H. rewrite apply_gating_body_transform, H. reflexivity. Qed.

(** X4. A relation of the first stain other than [">"], ["greater_than"],
    ["<"] and ["less_than"] is not an error of its own: the gate marks no
    cell as dead, and the call always fails, with the invalid-gating error
    (or with [KeyError] when the channel is missing). *)
Theorem gating_unrecognised_relation ch r1 t1 s2 r2 t2 c ex df :
  relation_op r1 = None ->
  exists e,
    apply_gating_body (Some ch) r1 t1 s2 r2 t2 c ex df = Err e /\
    (e = KeyError ch \/
     exists lo hi, e = ValueError (MsgInvalidGating ch lo hi r1 t1)).
Proof.
  intros Hrel.
  destruct (primary_gate_marks_nothing "dead" ch r1 t1 (gating_transform c df) []
              (or_introl Hrel)) as (e & He & Hk).
  exists e. split; [now apply apply_gating_body_first_gate_fails | exact Hk].
Qed.

(** X5. A first stain without a threshold ([None]) never gates: the
    comparison with [None] is false on every row and the call always
    fails. *)
Theorem gating_without_threshold ch r1 s2 r2 t2 c ex df :
  exists e,
    apply_gating_body (Some ch) r1 None s2 r2 t2 c ex df = Err e /\
    (e = KeyError ch \/
     exists lo hi, e = ValueError (MsgInvalidGating ch lo hi r1 None)).
Proof.
  destruct (primary_gate_marks_nothing "dead" ch r1 None (gating_transform c df) []
              (or_intror eq_refl)) as (e & He & Hk).
  exists e. split; [now apply apply_gating_body_first_gate_fails | exact Hk].
Qed.


Lemma both_outcomes_two_rows col : both_outcomes col -> (2 <= col_len col)%nat.
Proof.
  intros [Ht Hf]. destruct col as [xs | bs | ss]; simpl in *; [| | discriminate].
  - destruct xs as [| x [| y xs]]; simpl in *; try discriminate; [| lia].
    rewrite orb_false_r in Ht, Hf.
    apply Reqb_iff in Ht. apply Reqb_iff in Hf. simpl in Ht, Hf. lra.
  - destruct bs as [| x [| y bs]]; simpl in *; try discriminate; [| lia].
    destruct x; discriminate.
Qed.

(** X7. A table with fewer than two rows cannot be gated: with a primary
    stain configured the call never returns, since no gate column can hold
    both [True] and [False]. *)
Theorem gating_needs_two_rows s1 r1 t1 s2 r2 t2 c ex df :
  wf_df df ->
  (nrows df < 2)%nat ->
  s1 <> None \/ s2 <> None ->
  exists e, apply_gating_body s1 r1 t1 s2 r2 t2 c ex df = Err e.
Proof.
  intros Hwf Hn Hs.
  destruct (apply_gating_body s1 r1 t1 s2 r2 t2 c ex df) as [[g labels] | e] eqn:H;
    [| now exists e].
  exfalso.
  pose proof (apply_gating_body_ok _ _ _ _ _ _ _ _ _ _ _ H) as Hok.
  pose proof (apply_gating_body_labels _ _ _ _ _ _ _ _ _ _ _ H) as Hl.
  pose proof (wf_apply_gating_body _ _ _ _ _ _ _ _ _ _ _ Hwf H) as Hwfg.
  pose proof (apply_gating_body_nrows _ _ _ _ _ _ _ _ _ _ _ H) as Hrows.
  assert (Hlab : exists label, In label labels /\ label <> "state").
  { rewrite Hl. destruct Hs as [Hs | Hs].
    - exists "dead". split; [| discriminate].
      destruct s1; [simpl; auto | congruence].
    - exists "cell". split; [| discriminate].
      apply in_or_app; right. destruct s2; [simpl; auto | congruence]. }
  destruct Hlab as (label & Hin & Hne).
  destruct (Hok label Hin Hne) as (col & Hcol & Hboth).
  pose proof (both_outcomes_two_rows col Hboth) as H2.
  pose proof (wf_getitem g label col Hwfg Hcol) as Hlen. lia.
Qed.

(** ** Extra stains *)

(** X8. The sign of an extra stain is read differently from the relation
    of a primary stain: only [">"] selects the cells above the threshold,
    and every other sign, ["greater_than"] included, selects the cells whose
    transformed intensity is strictly below it. *)
Theorem extra_stain_sign c ch sg t label df xs g labels :
  getitem df ch = Ok (ColNum xs) ->
  ch <> "predictions" ->
  sg <> ">" ->
  apply_gating_body None "" None None "" None c (Some [(ch, (sg, Some t, label))]) df
  = Ok (g, labels) ->
  labels = [label] /\
  getitem g label = Ok (ColBool (map (fun x => Rltb (arcsinh_scaled c x) t) xs)).
Proof.
  intros Hch Hp Hsg H.
  split; [exact (apply_gating_body_labels _ _ _ _ _ _ _ _ _ _ _ H) |].
  rewrite apply_gating_body_transform in H. cbn [primary_gate rbind] in H.
  change (state_condition None None None) with false in H.
  cbn [rbind gate_extra_stains] in H.
  assert (T : getitem (gating_transform c df) ch
              = Ok (ColNum (map (arcsinh_scaled c) xs))).
  { rewrite getitem_gating_transform, Hch.
    apply String.eqb_neq in Hp. now rewrite Hp. }
  rewrite T in H. apply String.eqb_neq in Hsg. rewrite Hsg in H.
  cbn [rbind series_cmp cmp_R] in H.
  apply rbind_ok in H as (u & _ & H). inversion H; subst.
  rewrite getitem_setitem_same, map_map. reflexivity.
Qed.

(** ** Labels that [save_gating_results] cannot handle *)

Lemma list_remove_absent x l : ~ In x l -> list_remove x l = Err (ValueError MsgNotInList).
Proof.
  induction l as [| y l IH]; simpl; intros Hn; [reflexivity |].
  destruct (String.eqb y x) eqn:E.
  - apply String.eqb_eq in E. subst. tauto.
  - rewrite IH by tauto. reflexivity.
Qed.

Lemma list_remove_present x l : In x l -> exists l', list_remove x l = Ok l'.
Proof.
  induction l as [| y l IH]; simpl; intros Hin; [tauto |].
  destruct (String.eqb y x) eqn:E; [eexists; reflexivity |].
  apply String.eqb_neq in E. destruct Hin as [-> | Hin]; [congruence |].
  destruct (IH Hin) as (l' & ->). eexists; reflexivity.
Qed.

Lemma list_remove_keeps_others x y l l' :
  y <> x -> list_remove x l = Ok l' -> (In y l' <-> In y l).
Proof.
  intros Hne. revert l'. induction l as [| z l IH]; intros l'; simpl; [discriminate |].
  destruct (String.eqb z x) eqn:E.
  - intros H; inversion H; subst. apply String.eqb_eq in E. subst z.
    split; [now right | intros [-> | Hin]; [congruence | exact Hin]].
  - intros H. apply rbind_ok in H as (r & Hr & H). inversion H; subst.
    simpl. rewrite (IH r Hr). reflexivity.
Qed.

(** X9. [save_gating_results] takes ["state"] in the label list to mean
    that both primary gates ran.  When the label comes from an extra stain
    named ["state"] and a primary stain is not configured, removing the
    missing ["dead"] or ["cell"] raises [ValueError]. *)
Theorem state_label_from_extra_stain s1 r1 t1 s2 r2 t2 c ex df g labels :
  apply_gating_body s1 r1 t1 s2 r2 t2 c ex df = Ok (g, labels) ->
  has_col g "predictions" = true ->
  In "state" (extra_labels ex) ->
  (s1 = None /\ ~ In "dead" (extra_labels ex)) \/
  (s2 = None /\ ~ In "cell" (extra_labels ex)) ->
  save_gating_results g labels = Err (ValueError MsgNotInList).
Proof.
  intros H Hp Hst Hmiss.
  apply apply_gating_body_labels in H.
  assert (Hin : str_in "state" labels = true).
  { apply str_in_iff. rewrite H. do 3 (apply in_or_app; right). exact Hst. }
  unfold save_gating_results, getitem. unfold has_col in Hp.
  destruct (lookup_col "predictions" (columns g)); [| discriminate].
  cbn [rbind]. rewrite Hin.
  destruct Hmiss as [[-> Hd] | [-> Hc]].
  - rewrite list_remove_absent; [reflexivity |].
    rewrite H. simpl. intros Hin'.
    apply in_app_or in Hin' as [Hin' | Hin'].
    + destruct s2; simpl in Hin'; [destruct Hin' as [E | []]; discriminate | tauto].
    + unfold state_condition in Hin'. rewrite andb_false_r in Hin'. simpl in Hin'. tauto.
  - assert (Hd : {In "dead" labels} + {~ In "dead" labels})
      by (apply in_dec, string_dec).
    destruct Hd as [Hd | Hd].
    + destruct (list_remove_present "dead" labels Hd) as (l' & Hl').
      rewrite Hl'. cbn [rbind]. apply list_remove_absent.
      rewrite (list_remove_keeps_others "dead" "cell" labels l') by (discriminate || assumption).
      rewrite H. simpl. intros Hin'.
      apply in_app_or in Hin' as [Hin' | Hin'].
      * destruct s1; simpl in Hin'; [destruct Hin' as [E | []]; discriminate | tauto].
      * unfold state_condition in Hin'. simpl in Hin'. tauto.
    + rewrite list_remove_absent by exact Hd. reflexivity.
Qed.

(** ** What [predict] returns and what it leaves *)

(** X10. [predict] never writes to a table of its caller: every frame
    that existed before the call, the input table among them, is the same
    after it, whether the call returns or raises. *)
Theorem predict_leaves_heap kw h l :
  (l < List.length h)%nat ->
  nth_error (snd (predict kw h)) l = nth_error h l.
Proof.
  intros Hl. rewrite predict_unfold. unfold predict_trace.
  destruct (get_uncertainty_threshold _ _ _) as [thr | e]; [| reflexivity].
  destruct (nth_error h (data_df kw)) as [df |]; [| reflexivity].
  destruct (predict_species _ _ _ _ _) as [[[pc unc] its] | e]; [| reflexivity].
  assert (Hone : forall a, nth_error (h ++ [a]) l = nth_error h l)
    by (intros; now apply nth_error_old).
  assert (Htwo : forall a b, nth_error ((h ++ [a]) ++ [b]) l = nth_error h l).
  { intros. rewrite nth_error_old by (rewrite length_snoc; lia). apply Hone. }
  assert (Hthree : forall a b d, nth_error (((h ++ [a]) ++ [b]) ++ [d]) l = nth_error h l).
  { intros. rewrite nth_error_old by (rewrite !length_snoc; lia). apply Htwo. }
  destruct (build_predictions _ _ _ _ _ _) as [[df_pred []] | e]; [| apply Hone].
  cbv zeta. destruct (gating kw); [| apply Htwo].
  destruct (apply_gating_body _ _ _ _ _ _ _ _ _) as [[g labels] | e]; [| apply Htwo].
  destruct (save_gating_results g labels) as [labels' | e]; [| apply Htwo].
  destruct (str_in "state" labels'); [| apply Htwo].
  destruct (getitem g "state") as [st | e]; [apply Hthree | apply Htwo].
Qed.

Lemma lookup_remove_same name cs :
  NoDup (map fst cs) -> lookup_col name (remove_col name cs) = None.
Proof.
  induction cs as [| [n c] cs IH]; simpl; intros Hnd; [reflexivity |].
  inversion Hnd as [| ? ? Hnotin Hnd']; subst.
  destruct (String.eqb n name) eqn:E.
  - apply String.eqb_eq in E. subst n. clear IH Hnd Hnd'.
    induction cs as [| [n' c'] cs IH]; simpl in *; [reflexivity |].
    destruct (String.eqb n' name) eqn:E'.
    + apply String.eqb_eq in E'. subst. tauto.
    + apply IH. tauto.
  - simpl. rewrite E. now apply IH.
Qed.

Lemma build_predictions_other pc unc its f thr df df_pred u name :
  build_predictions pc unc its f thr df = Ok (df_pred, u) ->
  name <> "Time" -> name <> "predictions" -> name <> "uncertainties" ->
  getitem df_pred name = getitem df name.
Proof.
  unfold build_predictions. cbv zeta. intros H Nt Np Nu.
  apply rbind_ok in H as (g1 & H1 & H).
  apply rbind_ok in H as (g2 & H2 & H).
  apply rbind_ok in H as (g3 & H3 & H). inversion H; subst.
  apply setitem_array_ok in H1 as [-> L1]. apply setitem_array_ok in H2 as [-> L2].
  assert (E0 : getitem (if has_col df "Time" then drop_col df "Time" else df) name
               = getitem df name).
  { destruct (has_col df "Time"); [| reflexivity].
    unfold getitem, drop_col; simpl. now rewrite lookup_remove_other. }
  assert (E3 : getitem df_pred name
               = getitem (setitem (setitem (if has_col df "Time"
                                            then drop_col df "Time" else df)
                                           "predictions"
                                           (ColStr (map (species_of its) pc)))
                                  "uncertainties" (ColNum unc)) name).
  { destruct f.
    - apply rbind_ok in H3 as (uc & _ & H3). apply rbind_ok in H3 as (mask & _ & H3).
      apply loc_assign_str_form in H3 as (x & ->).
      now apply getitem_setitem_other.
    - now inversion H3. }
  rewrite E3, !getitem_setitem_other by assumption. exact E0.
Qed.

Lemma build_predictions_time pc unc its f thr df df_pred u :
  build_predictions pc unc its f thr df = Ok (df_pred, u) ->
  NoDup (map fst (columns df)) ->
  has_col df_pred "Time" = false /\ nrows df_pred = nrows df.
Proof.
  unfold build_predictions. cbv zeta. intros H Hnd.
  apply rbind_ok in H as (g1 & H1 & H).
  apply rbind_ok in H as (g2 & H2 & H).
  apply rbind_ok in H as (g3 & H3 & H). inversion H; subst.
  apply setitem_array_ok in H1 as [-> L1]. apply setitem_array_ok in H2 as [-> L2].
  assert (E0 : getitem (if has_col df "Time" then drop_col df "Time" else df) "Time"
               = Err (KeyError "Time")
               /\ nrows (if has_col df "Time" then drop_col df "Time" else df) = nrows df).
  { unfold has_col, getitem.
    destruct (lookup_col "Time" (columns df)) eqn:E.
    - unfold drop_col; simpl. now rewrite lookup_remove_same.
    - now rewrite E. }
  destruct E0 as [E0 N0].
  assert (E3 : getitem df_pred "Time"
               = getitem (if has_col df "Time" then drop_col df "Time" else df) "Time"
               /\ nrows df_pred = nrows df).
  { destruct f.
    - apply rbind_ok in H3 as (uc & _ & H3). apply rbind_ok in H3 as (mask & _ & H3).
      apply loc_assign_str_form in H3 as (x & ->).
      rewrite !getitem_setitem_other by discriminate. now split.
    - inversion H3; subst. rewrite !getitem_setitem_other by discriminate. now split. }
  destruct E3 as [E3 N3]. split; [| exact N3].
  rewrite E0 in E3. unfold getitem in E3. unfold has_col.
  destruct (lookup_col "Time" (columns df_pred)); [discriminate | reflexivity].
Qed.

(** X11. The table [predict] returns has one row per cell of the input,
    no [Time] column, and every other input column as it was in the input:
    the intensities are the raw ones, never the transformed ones, with or
    without gating. *)
Theorem predict_returns_raw_table kw h run h' df :
  predict kw h = (Ok run, h') ->
  nth_error h (data_df kw) = Some df ->
  NoDup (map fst (columns df)) ->
  exists df_pred,
    nth_error h' (run_data_df_pred run) = Some df_pred /\
    nrows df_pred = nrows df /\
    has_col df_pred "Time" = false /\
    forall name,
      name <> "Time" -> name <> "predictions" -> name <> "uncertainties" ->
      getitem df_pred name = getitem df name.
Proof.
  intros H Hdf Hnd.
  destruct (predict_ok_table kw h run h' H)
    as (thr & df0 & pc & unc & its & df_pred & _ & _ & Hdf0 & _ & Hbp & Hret).
  rewrite Hdf in Hdf0. inversion Hdf0; subst df0.
  exists df_pred. split; [exact Hret |].
  destruct (build_predictions_time _ _ _ _ _ _ _ _ Hbp Hnd) as [Ht Hn].
  split; [exact Hn |]. split; [exact Ht |].
  intros name Nt Np Nu. exact (build_predictions_other _ _ _ _ _ _ _ _ name Hbp Nt Np Nu).
Qed.

(** ** Predicted classes and uncertainties *)

Lemma argmax_from_bound xs : forall best v i,
  (best < i)%nat -> (argmax_from best v i xs < i + List.length xs)%nat.
Proof.
  induction xs as [| x xs IH]; intros best v i Hb; simpl; [lia |].
  destruct (Rgtb x v).
  - specialize (IH i x (S i)). lia.
  - specialize (IH best v (S i)). lia.
Qed.

Lemma np_argmax_bound row i : np_argmax row = Ok i -> (i < List.length row)%nat.
Proof.
  destruct row as [| x xs]; simpl; [discriminate |].
  intros H; inversion H; subst.
  pose proof (argmax_from_bound xs 0%nat x 1%nat). lia.
Qed.

Lemma mapM_np_argmax_bound rows : forall pc,
  mapM np_argmax rows = Ok pc ->
  Forall2 (fun row i => (i < List.length row)%nat) rows pc.
Proof.
  induction rows as [| row rows IH]; intros pc; simpl.
  - intros H; inversion H. constructor.
  - intros H. apply rbind_ok in H as (i & Hi & H).
    apply rbind_ok in H as (rest & Hrest & H). inversion H; subst.
    constructor; [now apply np_argmax_bound | now apply IH].
Qed.

Lemma predict_species_inv df m s le c pc unc its :
  predict_species df m s le c = Ok (pc, unc, its) ->
  mapM np_argmax (m (s (select_numeric (arcsinh_numeric c df)))) = Ok pc /\
  unc = map entropy (m (s (select_numeric (arcsinh_numeric c df)))) /\
  its = le.
Proof.
  unfold predict_species. cbv zeta. intros H.
  apply rbind_ok in H as (pc' & Hpc & H). inversion H; subst. now repeat split.
Qed.

Lemma assign_where_Forall {A} (P : A -> Prop) mask v xs :
  P v -> Forall P xs -> Forall P (assign_where mask v xs).
Proof.
  intros Hv. revert mask. induction xs as [| x xs IH]; intros mask Hxs.
  - destruct mask; constructor.
  - destruct mask as [| m mask]; [exact Hxs |].
    inversion Hxs; subst. simpl. constructor; [now destruct m | now apply IH].
Qed.

(** X12. When the classifier answers with at most one probability per
    known species, every label of the returned table is the name of a known
    species or ["Unknown"]: the index found by [argmax] is always within the
    label encoder. *)
Theorem predicted_labels_known kw h run h' df :
  predict kw h = (Ok run, h') ->
  nth_error h (data_df kw) = Some df ->
  Forall (fun row => (List.length row <= List.length (label_encoder kw))%nat)
         (class_probabilities kw df) ->
  exists df_pred preds,
    nth_error h' (run_data_df_pred run) = Some df_pred /\
    getitem df_pred "predictions" = Ok (ColStr preds) /\
    Forall (fun s => In s (label_encoder kw) \/ s = "Unknown") preds.
Proof.
  intros H Hdf Hrows.
  destruct (predict_ok_table kw h run h' H)
    as (thr & df0 & pc & unc & its & df_pred & _ & _ & Hdf0 & Hps & Hbp & Hret).
  rewrite Hdf in Hdf0. inversion Hdf0; subst df0.
  destruct (build_predictions_columns _ _ _ _ _ _ _ _ Hbp) as (_ & Hp & _).
  apply predict_species_inv in Hps as (Hpc & _ & ->).
  apply mapM_np_argmax_bound in Hpc.
  assert (Hknown : Forall (fun s => In s (label_encoder kw) \/ s = "Unknown")
                          (map (species_of (label_encoder kw)) pc)).
  { fold (class_probabilities kw df) in Hpc.
    apply Forall_map.
    clear -Hpc Hrows. induction Hpc as [| row i rows pc Hi _ IH]; [constructor |].
    inversion Hrows; subst. constructor; [| now apply IH].
    left. unfold species_of.
    destruct (nth_error (label_encoder kw) i) as [s |] eqn:E.
    - eapply nth_error_In; eauto.
    - apply nth_error_None in E. lia. }
  exists df_pred. eexists. split; [exact Hret |]. split; [exact Hp |].
  destruct (filter_out_uncertain kw); [| exact Hknown].
  apply assign_where_Forall; [now right | exact Hknown].
Qed.

Lemma Rsum_scale k xs : Rsum (map (fun p => p / k) xs) = Rsum xs / k.
Proof. induction xs as [| x xs IH]; simpl; [lra | rewrite IH; lra]. Qed.

(** The entropy of a row of non-negative scores with a positive sum lies
    between 0 and the logarithm of its length. *)
Lemma entropy_bounds pk :
  Forall (fun p => 0 <= p) pk -> 0 < Rsum pk ->
  0 <= entropy pk <= ln (INR (List.length pk)).
Proof.
  intros Hpos Hs. unfold entropy.
  set (s := Rsum pk). fold s in Hs.
  set (q := map (fun p => p / s) pk).
  assert (Hq : Rsum (map (fun p => entr (p / s)) pk) = Rsum (map entr q))
    by (unfold q; now rewrite map_map).
  rewrite Hq.
  assert (Hd : distribution q).
  { split.
    - unfold q. apply Forall_map. eapply Forall_impl; [| exact Hpos].
      simpl. intros a Ha. apply Rmult_le_pos; [exact Ha |].
      apply Rlt_le, Rinv_0_lt_compat, Hs.
    - unfold q. rewrite Rsum_scale. fold s. field. lra. }
  assert (Hlen : List.length q = List.length pk) by (unfold q; apply length_map).
  rewrite <- Hlen.
  pose proof (distribution_le_1 q Hd) as H01.
  pose proof (distribution_nonempty q Hd) as Hne.
  destruct Hd as [Hqpos Hqsum].
  set (k := INR (List.length q)).
  assert (Hk : 0 < k) by (apply lt_0_INR; exact Hne).
  assert (Hg : Rsum (map (gibbs_bound k) q) = ln k).
  { rewrite Rsum_gibbs, Hqsum. fold k. rewrite Rinv_r by lra. lra. }
  split.
  - rewrite <- (Rsum_map_zero q).
    apply (Rsum_le_pointwise (fun _ => 0) entr (fun p => 0 <= p <= 1)); [| exact H01].
    intros p Hp. now apply entr_nonneg.
  - rewrite <- Hg.
    apply (Rsum_le_pointwise entr (gibbs_bound k) (fun p => 0 <= p)); [| exact Hqpos].
    intros p Hp. now apply entr_le_gibbs.
Qed.

(** X13. When the classifier returns one non-negative score per known
    species for every cell (not all zero; the scores need not sum to 1), the
    uncertainties [predict_species] returns, one per cell, all lie between 0
    and ln K. *)
Theorem uncertainties_within_max_entropy df m s le c pc unc its :
  predict_species df m s le c = Ok (pc, unc, its) ->
  Forall (valid_scores (List.length le))
         (m (s (select_numeric (arcsinh_numeric c df)))) ->
  List.length unc = List.length (m (s (select_numeric (arcsinh_numeric c df)))) /\
  List.length pc = List.length unc /\
  Forall (fun u => 0 <= u <= ln (INR (List.length le))) unc.
Proof.
  intros H Hrows. apply predict_species_inv in H as (Hpc & -> & ->).
  split; [apply length_map |]. split.
  - rewrite length_map. apply mapM_np_argmax_bound in Hpc.
    symmetry. eapply Forall2_length; eauto.
  - apply Forall_map. eapply Forall_impl; [| exact Hrows].
    simpl. intros row (Hlen & Hpos & Hsum). rewrite <- Hlen.
    now apply entropy_bounds.
Qed.

(** ** More on the simple heterogeneity *)

Lemma np_ptp_range col r : np_ptp col = Some r -> is_range col r.
Proof.
  intros H. assert (Hne : col <> []) by (intros ->; discriminate).
  destruct (np_ptp_is_range col Hne) as (r' & Hr' & Hrange). congruence.
Qed.

Lemma is_range_nonneg col r : is_range col r -> 0 <= r.
Proof.
  intros (lo & hi & Hlo & Hhi & Hb & ->). destruct (Hb lo Hlo). destruct (Hb hi Hhi). lra.
Qed.

Lemma is_range_zero col r :
  is_range col r -> (r = 0 <-> forall x y, In x col -> In y col -> x = y).
Proof.
  intros (lo & hi & Hlo & Hhi & Hb & ->). split.
  - intros H0 x y Hx Hy. destruct (Hb x Hx). destruct (Hb y Hy). lra.
  - intros Hc. rewrite (Hc lo hi Hlo Hhi). lra.
Qed.

Lemma all_some_Forall2 {A B} (f : A -> option B) xs : forall ys,
  all_some (map f xs) = Some ys -> Forall2 (fun x y => f x = Some y) xs ys.
Proof.
  induction xs as [| x xs IH]; intros ys; simpl.
  - intros H; inversion H. constructor.
  - destruct (f x) as [y |] eqn:E; [| discriminate].
    destruct (all_some (map f xs)) as [ys' |]; [| discriminate].
    intros H; inversion H; subst. constructor; [exact E | now apply IH].
Qed.

Lemma hetero_simple_inv data h :
  hetero_simple data = Some h ->
  exists ranges,
    Forall2 (fun col r => np_ptp col = Some r) data ranges /\
    ranges <> [] /\ h = Rsum ranges / INR (List.length ranges).
Proof.
  unfold hetero_simple. destruct (all_some (map np_ptp data)) as [ranges |] eqn:E;
    [| discriminate].
  apply all_some_Forall2 in E. intros H. exists ranges. split; [exact E |].
  destruct ranges; simpl in H; [discriminate |]. inversion H. split; [discriminate | reflexivity].
Qed.

Lemma Rsum_zero_iff xs :
  Forall (fun r => 0 <= r) xs -> (Rsum xs = 0 <-> Forall (fun r => r = 0) xs).
Proof.
  intros Hpos. split; [now apply Rsum_zero_all_zero |].
  induction 1 as [| x xs Hx _ IH]; simpl; [reflexivity |].
  inversion Hpos; subst. rewrite IH by assumption. lra.
Qed.

(** X15. The simple heterogeneity is never negative, and it is 0 exactly
    when every feature column is constant. *)
Theorem hetero_simple_zero data h :
  hetero_simple data = Some h ->
  0 <= h /\
  (h = 0 <-> Forall (fun col => forall x y, In x col -> In y col -> x = y) data).
Proof.
  intros H. apply hetero_simple_inv in H as (ranges & Hr & Hne & ->).
  assert (Hpos : Forall (fun r => 0 <= r) ranges).
  { clear Hne. induction Hr as [| col r data ranges Hc _ IH]; constructor; [| exact IH].
    exact (is_range_nonneg col r (np_ptp_range col r Hc)). }
  assert (Hn : 0 < INR (List.length ranges)).
  { apply lt_0_INR. destruct ranges; [congruence | simpl; lia]. }
  pose proof (Rsum_nonneg ranges Hpos) as Hs.
  split.
  - apply Rmult_le_pos; [exact Hs | apply Rlt_le, Rinv_0_lt_compat, Hn].
  - assert (Hdiv : Rsum ranges / INR (List.length ranges) = 0 <-> Rsum ranges = 0).
    { split; intros E.
      - apply Rmult_eq_reg_r with (/ INR (List.length ranges));
          [| apply Rgt_not_eq, Rinv_0_lt_compat, Hn].
        unfold Rdiv in E. rewrite E. lra.
      - rewrite E. unfold Rdiv. lra. }
    rewrite Hdiv, (Rsum_zero_iff ranges Hpos).
    clear Hne Hn Hs Hdiv Hpos.
    induction Hr as [| col r data ranges Hc _ IH].
    + split; constructor.
    + pose proof (is_range_zero col r (np_ptp_range col r Hc)) as Hz.
      split; intros Hall; inversion Hall; subst; constructor; tauto.
Qed.

Lemma select_rows_In {A} mask (xs : list A) x : In x (select_rows mask xs) -> In x xs.
Proof.
  revert xs; induction mask as [| m mask IH]; intros [| y xs]; simpl; try tauto.
  destruct m; simpl; intros H.
  - destruct H as [-> | H]; [now left | right; now apply IH].
  - right; now apply IH.
Qed.

Lemma is_range_subset col col' r r' :
  (forall x, In x col' -> In x col) -> is_range col r -> is_range col' r' -> r' <= r.
Proof.
  intros Hsub (lo & hi & Hlo & Hhi & Hb & ->) (lo' & hi' & Hlo' & Hhi' & Hb' & ->).
  destruct (Hb lo' (Hsub lo' Hlo')). destruct (Hb hi' (Hsub hi' Hhi')). lra.
Qed.

(** X16. Restricting a feature table to some of its rows, as
    [run_heterogeneity] does for each species, never increases the simple
    heterogeneity: the value of a species is at most the value of the whole
    sample. *)
Theorem hetero_simple_subset mask data h h' :
  hetero_simple data = Some h ->
  hetero_simple (map (select_rows mask) data) = Some h' ->
  h' <= h.
Proof.
  intros H H'.
  apply hetero_simple_inv in H as (ranges & Hr & Hne & ->).
  apply hetero_simple_inv in H' as (ranges' & Hr' & Hne' & ->).
  assert (Hlen : List.length ranges' = List.length ranges).
  { apply Forall2_length in Hr. apply Forall2_length in Hr'.
    rewrite length_map in Hr'. congruence. }
  assert (Hle : Rsum ranges' <= Rsum ranges).
  { clear Hne Hne' Hlen. revert ranges' Hr'.
    induction Hr as [| col r data ranges Hc _ IH]; intros ranges' Hr'.
    - inversion Hr'; subst. lra.
    - inversion Hr' as [| col' r' data' rs' Hc' Hrest]; subst. simpl.
      specialize (IH rs' Hrest).
      pose proof (is_range_subset col (select_rows mask col) r r'
                    (select_rows_In mask col) (np_ptp_range _ _ Hc) (np_ptp_range _ _ Hc')).
      lra. }
  rewrite Hlen.
  assert (Hn : 0 < / INR (List.length ranges)).
  { apply Rinv_0_lt_compat, lt_0_INR. destruct ranges; [congruence | simpl; lia]. }
  unfold Rdiv. apply Rmult_le_compat_r; [lra | exact Hle].
Qed.

(** ** The features of the heterogeneity computation *)

Lemma lookup_col_In name c cs : lookup_col name cs = Some c -> In name (map fst cs).
Proof.
  induction cs as [| [n c'] cs IH]; simpl; [discriminate |].
  destruct (String.eqb n name) eqn:E; [apply String.eqb_eq in E; now left | right; auto].
Qed.

Lemma lookup_col_not_In name cs : ~ In name (map fst cs) -> lookup_col name cs = None.
Proof.
  intros Hn. destruct (lookup_col name cs) eqn:E; [| reflexivity].
  exfalso. eapply Hn, lookup_col_In; eauto.
Qed.

Lemma filter_names_incl (p : string * column -> bool) cs name :
  In name (map fst (filter p cs)) -> In name (map fst cs).
Proof.
  rewrite !in_map_iff. intros ((n, c) & E & Hin). apply filter_In in Hin as [Hin _].
  now exists (n, c).
Qed.

Lemma NoDup_filter_names (p : string * column -> bool) cs :
  NoDup (map fst cs) -> NoDup (map fst (filter p cs)).
Proof.
  induction cs as [| [n c] cs IH]; simpl; intros Hnd; [constructor |].
  inversion Hnd; subst. destruct (p (n, c)); simpl; [| auto].
  constructor; [| auto]. intros Hin. apply filter_names_incl in Hin. tauto.
Qed.

Lemma lookup_filter_keep (p : string * column -> bool) name c cs :
  NoDup (map fst cs) ->
  lookup_col name cs = Some c ->
  lookup_col name (filter p cs) = if p (name, c) then Some c else None.
Proof.
  induction cs as [| [n c'] cs IH]; simpl; intros Hnd Hl; [discriminate |].
  inversion Hnd; subst.
  destruct (String.eqb n name) eqn:E.
  - apply String.eqb_eq in E. subst n. inversion Hl; subst c'.
    destruct (p (name, c)); simpl.
    + now rewrite String.eqb_refl.
    + apply lookup_col_not_In. intros Hin. apply filter_names_incl in Hin. tauto.
  - destruct (p (n, c')); simpl; [rewrite E |]; now apply IH.
Qed.

Lemma remove_col_filter (p : string * column -> bool) name cs :
  NoDup (map fst cs) ->
  remove_col name (filter p cs)
  = filter (fun nc => p nc && negb (String.eqb (fst nc) name)) cs.
Proof.
  induction cs as [| [n c] cs IH]; simpl; intros Hnd; [reflexivity |].
  inversion Hnd as [| ? ? Hnotin Hnd']; subst.
  destruct (String.eqb n name) eqn:E.
  - apply String.eqb_eq in E. subst n.
    assert (Hsame : filter (fun nc => p nc && negb (String.eqb (fst nc) name)) cs
                    = filter p cs).
    { apply filter_ext_in. intros [n' c'] Hin. simpl.
      destruct (String.eqb n' name) eqn:E'; [| now rewrite andb_true_r].
      apply String.eqb_eq in E'. subst. exfalso. apply Hnotin.
      apply in_map_iff. now exists (name, c'). }
    destruct (p (name, c)); simpl.
    + now rewrite String.eqb_refl, Hsame.
    + rewrite Hsame. specialize (IH Hnd'). rewrite Hsame in IH. exact IH.
  - destruct (p (n, c)); simpl; [rewrite E |]; now rewrite IH.
Qed.

Lemma replace_col_fresh name c cs :
  lookup_col name cs = None -> replace_col name c cs = cs ++ [(name, c)].
Proof.
  induction cs as [| [n c'] cs IH]; simpl; [reflexivity |].
  destruct (String.eqb n name); [discriminate |]. intros H. now rewrite IH.
Qed.

Lemma hetero_features_ok df ps us :
  NoDup (map fst (columns df)) ->
  getitem df "predictions" = Ok (ColStr ps) ->
  getitem df "uncertainties" = Ok (ColNum us) ->
  hetero_features df = Ok (feature_columns (columns df)).
Proof.
  intros Hnd Hp Hu. unfold hetero_features, has_col, select_numeric. cbv zeta. simpl columns.
  change (fun nc : string * column => match snd nc with ColNum _ => true | _ => false end)
    with (fun nc : string * column => is_float (snd nc)).
  assert (Hu' : lookup_col "uncertainties" (columns df) = Some (ColNum us)).
  { unfold getitem in Hu. destruct (lookup_col "uncertainties" (columns df));
      now inversion Hu. }
  assert (Hp' : lookup_col "predictions" (columns df) = Some (ColStr ps)).
  { unfold getitem in Hp. destruct (lookup_col "predictions" (columns df));
      now inversion Hp. }
  rewrite (lookup_filter_keep _ _ _ _ Hnd Hu'). simpl.
  rewrite Hp. cbn [rbind]. unfold setitem, drop_col. simpl columns.
  rewrite (remove_col_filter _ "uncertainties" _ Hnd).
  fold (feature_columns (columns df)).
  rewrite replace_col_fresh.
  - now rewrite removelast_last.
  - unfold feature_columns. now rewrite (lookup_filter_keep _ _ _ _ Hnd Hp').
Qed.

Lemma lookup_col_In_pair name c cs : In (name, c) cs -> lookup_col name cs <> None.
Proof.
  induction cs as [| [n' c'] cs IH]; simpl; [tauto |].
  destruct (String.eqb n' name) eqn:E; [discriminate |].
  intros [Heq | Hin]; [| auto]. inversion Heq; subst. now rewrite String.eqb_refl in E.
Qed.

(** X17. On a table with distinct column names, a float [uncertainties]
    column and a [predictions] column of labels, the features both
    heterogeneity measures are computed on are exactly the float columns
    other than [uncertainties], in table order: the boolean gate columns,
    [state] and [predictions] never enter.  Without an [uncertainties] float
    column the computation fails with [KeyError]. *)
Theorem hetero_features_columns df :
  NoDup (map fst (columns df)) ->
  (forall ps us,
      getitem df "predictions" = Ok (ColStr ps) ->
      getitem df "uncertainties" = Ok (ColNum us) ->
      hetero_features df = Ok (feature_columns (columns df))) /\
  ((forall us, getitem df "uncertainties" <> Ok (ColNum us)) ->
   hetero_features df = Err (KeyError "uncertainties")).
Proof.
  intros Hnd. split; [intros ps us; now apply hetero_features_ok |].
  intros Hno. unfold hetero_features, has_col, select_numeric. cbv zeta. simpl columns.
  change (fun nc : string * column => match snd nc with ColNum _ => true | _ => false end)
    with (fun nc : string * column => is_float (snd nc)).
  destruct (lookup_col "uncertainties" (columns df)) as [c |] eqn:Hu.
  - rewrite (lookup_filter_keep _ _ _ _ Hnd Hu). simpl.
    destruct c as [us | bs | ss]; simpl; try reflexivity.
    exfalso. apply (Hno us). unfold getitem. now rewrite Hu.
  - rewrite lookup_col_not_In; [reflexivity |].
    intros Hin. apply filter_names_incl in Hin.
    apply in_map_iff in Hin as ((n, c) & E & Hin'). simpl in E. subst n.
    now apply lookup_col_In_pair in Hin'.
Qed.

(** *** Gating and the features *)

Lemma names_replace_col name c cs :
  map fst (replace_col name c cs)
  = match lookup_col name cs with
    | Some _ => map fst cs
    | None => map fst cs ++ [name]
    end.
Proof.
  induction cs as [| [n c'] cs IH]; simpl; [reflexivity |].
  destruct (String.eqb n name) eqn:E; simpl; [reflexivity |].
  rewrite IH. now destruct (lookup_col name cs).
Qed.

Lemma NoDup_replace_col name c cs :
  NoDup (map fst cs) -> NoDup (map fst (replace_col name c cs)).
Proof.
  intros Hnd. rewrite names_replace_col.
  destruct (lookup_col name cs) eqn:E; [exact Hnd |].
  apply NoDup_app; [exact Hnd | repeat constructor; simpl; tauto |].
  - intros x Hin [<- | []]. apply in_map_iff in Hin as ((n, c0) & E0 & Hin).
    simpl in E0. subst n. now apply lookup_col_In_pair in Hin.
Qed.

Lemma names_remove_col_incl name cs x :
  In x (map fst (remove_col name cs)) -> In x (map fst cs).
Proof.
  induction cs as [| [n c] cs IH]; simpl; [tauto |].
  destruct (String.eqb n name); simpl; tauto.
Qed.

Lemma NoDup_remove_col name cs :
  NoDup (map fst cs) -> NoDup (map fst (remove_col name cs)).
Proof.
  induction cs as [| [n c] cs IH]; simpl; intros Hnd; [constructor |].
  inversion Hnd; subst. destruct (String.eqb n name); [assumption |].
  simpl. constructor; [| auto]. intros Hin. apply names_remove_col_incl in Hin. tauto.
Qed.

Lemma names_transformed c cs : map fst (map (transformed_column c) cs) = map fst cs.
Proof.
  rewrite map_map. apply map_ext. intros [n col]. unfold transformed_column.
  now destruct col.
Qed.

Lemma feature_columns_transformed c cs :
  feature_columns (map (transformed_column c) cs)
  = map (transformed_column c) (feature_columns cs).
Proof.
  unfold feature_columns. induction cs as [| [n col] cs IH]; simpl; [reflexivity |].
  unfold transformed_column at 1. simpl.
  destruct col; simpl; try exact IH.
  destruct (negb (String.eqb n "uncertainties")); simpl; [| exact IH].
  now rewrite IH.
Qed.

Lemma feature_columns_replace name c cs :
  is_float c = false ->
  (forall xs, lookup_col name cs <> Some (ColNum xs)) ->
  feature_columns (replace_col name c cs) = feature_columns cs.
Proof.
  intros Hc. unfold feature_columns.
  induction cs as [| [n c'] cs IH]; simpl; intros Hl.
  - now rewrite Hc.
  - destruct (String.eqb n name) eqn:E; simpl.
    + rewrite Hc. simpl.
      destruct c' as [xs | bs | ss]; simpl; try reflexivity.
      exfalso. now apply (Hl xs).
    + rewrite IH by exact Hl. reflexivity.
Qed.

Lemma feature_columns_remove name c cs :
  lookup_col name cs = Some c -> is_float c = false ->
  feature_columns (remove_col name cs) = feature_columns cs.
Proof.
  intros Hl Hc. unfold feature_columns.
  induction cs as [| [n c'] cs IH]; simpl in *; [discriminate |].
  destruct (String.eqb n name) eqn:E.
  - inversion Hl; subst c'. now rewrite Hc.
  - simpl. now rewrite IH.
Qed.

Lemma features_kept_setitem labels feat g l c :
  features_kept labels feat g -> In l labels -> is_float c = false ->
  features_kept labels feat (setitem g l c).
Proof.
  intros (Hnd & Hf & Hl) Hin Hc. unfold features_kept, setitem. cbn [columns].
  repeat split.
  - now apply NoDup_replace_col.
  - rewrite feature_columns_replace; [exact Hf | exact Hc |].
    intros xs. now apply Hl.
  - intros l' xs Hin'. destruct (String.eqb l' l) eqn:E.
    + apply String.eqb_eq in E. subst l'. rewrite lookup_replace_same.
      intros H; inversion H; subst. discriminate.
    + apply String.eqb_neq in E. rewrite lookup_replace_other by exact E. now apply Hl.
Qed.

Lemma loc_assign_bool_form df mask name v g :
  loc_assign_bool df mask name v = Ok g -> exists bs, g = setitem df name (ColBool bs).
Proof.
  unfold loc_assign_bool. intros H. apply rbind_ok in H as (c & _ & H).
  destruct c; try discriminate. inversion H; subst. eexists; reflexivity.
Qed.

Lemma primary_gate_writes_bool label stain rel thr df labels g labels' :
  primary_gate label stain rel thr df labels = Ok (g, labels') ->
  (stain = None /\ g = df) \/
  (stain <> None /\ exists bs, g = setitem df label (ColBool bs)).
Proof.
  unfold primary_gate. destruct stain as [s |]; [| intros H; inversion H; now left].
  cbv zeta. intros H. right. split; [discriminate |].
  apply rbind_ok in H as (g1 & Hg1 & H).
  apply rbind_ok in H as (u & _ & H). inversion H; subst g1 labels'.
  unfold setitem_bool in Hg1.
  destruct (str_in rel [">"; "greater_than"]);
    [| destruct (str_in rel ["<"; "less_than"])].
  3: inversion Hg1; subst; eexists; reflexivity.
  all: apply rbind_ok in Hg1 as (col & _ & Hg1);
    apply rbind_ok in Hg1 as (mask & _ & Hg1);
    apply loc_assign_bool_form in Hg1 as (bs & ->);
    exists bs; apply setitem_twice.
Qed.

Lemma loc_assign_str_writes_str df mask name v g :
  loc_assign_str df mask name v = Ok g -> exists ss, g = setitem df name (ColStr ss).
Proof.
  unfold loc_assign_str. intros H. apply rbind_ok in H as (c & _ & H).
  destruct c; try discriminate. inversion H; subst. eexists; reflexivity.
Qed.

Lemma derive_state_writes_str df g :
  derive_state df = Ok g -> exists ss, g = setitem df "state" (ColStr ss).
Proof.
  unfold derive_state, setitem_str. cbv zeta. intros H.
  apply rbind_ok in H as (d1 & _ & H). apply rbind_ok in H as (c1 & _ & H).
  apply rbind_ok in H as (g1 & Hg1 & H).
  apply rbind_ok in H as (d2 & _ & H). apply rbind_ok in H as (c2 & _ & H).
  apply loc_assign_str_writes_str in Hg1 as (x1 & ->).
  apply loc_assign_str_writes_str in H as (x2 & ->).
  exists x2. now rewrite !setitem_twice.
Qed.

Lemma features_kept_extra_stains all feat ex : forall df labels g labels',
  gate_extra_stains ex df labels = Ok (g, labels') ->
  (forall l, In l (map (fun e : extra_stain => snd (snd e)) ex) -> In l all) ->
  features_kept all feat df -> features_kept all feat g.
Proof.
  induction ex as [| [ch [[sg t] label]] ex IH]; intros df labels g labels'; simpl.
  - intros H _ Hk; now inversion H; subst.
  - intros H Hall Hk.
    apply rbind_ok in H as (col & _ & H).
    apply rbind_ok in H as (cond & _ & H).
    apply rbind_ok in H as (u & _ & H).
    apply (IH _ _ _ _ H); [intros l Hl; apply Hall; now right |].
    apply features_kept_setitem; [exact Hk | apply Hall; now left | reflexivity].
Qed.

Lemma features_kept_transform c df labels ps :
  NoDup (map fst (columns df)) ->
  getitem df "predictions" = Ok (ColStr ps) ->
  (forall l, In l labels -> has_col df l = false) ->
  features_kept labels (map (transformed_column c) (feature_columns (columns df)))
                (gating_transform c df).
Proof.
  intros Hnd Hp Hfresh.
  assert (Hp' : lookup_col "predictions" (columns df) = Some (ColStr ps)).
  { unfold getitem in Hp. destruct (lookup_col "predictions" (columns df));
      now inversion Hp. }
  assert (Hcols : columns (gating_transform c df)
                  = replace_col "predictions" (ColStr ps)
                      (map (transformed_column c)
                           (remove_col "predictions" (columns df)))).
  { unfold gating_transform, has_col. cbv zeta. rewrite Hp'. reflexivity. }
  assert (Hnone : lookup_col "predictions"
                    (map (transformed_column c) (remove_col "predictions" (columns df)))
                  = None).
  { apply lookup_col_not_In. rewrite names_transformed. intros Hin.
    apply in_map_iff in Hin as ((n, c0) & E & Hin). simpl in E. subst n.
    apply lookup_col_In_pair in Hin. now rewrite lookup_remove_same in Hin. }
  repeat split.
  - rewrite Hcols. apply NoDup_replace_col. rewrite names_transformed.
    now apply NoDup_remove_col.
  - rewrite Hcols, feature_columns_replace; [| reflexivity | now rewrite Hnone].
    rewrite feature_columns_transformed.
    now rewrite (feature_columns_remove "predictions" (ColStr ps)).
  - intros l xs Hin Hl. specialize (Hfresh l Hin).
    assert (Hg : getitem (gating_transform c df) l = Err (KeyError l)).
    { rewrite getitem_gating_transform. unfold has_col in Hfresh. unfold getitem.
      destruct (lookup_col l (columns df)); [discriminate |].
      now destruct (String.eqb l "predictions"). }
    unfold getitem in Hg. rewrite Hl in Hg. discriminate.
Qed.

(** The features after a gating call whose labels are new column names. *)
Lemma features_kept_gating s1 r1 t1 s2 r2 t2 c ex df g labels ps :
  apply_gating_body s1 r1 t1 s2 r2 t2 c ex df = Ok (g, labels) ->
  NoDup (map fst (columns df)) ->
  getitem df "predictions" = Ok (ColStr ps) ->
  (forall l, In l labels -> has_col df l = false) ->
  features_kept labels (map (transformed_column c) (feature_columns (columns df))) g.
Proof.
  intros H Hnd Hp Hfresh.
  pose proof (apply_gating_body_labels _ _ _ _ _ _ _ _ _ _ _ H) as Hl.
  pose proof (features_kept_transform c df labels ps Hnd Hp Hfresh) as K0.
  apply apply_gating_body_steps in H
    as (g1 & l1 & g2 & l2 & g3 & l3 & H1 & H2 & H3 & H4).
  assert (K1 : features_kept labels
                 (map (transformed_column c) (feature_columns (columns df))) g1).
  { apply primary_gate_writes_bool in H1 as [[_ ->] | (Hs & bs & ->)]; [exact K0 |].
    apply features_kept_setitem; [exact K0 | | reflexivity].
    rewrite Hl. destruct s1; [simpl; auto | congruence]. }
  assert (K2 : features_kept labels
                 (map (transformed_column c) (feature_columns (columns df))) g2).
  { apply primary_gate_writes_bool in H2 as [[_ ->] | (Hs & bs & ->)]; [exact K1 |].
    apply features_kept_setitem; [exact K1 | | reflexivity].
    rewrite Hl. apply in_or_app; right. destruct s2; [simpl; auto | congruence]. }
  assert (K3 : features_kept labels
                 (map (transformed_column c) (feature_columns (columns df))) g3).
  { destruct (state_condition s1 s2 t2) eqn:Hc.
    - destruct H3 as [H3 _]. apply derive_state_writes_str in H3 as (ss & ->).
      apply features_kept_setitem; [exact K2 | | reflexivity].
      rewrite Hl. do 2 (apply in_or_app; right). simpl; auto.
    - destruct H3 as [-> _]. exact K2. }
  destruct ex as [l |].
  - apply (features_kept_extra_stains labels _ l g3 l3 g labels H4); [| exact K3].
    intros x Hx. rewrite Hl. do 3 (apply in_or_app; right). exact Hx.
  - destruct H4 as [-> _]. exact K3.
Qed.

(** X18. Gating changes the scale of the heterogeneity: when the gate
    labels are new column names, the features computed on the gated table are
    the features of the table that went in, each under
    [arcsinh(x / cofactor)].  So heterogeneity is measured on transformed
    intensities when gating ran and on raw intensities when it did not. *)
Theorem gating_transforms_features s1 r1 t1 s2 r2 t2 c ex df g labels ps us :
  apply_gating_body s1 r1 t1 s2 r2 t2 c ex df = Ok (g, labels) ->
  NoDup (map fst (columns df)) ->
  getitem df "predictions" = Ok (ColStr ps) ->
  getitem df "uncertainties" = Ok (ColNum us) ->
  (forall l, In l labels -> has_col df l = false) ->
  hetero_features df = Ok (feature_columns (columns df)) /\
  hetero_features g
  = Ok (map (transformed_column c) (feature_columns (columns df))).
Proof.
  intros H Hnd Hp Hu Hfresh.
  split; [now apply (hetero_features_ok df ps us) |].
  destruct (features_kept_gating _ _ _ _ _ _ _ _ _ _ _ ps H Hnd Hp Hfresh)
    as (Hndg & Hfeat & _).
  assert (Hnotin : forall name, has_col df name = true -> ~ In name labels).
  { intros name Hhas Hin. rewrite (Hfresh name Hin) in Hhas. discriminate. }
  assert (Hpg : getitem g "predictions" = Ok (ColStr ps)).
  { rewrite (apply_gating_body_other _ _ _ _ _ _ _ _ _ _ _ "predictions" H).
    - exact Hp.
    - apply Hnotin. unfold has_col. unfold getitem in Hp.
      now destruct (lookup_col "predictions" (columns df)). }
  assert (Hug : getitem g "uncertainties"
                = Ok (ColNum (map (arcsinh_scaled c) us))).
  { rewrite (apply_gating_body_other _ _ _ _ _ _ _ _ _ _ _ "uncertainties" H).
    - simpl. now rewrite Hu.
    - apply Hnotin. unfold has_col. unfold getitem in Hu.
      now destruct (lookup_col "uncertainties" (columns df)). }
  rewrite (hetero_features_ok g ps _ Hndg Hpg Hug). now rewrite Hfeat.
Qed.

(** ** The uncertainty counts *)

Lemma insert_key_In k k' ks : In k' (insert_key k ks) <-> k' = k \/ In k' ks.
Proof.
  induction ks as [| x ks IH]; simpl; [intuition |].
  destruct (String.eqb k x) eqn:E.
  - apply String.eqb_eq in E. subst x. simpl. intuition.
  - destruct (String.ltb k x); simpl; [intuition |].
    rewrite IH. intuition.
Qed.

Lemma group_keys_In k labels : In k (group_keys labels) <-> In k labels.
Proof.
  induction labels as [| x labels IH]; simpl; [reflexivity |].
  rewrite insert_key_In, IH. intuition.
Qed.

Lemma ltb_lt a b : String.ltb a b = true <-> OrderedTypeEx.String_as_OT.lt a b.
Proof.
  rewrite <- OrderedTypeEx.String_as_OT.cmp_lt. unfold OrderedTypeEx.String_as_OT.cmp, String.ltb.
  destruct (String.compare a b); split; congruence.
Qed.

Lemma ltb_total a b : String.eqb a b = false -> String.ltb a b = false -> String.ltb b a = true.
Proof.
  intros Hne Hlt. unfold String.ltb in *.
  rewrite String.compare_antisym.
  destruct (String.compare a b) eqn:E; simpl; try reflexivity; try discriminate.
  apply String.compare_eq_iff in E. subst. now rewrite String.eqb_refl in Hne.
Qed.

Lemma insert_key_sorted k ks :
  StronglySorted (fun a b => String.ltb a b = true) ks ->
  StronglySorted (fun a b => String.ltb a b = true) (insert_key k ks).
Proof.
  induction 1 as [| x ks Hs IH Hx]; simpl; [repeat constructor |].
  destruct (String.eqb k x) eqn:E; [now constructor |].
  destruct (String.ltb k x) eqn:El.
  - constructor; [now constructor |]. constructor; [exact El |].
    eapply Forall_impl; [| exact Hx]. intros y Hy.
    apply ltb_lt. eapply OrderedTypeEx.String_as_OT.lt_trans; apply ltb_lt; eassumption.
  - constructor; [exact IH |]. apply Forall_forall. intros y Hy.
    apply insert_key_In in Hy as [-> | Hy].
    + now apply ltb_total.
    + rewrite Forall_forall in Hx. now apply Hx.
Qed.

Lemma group_keys_sorted labels :
  StronglySorted (fun a b => String.ltb a b = true) (group_keys labels).
Proof.
  induction labels as [| x labels IH]; simpl; [constructor |].
  now apply insert_key_sorted.
Qed.

Lemma NoDup_group_keys labels : NoDup (group_keys labels).
Proof.
  pose proof (group_keys_sorted labels) as Hs.
  induction Hs as [| x ks _ IH Hx]; constructor; [| exact IH].
  intros Hin. rewrite Forall_forall in Hx. specialize (Hx x Hin).
  apply ltb_lt in Hx. apply OrderedTypeEx.String_as_OT.lt_not_eq in Hx.
  apply Hx. reflexivity.
Qed.

Lemma Rleb_negb x y : Rleb x y = negb (Rgtb x y).
Proof.
  unfold Rleb, Rgtb. destruct (Rle_dec x y), (Rlt_dec y x); try reflexivity; lra.
Qed.

Lemma count_split key (p : R -> bool) rows :
  (count_in_group key p rows + count_in_group key (fun x => negb (p x)) rows
   = List.length (filter (fun r : string * R => String.eqb (fst r) key) rows))%nat.
Proof.
  unfold count_in_group. induction rows as [| [l u] rows IH]; simpl; [reflexivity |].
  destruct (String.eqb l key); simpl; [| exact IH].
  destruct (p u); simpl; lia.
Qed.

Lemma filtered_rows_unknown (thr : R) unc : forall labels,
  Forall (fun r : string * R => Rgtb (snd r) thr = true -> fst r = "Unknown")
         (combine (assign_where (map (fun x => Rgtb x thr) unc) "Unknown" labels) unc).
Proof.
  induction unc as [| u unc IH]; intros [| l labels]; simpl; try constructor.
  - simpl. intros Hu. now rewrite Hu.
  - apply IH.
Qed.

(** X19. The uncertainty counts are taken after the filter has rewritten
    the labels.  So in the table written when filtering is on, every label
    of the returned table has exactly one entry, the two counts of a label
    add up to its number of rows, and [greater_than] is 0 for every label
    other than ["Unknown"]: all rows above the threshold have been moved to
    ["Unknown"] before they are counted. *)
Theorem uncertainty_counts_after_filter kw h run h' :
  predict kw h = (Ok run, h') ->
  filter_out_uncertain kw = true ->
  exists df_pred preds unc,
    nth_error h' (run_data_df_pred run) = Some df_pred /\
    getitem df_pred "predictions" = Ok (ColStr preds) /\
    getitem df_pred "uncertainties" = Ok (ColNum unc) /\
    let counts := uncertainty_counts preds unc (run_uncertainty_threshold run) in
    NoDup (map fst counts) /\
    (forall key, In key preds -> exists gt le, In (key, (gt, le)) counts) /\
    forall key gt le,
      In (key, (gt, le)) counts ->
      In key preds /\
      (gt + le = List.length (filter (fun r : string * R => String.eqb (fst r) key)
                                     (combine preds unc)))%nat /\
      (key <> "Unknown" -> gt = 0%nat).
Proof.
  intros H Hf.
  destruct (predict_ok_table kw h run h' H)
    as (thr & df & pc & unc & its & df_pred & _ & Hrun & _ & _ & Hbp & Hret).
  destruct (build_predictions_columns _ _ _ _ _ _ _ _ Hbp) as (Hu & Hp & _).
  rewrite Hf in Hp. rewrite Hrun.
  eexists df_pred, _, unc. split; [exact Hret |]. split; [exact Hp |]. split; [exact Hu |].
  cbv zeta. split; [| split].
  { unfold uncertainty_counts. cbv zeta. rewrite map_map. cbn [fst].
    rewrite map_id. apply NoDup_group_keys. }
  { intros key Hkey. unfold uncertainty_counts. cbv zeta. eexists _, _.
    apply in_map_iff. exists key. split; [reflexivity | now apply group_keys_In]. }
  intros key gt le Hin. unfold uncertainty_counts in Hin. cbv zeta in Hin.
  apply in_map_iff in Hin as (k & E & Hk). inversion E; subst k gt le. clear E.
  split; [now apply group_keys_In |]. split.
  - rewrite <- (count_split key (fun x => Rgtb x thr)).
    f_equal. unfold count_in_group. f_equal. apply filter_ext.
    intros [l u]. simpl. now rewrite Rleb_negb.
  - intros Hne. unfold count_in_group.
    pose proof (filtered_rows_unknown thr unc (map (species_of its) pc)) as Hall.
    induction Hall as [| [l u] rows Hr _ IH]; simpl; [reflexivity |].
    simpl in Hr. destruct (String.eqb l key) eqn:E; simpl; [| exact IH].
    destruct (Rgtb u thr) eqn:Eg; simpl; [| exact IH].
    apply String.eqb_eq in E. rewrite (Hr eq_refl) in E. congruence.
Qed.

(** ** The gate counts *)

Lemma select_rows_species_nonempty species preds : forall gate : list bool,
  In species preds -> List.length gate = List.length preds ->
  select_rows (map (fun p => String.eqb p species) preds) gate <> [].
Proof.
  induction preds as [| p preds IH]; intros [| b gate] Hin Hlen; simpl in *;
    try tauto; try discriminate.
  destruct (String.eqb p species) eqn:E; [discriminate |].
  apply String.eqb_neq in E. destruct Hin as [-> | Hin]; [congruence |].
  apply IH; [exact Hin | lia].
Qed.

Lemma filter_bool_split (bs : list bool) :
  (List.length (filter (fun b : bool => b) bs) + List.length (filter negb bs)
   = List.length bs)%nat.
Proof. induction bs as [| [|] bs IH]; simpl; lia. Qed.

(** X20. For a species that occurs in the table, the counts of a gate are
    named correctly whatever the order [value_counts] returns them in: the
    entry named by the label is the number of the species' rows where the
    gate is [True], the entry ["not_" + label] the number where it is
    [False], and an outcome that does not occur has no entry.  The code
    renames the counts of every label other than ["state"]. *)
Theorem gate_counts_named true_first label species preds gate :
  In species preds ->
  List.length gate = List.length preds ->
  let rows := select_rows (map (fun p => String.eqb p species) preds) gate in
  let t := List.length (filter (fun b : bool => b) rows) in
  let f := List.length (filter negb rows) in
  exists s,
    species_gate_counts true_first label species preds gate = inr s /\
    forall name n,
      In (name, n) s <->
      (name = label /\ n = t /\ (0 < t)%nat) \/
      (name = ("not_" ++ label)%string /\ n = f /\ (0 < f)%nat).
Proof.
  intros Hin Hlen rows t f.
  pose proof (select_rows_species_nonempty species preds gate Hin Hlen) as Hne.
  fold rows in Hne.
  assert (Hpos : (0 < t + f)%nat).
  { unfold t, f. rewrite filter_bool_split. destruct rows; [congruence | simpl; lia]. }
  unfold species_gate_counts, value_counts_bool. fold rows. cbv zeta. fold t. fold f.
  destruct t as [| t'], f as [| f']; try lia.
  - eexists; split; [reflexivity |]. intros name n; simpl. split.
    + intros [H | []]. inversion H; subst. right. repeat split; lia.
    + intros [(_ & _ & H) | (-> & -> & _)]; [lia | now left].
  - eexists; split; [reflexivity |]. intros name n; simpl. split.
    + intros [H | []]. inversion H; subst. left. repeat split; lia.
    + intros [(-> & -> & _) | (_ & _ & H)]; [now left | lia].
  - assert (Hcases : forall s,
               s = [(true, S t'); (false, S f')] \/ s = [(false, S f'); (true, S t')] ->
               exists s',
                 rename_gate_counts label s = inr s' /\
                 forall name n,
                   In (name, n) s' <->
                   (name = label /\ n = S t' /\ (0 < S t')%nat) \/
                   (name = ("not_" ++ label)%string /\ n = S f' /\ (0 < S f')%nat)).
    { intros s [-> | ->]; (eexists; split; [reflexivity |]); intros name n; simpl;
        split.
      - intros [H | [H | []]]; inversion H; subst; [left | right]; repeat split; lia.
      - intros [(-> & -> & _) | (-> & -> & _)]; auto.
      - intros [H | [H | []]]; inversion H; subst; [right | left]; repeat split; lia.
      - intros [(-> & -> & _) | (-> & -> & _)]; auto. }
    apply Hcases.
    destruct (Nat.ltb (S f') (S t')); [now left |].
    destruct (Nat.ltb (S t') (S f')); [now right |].
    destruct true_first; [now left | now right].
Qed.

(** ** Merging the count files *)

(** X21. Reading and writing the files aside, [merge_prediction_results]
    fails in two cases only: with the type error when [prediction_type] is
    neither ["prediction"] nor ["uncertainty"], and with the error of
    [pd.concat] when no file name of the directory contains the pattern;
    otherwise it writes the merged file. *)
Theorem merge_failures {V} listing (read_csv : string -> csv_table V) prediction_type :
  let pattern := (prediction_type ++ "_counts")%string in
  (merge_prediction_results listing read_csv prediction_type = inl InvalidPredictionType
   <-> prediction_type <> "prediction" /\ prediction_type <> "uncertainty") /\
  (merge_prediction_results listing read_csv prediction_type = inl NoObjectsToConcatenate
   <-> (prediction_type = "prediction" \/ prediction_type = "uncertainty") /\
       forall file_name, In file_name listing -> contains pattern file_name = false) /\
  ((prediction_type = "prediction" \/ prediction_type = "uncertainty") ->
   (exists file_name, In file_name listing /\ contains pattern file_name = true) ->
   exists table,
     merge_prediction_results listing read_csv prediction_type
     = inr (("merged_" ++ pattern ++ ".csv")%string, table)).
Proof.
  intros pattern.
  assert (Hvalid : str_in prediction_type ["prediction"; "uncertainty"] = true
                   <-> prediction_type = "prediction" \/ prediction_type = "uncertainty").
  { rewrite str_in_iff. simpl. intuition; subst; auto. }
  assert (Hsel : filter (fun file_name => contains pattern file_name) listing = []
                 <-> forall file_name, In file_name listing ->
                                       contains pattern file_name = false).
  { split.
    - intros E f Hin. destruct (contains pattern f) eqn:Ec; [| reflexivity].
      assert (Hf : In f (filter (fun file_name => contains pattern file_name) listing))
        by (apply filter_In; now split).
      rewrite E in Hf. destruct Hf.
    - intros Hall. induction listing as [| f l IH]; simpl; [reflexivity |].
      rewrite (Hall f) by (now left). apply IH. intros g Hg. apply Hall. now right. }
  unfold merge_prediction_results. cbv zeta.
  change (prediction_type ++ "_" ++ "counts")%string with pattern.
  destruct (str_in prediction_type ["prediction"; "uncertainty"]) eqn:Ev; simpl negb;
    cbv iota.
  - assert (Hv : prediction_type = "prediction" \/ prediction_type = "uncertainty")
      by (now apply Hvalid).
    destruct (filter (fun file_name => contains pattern file_name) listing)
      as [| f fs] eqn:Ef; simpl map.
    + split; [| split].
      * split; [discriminate | intros [H1 H2]; destruct Hv; contradiction].
      * split; [intros _; split; [exact Hv | now apply Hsel] | reflexivity].
      * intros _ (f & Hin & Hc). exfalso.
        assert (Hnone := proj1 Hsel eq_refl f Hin). congruence.
    + split; [| split].
      * split; [discriminate | intros [H1 H2]; destruct Hv; contradiction].
      * split; [discriminate |]. intros [_ Hall]. exfalso.
        apply Hsel in Hall. discriminate.
      * intros _ _. eexists. reflexivity.
  - assert (Hnv : ~ (prediction_type = "prediction" \/ prediction_type = "uncertainty")).
    { intros Hv. apply Hvalid in Hv. congruence. }
    split; [| split].
    + split; [intros _; tauto | reflexivity].
    + split; [discriminate | intros [Hv _]; contradiction].
    + intros Hv; contradiction.
Qed.

Lemma drop_duplicated_all_seen {V} (t : csv_table V) seen :
  (forall n, In n (map fst t) -> In n seen) -> drop_duplicated seen t = [].
Proof.
  induction t as [| [n c] t IH]; intros Hall; simpl; [reflexivity |].
  assert (Hn : str_in n seen = true) by (apply str_in_iff, Hall; now left).
  rewrite Hn. apply IH. intros m Hm. apply Hall. now right.
Qed.

Lemma drop_duplicated_first {V} (t0 t1 : csv_table V) seen :
  NoDup (map fst t0) ->
  (forall n, In n (map fst t0) -> ~ In n seen) ->
  (forall n, In n (map fst t1) -> In n seen \/ In n (map fst t0)) ->
  drop_duplicated seen (t0 ++ t1) = t0.
Proof.
  revert seen. induction t0 as [| [n c] t0 IH]; intros seen Hnd Hfresh Hcov.
  - simpl. apply drop_duplicated_all_seen. intros m Hm.
    destruct (Hcov m Hm) as [H | []]; exact H.
  - simpl. destruct (str_in n seen) eqn:En.
    + exfalso. apply (Hfresh n); [now left | now apply str_in_iff].
    + f_equal. inversion Hnd as [| ? ? Hnotin Hnd']; subst. apply IH.
      * exact Hnd'.
      * intros m Hm [Heq | Hin].
        -- subst m. contradiction.
        -- apply (Hfresh m); [now right | exact Hin].
      * intros m Hm. destruct (Hcov m Hm) as [H | [H | H]].
        -- left. now right.
        -- left. now left.
        -- now right.
Qed.

Lemma rename_count_absent {V} nm (t : csv_table V) :
  ~ In "count" (map fst t) -> rename_count nm t = t.
Proof.
  induction t as [| [n c] t IH]; intros Hno; simpl; [reflexivity |].
  destruct (String.eqb n "count") eqn:E.
  - apply String.eqb_eq in E. subst n. exfalso. apply Hno. now left.
  - simpl. f_equal. apply IH. intros H. apply Hno. now right.
Qed.

Lemma merge_valid_type prediction_type :
  prediction_type = "prediction" \/ prediction_type = "uncertainty" ->
  str_in prediction_type ["prediction"; "uncertainty"] = true.
Proof. intros [-> | ->]; reflexivity. Qed.

Lemma merge_unfold {V} listing (read_csv : string -> csv_table V) prediction_type f0 rest :
  prediction_type = "prediction" \/ prediction_type = "uncertainty" ->
  selected_files prediction_type listing = f0 :: rest ->
  merge_prediction_results listing read_csv prediction_type
  = inr (("merged_" ++ (prediction_type ++ "_counts") ++ ".csv")%string,
         drop_duplicated []
           (concat_columns
              (map (fun file_name =>
                      rename_count (sample_column prediction_type file_name)
                                   (read_csv file_name))
                   (f0 :: rest)))).
Proof.
  intros Hv Hsel. unfold merge_prediction_results.
  rewrite (merge_valid_type _ Hv). cbn [negb]. cbv zeta.
  unfold selected_files in Hsel.
  change (prediction_type ++ "_" ++ "counts")%string
    with (prediction_type ++ "_counts")%string.
  rewrite Hsel. cbn [map]. reflexivity.
Qed.

Lemma table_rows_rename {V} nm (t : csv_table V) :
  table_rows (rename_count nm t) = table_rows t.
Proof.
  unfold table_rows, rename_count. rewrite map_map. reflexivity.
Qed.

Lemma merged_rows_eq {V} listing (read_csv : string -> csv_table V) prediction_type fs :
  selected_files prediction_type listing = fs ->
  fold_right Nat.max 0%nat
    (map table_rows
         (map (fun file_name =>
                 rename_count (sample_column prediction_type file_name)
                              (read_csv file_name)) fs))
  = merged_rows prediction_type listing read_csv.
Proof.
  intros <-. unfold merged_rows. rewrite map_map. f_equal.
  apply map_ext. intros f. apply table_rows_rename.
Qed.

(** X22. The uncertainty count files all have the same columns and none
    called [count], so merging them keeps the first file only: when every
    selected file has the same, distinct column names without [count], the
    merged table is the table of the first selected file, filled up to the
    longest of the files. *)
Theorem merge_same_columns_keeps_first {V} listing (read_csv : string -> csv_table V)
        prediction_type names f0 rest :
  prediction_type = "prediction" \/ prediction_type = "uncertainty" ->
  selected_files prediction_type listing = f0 :: rest ->
  (forall f, In f (f0 :: rest) -> map fst (read_csv f) = names) ->
  NoDup names ->
  ~ In "count" names ->
  merge_prediction_results listing read_csv prediction_type
  = inr (("merged_" ++ (prediction_type ++ "_counts") ++ ".csv")%string,
         map (fun nc => (fst nc, pad (merged_rows prediction_type listing read_csv) (snd nc)))
             (read_csv f0)).
Proof.
  intros Hv Hsel Hnames Hnd Hcount.
  rewrite (merge_unfold _ _ _ _ _ Hv Hsel). f_equal. f_equal.
  unfold concat_columns. rewrite (merged_rows_eq _ _ _ _ Hsel).
  set (n := merged_rows prediction_type listing read_csv).
  assert (Hren : forall f, In f (f0 :: rest) ->
                           rename_count (sample_column prediction_type f) (read_csv f)
                           = read_csv f).
  { intros f Hf. apply rename_count_absent. now rewrite (Hnames f Hf). }
  rewrite (map_ext_in _ read_csv _ Hren).
  cbn [map List.concat]. rewrite map_app.
  assert (Hfst : forall t : csv_table V,
             map fst (map (fun nc : string * list (option V) =>
                             (fst nc, pad n (snd nc))) t) = map fst t).
  { intros t. rewrite map_map. apply map_ext. reflexivity. }
  apply drop_duplicated_first.
  - rewrite Hfst, (Hnames f0) by (now left). exact Hnd.
  - intros m _ [].
  - intros m Hm. right. rewrite Hfst in *.
    rewrite (Hnames f0) by (now left).
    rewrite <- flat_map_concat_map in Hm.
    apply in_map_iff in Hm. destruct Hm as ([m' c] & <- & Hin).
    apply in_flat_map in Hin. destruct Hin as (f & Hf & Hin).
    rewrite <- (Hnames f) by (now right).
    apply in_map_iff. exists (m', c). now split.
Qed.

Lemma two_columns {V} (t : csv_table V) :
  map fst t = ["predictions"; "count"] ->
  t = [("predictions", csv_column "predictions" t); ("count", csv_column "count" t)].
Proof.
  destruct t as [| [n1 c1] [| [n2 c2] [| ? ?]]]; try discriminate.
  simpl. intros H. injection H as -> ->. reflexivity.
Qed.

Lemma drop_duplicated_counts {V} (nm : string -> string)
      (P C : string -> list (option V)) fs :
  forall seen,
    In "predictions" seen ->
    NoDup (map nm fs) ->
    (forall f, In f fs -> ~ In (nm f) seen) ->
    drop_duplicated seen
      (List.concat (map (fun f => [("predictions", P f); (nm f, C f)]) fs))
    = map (fun f => (nm f, C f)) fs.
Proof.
  induction fs as [| f fs IH]; intros seen Hp Hnd Hfresh; [reflexivity |].
  cbn [map List.concat app drop_duplicated].
  assert (E1 : str_in "predictions" seen = true) by (now apply str_in_iff).
  rewrite E1.
  destruct (str_in (nm f) seen) eqn:E2.
  { exfalso. apply (Hfresh f); [now left | now apply str_in_iff]. }
  f_equal. inversion Hnd as [| ? ? Hnotin Hnd']; subst. apply IH.
  - now right.
  - exact Hnd'.
  - intros g Hg [Heq | Hin].
    + apply Hnotin. rewrite Heq. now apply in_map.
    + apply (Hfresh g); [now right | exact Hin].
Qed.

(** X23. The prediction count files are merged by row position, not by
    species: when every selected file has the columns [predictions] and
    [count] and the sample names are distinct, the merged table holds the
    species column of the first selected file only, followed by one count
    column per file under the sample's name, each filled up to the longest
    file. *)
Theorem merge_counts_by_position {V} listing (read_csv : string -> csv_table V)
        prediction_type f0 rest :
  prediction_type = "prediction" \/ prediction_type = "uncertainty" ->
  selected_files prediction_type listing = f0 :: rest ->
  (forall f, In f (f0 :: rest) -> map fst (read_csv f) = ["predictions"; "count"]) ->
  NoDup (map (sample_column prediction_type) (f0 :: rest)) ->
  ~ In "predictions" (map (sample_column prediction_type) (f0 :: rest)) ->
  let n := merged_rows prediction_type listing read_csv in
  merge_prediction_results listing read_csv prediction_type
  = inr (("merged_" ++ (prediction_type ++ "_counts") ++ ".csv")%string,
         ("predictions", pad n (csv_column "predictions" (read_csv f0)))
           :: map (fun f => (sample_column prediction_type f,
                             pad n (csv_column "count" (read_csv f))))
                  (f0 :: rest)).
Proof.
  intros Hv Hsel Hcols Hnd Hpred n.
  rewrite (merge_unfold _ _ _ _ _ Hv Hsel). f_equal. f_equal.
  unfold concat_columns. rewrite (merged_rows_eq _ _ _ _ Hsel). fold n.
  rewrite concat_map, map_map.
  rewrite (map_ext_in _
             (fun f => [("predictions", pad n (csv_column "predictions" (read_csv f)));
                        (sample_column prediction_type f,
                         pad n (csv_column "count" (read_csv f)))])).
  2:{ intros f Hf. rewrite (two_columns _ (Hcols f Hf)) at 1. reflexivity. }
  cbn [map List.concat app drop_duplicated str_in existsb].
  assert (Hne : sample_column prediction_type f0 <> "predictions").
  { intros E. apply Hpred. left. exact E. }
  assert (E0 : str_in (sample_column prediction_type f0) ["predictions"] = false).
  { destruct (str_in (sample_column prediction_type f0) ["predictions"]) eqn:E;
      [| reflexivity].
    apply str_in_iff in E. destruct E as [E | []]. now symmetry in E. }
  unfold str_in in E0. cbn [existsb] in E0.
  rewrite E0. f_equal. f_equal.
  inversion Hnd as [| ? ? Hnotin Hnd']; subst.
  apply (drop_duplicated_counts (sample_column prediction_type)
           (fun f => pad n (csv_column "predictions" (read_csv f)))
           (fun f => pad n (csv_column "count" (read_csv f)))).
  - right. now left.
  - exact Hnd'.
  - intros g Hg [Heq | [Heq | []]].
    + apply Hnotin. rewrite Heq. now apply in_map.
    + apply Hpred. right. rewrite Heq. now apply in_map.
Qed.

(** X24. The merged file is one of the files the next merge reads: its
    name contains the pattern it was selected by, so a second run over the
    same directory reads it as one more sample, called [merged], and never
    fails for want of files. *)
Theorem merge_reads_own_output {V} listing listing' (read_csv read_csv' : string -> csv_table V)
        prediction_type merged_filename table :
  merge_prediction_results listing read_csv prediction_type = inr (merged_filename, table) ->
  In merged_filename listing' ->
  In merged_filename (selected_files prediction_type listing') /\
  sample_column prediction_type merged_filename = "merged" /\
  exists table',
    merge_prediction_results listing' read_csv' prediction_type
    = inr (merged_filename, table').
Proof.
  intros Hrun Hin.
  assert (Hv : prediction_type = "prediction" \/ prediction_type = "uncertainty").
  { unfold merge_prediction_results in Hrun.
    destruct (str_in prediction_type ["prediction"; "uncertainty"]) eqn:E;
      [| discriminate].
    apply str_in_iff in E. simpl in E. intuition. }
  assert (Hname : merged_filename
                  = ("merged_" ++ (prediction_type ++ "_counts") ++ ".csv")%string).
  { destruct (selected_files prediction_type listing) as [| f0 rest] eqn:Hsel.
    - unfold merge_prediction_results in Hrun.
      rewrite (merge_valid_type _ Hv) in Hrun. cbn [negb] in Hrun. cbv zeta in Hrun.
      unfold selected_files in Hsel.
      change (prediction_type ++ "_" ++ "counts")%string
        with (prediction_type ++ "_counts")%string in Hrun.
      rewrite Hsel in Hrun. discriminate.
    - rewrite (merge_unfold _ _ _ _ _ Hv Hsel) in Hrun. now injection Hrun as <- _. }
  assert (Hc : contains (prediction_type ++ "_counts")%string merged_filename = true)
    by (subst merged_filename; destruct Hv as [-> | ->]; reflexivity).
  assert (Hsel' : In merged_filename (selected_files prediction_type listing')).
  { apply filter_In. now split. }
  split; [exact Hsel' |]. split.
  - subst merged_filename. destruct Hv as [-> | ->]; reflexivity.
  - destruct (selected_files prediction_type listing') as [| f0 rest] eqn:E;
      [destruct Hsel' |].
    rewrite (merge_unfold _ _ _ _ _ Hv E), Hname. eexists. reflexivity.
Qed.

(** ** The further properties on the example data *)

Lemma lt_low t : 0 < t -> Rltb (arcsinh_scaled 150 0) t = true.
Proof. intros; rewrite arcsinh_scaled_0; apply Rltb_true; lra. Qed.

Lemma lt_high t : t <= 1 -> Rltb (arcsinh_scaled 150 300) t = false.
Proof.
  intros; rewrite scaled_300; apply Rltb_false; pose proof arcsinh_2_gt_1; lra.
Qed.

Lemma wf_sample_df : wf_df sample_df.
Proof. repeat constructor. Qed.

Lemma NoDup_sample_df : NoDup (map fst (columns sample_df)).
Proof. repeat constructor; simpl; intuition discriminate. Qed.

Lemma NoDup_sample_pred_df : NoDup (map fst (columns sample_pred_df)).
Proof. repeat constructor; simpl; intuition discriminate. Qed.

(** Gating the predicted table with both primary stains. *)
Lemma sample_pred_gated :
  exists g,
    apply_gating_body (Some "FL1") ">" (Some 1) (Some "FL2") ">" (Some 1) 150 None
                      sample_pred_df = Ok (g, ["dead"; "cell"; "state"]).
Proof.
  eexists. unfold apply_gating_body, sample_pred_df. gate_eval. reflexivity.
Qed.

(** Gating with one extra stain and no primary stain. *)
Lemma sample_extra_gated sg label :
  sg <> ">" ->
  exists g,
    apply_gating_body None "" None None "" None 150
                      (Some [("FL1", (sg, Some 1, label))]) sample_pred_df
    = Ok (g, [label]).
Proof.
  intros Hsg. eexists. unfold apply_gating_body, sample_pred_df.
  assert (E : String.eqb sg ">" = false) by (now apply String.eqb_neq).
  cbn. rewrite ?E. cbn.
  rewrite ?(lt_low 1), ?(lt_high 1) by lra. cbn.
  unfold stain_sannity_check. rewrite getitem_setitem_same. reflexivity.
Qed.

Lemma gating_keeps_rows_witness :
  exists g,
    apply_gating_body (Some "FL1") ">" (Some 1) (Some "FL2") ">" (Some 1) 150 None
                      sample_df = Ok (g, ["dead"; "cell"; "state"]) /\
    wf_df g /\ nrows g = nrows sample_df.
Proof.
  destruct state_derived_at_nonzero_threshold as (g & Hg & _).
  exists g. split; [exact Hg |].
  exact (gating_keeps_rows _ _ _ _ _ _ _ _ _ _ _ wf_sample_df Hg).
Defined.

Lemma gating_other_columns_witness :
  exists g,
    apply_gating_body (Some "FL1") ">" (Some 1) (Some "FL2") ">" (Some 1) 150 None
                      sample_df = Ok (g, ["dead"; "cell"; "state"]) /\
    getitem g "FL2" = Ok (ColNum (map (arcsinh_scaled 150) [300; 300; 0])).
Proof.
  destruct state_derived_at_nonzero_threshold as (g & Hg & _).
  exists g. split; [exact Hg |].
  apply (gating_other_columns _ _ _ _ _ _ _ _ _ _ _ "FL2" Hg).
  simpl. intuition discriminate.
Defined.


Lemma gating_unrecognised_relation_witness :
  exists e,
    apply_gating_body (Some "FL1") ">=" (Some 1) (Some "FL2") ">" (Some 1) 150 None
                      sample_df = Err e /\
    (e = KeyError "FL1" \/
     exists lo hi, e = ValueError (MsgInvalidGating "FL1" lo hi ">=" (Some 1))).
Proof.
  apply (gating_unrecognised_relation "FL1" ">=" (Some 1) (Some "FL2") ">" (Some 1)
                                      150 None sample_df).
  reflexivity.
Defined.


Lemma gating_needs_two_rows_witness :
  exists e,
    apply_gating_body (Some "FL1") ">" (Some 1) None "" None 150 None single_cell_df
    = Err e.
Proof.
  apply gating_needs_two_rows.
  - repeat constructor.
  - simpl. lia.
  - left. discriminate.
Defined.

Lemma extra_stain_sign_witness :
  exists g,
    apply_gating_body None "" None None "" None 150
                      (Some [("FL1", ("greater_than", Some 1, "dim"))]) sample_pred_df
    = Ok (g, ["dim"]) /\
    getitem g "dim"
    = Ok (ColBool (map (fun x => Rltb (arcsinh_scaled 150 x) 1) [0; 300; 300])).
Proof.
  destruct (sample_extra_gated "greater_than" "dim") as (g & Hg); [discriminate |].
  exists g. split; [exact Hg |].
  apply (extra_stain_sign 150 "FL1" "greater_than" 1 "dim" sample_pred_df [0; 300; 300]
                          g ["dim"]).
  - reflexivity.
  - discriminate.
  - discriminate.
  - exact Hg.
Defined.

Lemma state_label_from_extra_stain_witness :
  exists g,
    apply_gating_body None "" None None "" None 150
                      (Some [("FL1", ("<", Some 1, "state"))]) sample_pred_df
    = Ok (g, ["state"]) /\
    save_gating_results g ["state"] = Err (ValueError MsgNotInList).
Proof.
  destruct (sample_extra_gated "<" "state") as (g & Hg); [discriminate |].
  exists g. split; [exact Hg |].
  apply (state_label_from_extra_stain _ _ _ _ _ _ _ _ _ _ _ Hg).
  - unfold apply_gating_body, sample_pred_df in Hg. cbn in Hg.
    rewrite ?(lt_low 1), ?(lt_high 1) in Hg by lra. cbn in Hg.
    inversion Hg. reflexivity.
  - simpl. now left.
  - left. split; [reflexivity |]. simpl. intuition discriminate.
Defined.

Lemma predict_leaves_heap_witness :
  nth_error (snd (predict (sample_kwargs true) [sample_df])) 0%nat
  = nth_error [sample_df] 0%nat.
Proof.
  apply predict_leaves_heap. simpl. lia.
Defined.

Lemma predict_returns_raw_table_witness :
  exists run h' df_pred,
    predict (sample_kwargs true) [sample_df] = (Ok run, h') /\
    nth_error h' (run_data_df_pred run) = Some df_pred /\
    nrows df_pred = nrows sample_df /\
    has_col df_pred "Time" = false /\
    forall name,
      name <> "Time" -> name <> "predictions" -> name <> "uncertainties" ->
      getitem df_pred name = getitem sample_df name.
Proof.
  destruct (sample_run true) as (run & h' & H).
  destruct (predict_returns_raw_table (sample_kwargs true) [sample_df] run h' sample_df
              H eq_refl NoDup_sample_df) as (df_pred & H1 & H2 & H3 & H4).
  exists run, h', df_pred. repeat (split; [assumption |]). exact H4.
Defined.

Lemma predicted_labels_known_witness :
  exists run h' df_pred preds,
    predict (sample_kwargs true) [sample_df] = (Ok run, h') /\
    nth_error h' (run_data_df_pred run) = Some df_pred /\
    getitem df_pred "predictions" = Ok (ColStr preds) /\
    Forall (fun s => In s ["A"; "B"] \/ s = "Unknown") preds.
Proof.
  destruct (sample_run true) as (run & h' & H).
  destruct (predicted_labels_known (sample_kwargs true) [sample_df] run h' sample_df
              H eq_refl) as (df_pred & preds & H1 & H2 & H3).
  - repeat constructor.
  - exists run, h', df_pred, preds. repeat (split; [assumption |]). exact H3.
Defined.

Lemma sample_scores_valid :
  Forall (valid_scores 2) [[1; 0]; [0; 1]; [1; 1]].
Proof.
  repeat constructor; simpl; lra.
Qed.

Lemma uncertainties_within_max_entropy_witness :
  exists pc unc its,
    predict_species sample_df sample_model sample_scaler ["A"; "B"] 150
    = Ok (pc, unc, its) /\
    List.length unc = 3%nat /\
    List.length pc = List.length unc /\
    Forall (fun u => 0 <= u <= ln (INR 2)) unc.
Proof.
  eexists _, _, _. split; [exact sample_species |].
  exact (uncertainties_within_max_entropy _ _ _ _ _ _ _ _ sample_species
           sample_scores_valid).
Defined.

Lemma hetero_simple_defined data :
  data <> [] ->
  Forall (fun col => col <> []) data ->
  exists h, hetero_simple data = Some h.
Proof.
  intros Hne Hcols.
  destruct (ranges_of_columns data Hcols) as (ranges & Hrs & Hall).
  unfold hetero_simple. rewrite Hrs.
  destruct ranges as [| r rs]; [| eexists; reflexivity].
  inversion Hall; subst; congruence.
Qed.

Lemma hetero_simple_zero_witness :
  exists h,
    hetero_simple [[1; 5; 9]; [4; 4; 4]] = Some h /\
    0 <= h /\
    (h = 0 <-> Forall (fun col => forall x y, In x col -> In y col -> x = y)
                      [[1; 5; 9]; [4; 4; 4]]).
Proof.
  destruct (hetero_simple_defined [[1; 5; 9]; [4; 4; 4]]) as (h & Hh).
  - discriminate.
  - repeat constructor; discriminate.
  - exists h. split; [exact Hh |]. exact (hetero_simple_zero _ _ Hh).
Defined.

Lemma hetero_simple_subset_witness :
  exists h h',
    hetero_simple [[1; 5; 9]; [4; 4; 4]] = Some h /\
    hetero_simple (map (select_rows [true; false; true]) [[1; 5; 9]; [4; 4; 4]])
    = Some h' /\
    h' <= h.
Proof.
  destruct (hetero_simple_defined [[1; 5; 9]; [4; 4; 4]]) as (h & Hh);
    [discriminate | repeat constructor; discriminate |].
  destruct (hetero_simple_defined
              (map (select_rows [true; false; true]) [[1; 5; 9]; [4; 4; 4]]))
    as (h' & Hh');
    [discriminate | repeat constructor; discriminate |].
  exists h, h'. split; [exact Hh |]. split; [exact Hh' |].
  exact (hetero_simple_subset _ _ _ _ Hh Hh').
Defined.

Lemma hetero_features_columns_witness :
  (forall ps us,
      getitem sample_pred_df "predictions" = Ok (ColStr ps) ->
      getitem sample_pred_df "uncertainties" = Ok (ColNum us) ->
      hetero_features sample_pred_df = Ok (feature_columns (columns sample_pred_df))) /\
  ((forall us, getitem sample_pred_df "uncertainties" <> Ok (ColNum us)) ->
   hetero_features sample_pred_df = Err (KeyError "uncertainties")).
Proof.
  apply hetero_features_columns. exact NoDup_sample_pred_df.
Defined.

Lemma gating_transforms_features_witness :
  exists g,
    apply_gating_body (Some "FL1") ">" (Some 1) (Some "FL2") ">" (Some 1) 150 None
                      sample_pred_df = Ok (g, ["dead"; "cell"; "state"]) /\
    hetero_features sample_pred_df = Ok (feature_columns (columns sample_pred_df)) /\
    hetero_features g
    = Ok (map (transformed_column 150) (feature_columns (columns sample_pred_df))).
Proof.
  destruct sample_pred_gated as (g & Hg).
  exists g. split; [exact Hg |].
  apply (gating_transforms_features _ _ _ _ _ _ _ _ _ _ _ ["A"; "B"; "A"] [0; 0; 0] Hg).
  - exact NoDup_sample_pred_df.
  - reflexivity.
  - reflexivity.
  - intros l [<- | [<- | [<- | []]]]; reflexivity.
Defined.

Lemma uncertainty_counts_after_filter_witness :
  exists run h' df_pred preds unc,
    predict (sample_kwargs false) [sample_df] = (Ok run, h') /\
    nth_error h' (run_data_df_pred run) = Some df_pred /\
    getitem df_pred "predictions" = Ok (ColStr preds) /\
    getitem df_pred "uncertainties" = Ok (ColNum unc) /\
    let counts := uncertainty_counts preds unc (run_uncertainty_threshold run) in
    NoDup (map fst counts) /\
    (forall key, In key preds -> exists gt le, In (key, (gt, le)) counts) /\
    forall key gt le,
      In (key, (gt, le)) counts ->
      In key preds /\
      (gt + le = List.length (filter (fun r : string * R => String.eqb (fst r) key)
                                     (combine preds unc)))%nat /\
      (key <> "Unknown" -> gt = 0%nat).
Proof.
  destruct (sample_run false) as (run & h' & H).
  destruct (uncertainty_counts_after_filter (sample_kwargs false) [sample_df] run h'
              H eq_refl) as (df_pred & preds & unc & H1 & H2 & H3 & H4).
  exists run, h', df_pred, preds, unc. repeat (split; [assumption |]). exact H4.
Defined.

Lemma gate_counts_named_witness :
  exists s,
    species_gate_counts true "dead" "A" ["A"; "B"; "A"; "A"] [true; true; false; true]
    = inr s /\
    forall name n,
      In (name, n) s <->
      (name = "dead" /\ n = 2%nat /\ (0 < 2)%nat) \/
      (name = "not_dead" /\ n = 1%nat /\ (0 < 1)%nat).
Proof.
  apply (gate_counts_named true "dead" "A" ["A"; "B"; "A"; "A"] [true; true; false; true]).
  - simpl. now left.
  - reflexivity.
Defined.

Lemma merge_same_columns_keeps_first_witness :
  merge_prediction_results sample_listing sample_files "uncertainty"
  = inr ("merged_uncertainty_counts.csv",
         [("predictions", [Some "A"; Some "B"; None]);
          ("greater_than", [Some "0"; Some "0"; None]);
          ("less_than", [Some "5"; Some "3"; None])]).
Proof.
  apply (merge_same_columns_keeps_first sample_listing sample_files "uncertainty"
           ["predictions"; "greater_than"; "less_than"]
           "s1_uncertainty_counts.csv" ["s2_uncertainty_counts.csv"]).
  - now right.
  - reflexivity.
  - intros f [<- | [<- | []]]; reflexivity.
  - repeat constructor; simpl; intuition discriminate.
  - simpl. intuition discriminate.
Defined.

Lemma merge_counts_by_position_witness :
  merge_prediction_results sample_listing sample_files "prediction"
  = inr ("merged_prediction_counts.csv",
         [("predictions", [Some "A"; Some "B"; None]);
          ("s1", [Some "5"; Some "3"; None]);
          ("s2", [Some "7"; Some "1"; Some "1"])]).
Proof.
  apply (merge_counts_by_position sample_listing sample_files "prediction"
           "s1_prediction_counts.csv" ["s2_prediction_counts.csv"]).
  - now left.
  - reflexivity.
  - intros f [<- | [<- | []]]; reflexivity.
  - repeat constructor; simpl; intuition discriminate.
  - simpl. intuition discriminate.
Defined.

Lemma merge_reads_own_output_witness :
  In "merged_prediction_counts.csv"
     (selected_files "prediction" ("merged_prediction_counts.csv" :: sample_listing)) /\
  sample_column "prediction" "merged_prediction_counts.csv" = "merged" /\
  exists table',
    merge_prediction_results ("merged_prediction_counts.csv" :: sample_listing)
                             sample_files "prediction"
    = inr ("merged_prediction_counts.csv", table').
Proof.
  eapply (merge_reads_own_output sample_listing
            ("merged_prediction_counts.csv" :: sample_listing)
            sample_files sample_files "prediction").
  - reflexivity.
  - now left.
Defined.

(** * The sanity check of every gate *)

























